(** * oyster-api: event store, ingestion, replay and reorg reconciliation

    A shallow embedding of the TypeScript sources of the indexing service
    (packages/db/src/cache.ts, packages/base-plugins/src/plugins/source.ts,
    the storage, reorg and snapshot plugins and the API handler), with the
    properties of its specification stated and settled against that code.

    Conventions.
    - A JavaScript [number] holding a block number, an index or a size is a
      [Z]; every such value in the sources is an integer.
    - Code that throws returns [Throw e s], carrying the state reached when
      the exception left the function: in-memory mutations made before the
      throw stay visible, as they do in JavaScript.
    - The database is explicit state, separate from the in-memory objects of
      the plugins, so that a rolled back transaction restores the tables and
      leaves the objects as they are. *)

From Stdlib Require Import ZArith DecimalString DecimalPos DecimalZ Ascii.
From stdpp Require Import gmap strings list sorting.

Local Open Scope Z_scope.

(** ** Numbers printed in template literals *)

(** [`${n}`] for an integer [n]: decimal digits, with a leading minus sign
    for negative numbers. *)
Definition string_of_Z (z : Z) : string :=
  NilZero.string_of_int (Z.to_int z).

(** [String.prototype.toLowerCase] on ASCII text. *)
Definition lower_ascii (c : ascii) : ascii :=
  let n := nat_of_ascii c in
  if ((65 <=? n)%nat && (n <=? 90)%nat)%bool then ascii_of_nat (n + 32) else c.

Fixpoint toLowerCase (s : string) : string :=
  match s with
  | EmptyString => EmptyString
  | String c s' => String (lower_ascii c) (toLowerCase s')
  end.

Definition startsWith (p s : string) : bool := String.prefix p s.

(** utils.ts [formatHexString]: strip a leading [0x], lower-case the rest. *)
Definition formatHexString (str : string) : string :=
  if startsWith "0x" str
  then toLowerCase (String.substring 2 (String.length str - 2) str)%nat
  else toLowerCase str.

(** ** Positions *)

(** [EventPosition]: the triple naming a point of the log stream. *)
Record EventPosition := mkPos {
  pos_blockNumber : Z;
  pos_transactionIndex : Z;
  pos_logIndex : Z;
}.

#[global] Instance EventPosition_eq_dec : EqDecision EventPosition.
Proof. solve_decision. Defined.

(** utils.ts [compareLog]: the difference of the first component that
    differs. *)
Definition compareLog (a b : EventPosition) : Z :=
  let res := pos_blockNumber a - pos_blockNumber b in
  if negb (res =? 0) then res else
  let res := pos_transactionIndex a - pos_transactionIndex b in
  if negb (res =? 0) then res else
  pos_logIndex a - pos_logIndex b.

(** The SQL conditions built with [Op.or] over the three columns. *)
Definition pos_ltb (a b : EventPosition) : bool :=
  (pos_blockNumber a <? pos_blockNumber b)
  || ((pos_blockNumber a =? pos_blockNumber b)
      && (pos_transactionIndex a <? pos_transactionIndex b))
  || ((pos_blockNumber a =? pos_blockNumber b)
      && (pos_transactionIndex a =? pos_transactionIndex b)
      && (pos_logIndex a <? pos_logIndex b)).

Definition pos_leb (a b : EventPosition) : bool :=
  (pos_blockNumber a <? pos_blockNumber b)
  || ((pos_blockNumber a =? pos_blockNumber b)
      && (pos_transactionIndex a <? pos_transactionIndex b))
  || ((pos_blockNumber a =? pos_blockNumber b)
      && (pos_transactionIndex a =? pos_transactionIndex b)
      && (pos_logIndex a <=? pos_logIndex b)).

(** [Array.prototype.sort(cmp)]: a stable sort; [a] stays before [b] when
    [cmp a b <= 0]. *)
Section JsSort.
Context {A : Type} (cmp : A → A → Z).

Fixpoint js_insert (x : A) (l : list A) : list A :=
  match l with
  | [] => [x]
  | y :: l' => if cmp y x <=? 0 then y :: js_insert x l' else x :: y :: l'
  end.

Definition js_sort (l : list A) : list A :=
  foldl (λ acc x, js_insert x acc) [] l.
End JsSort.

(** ** ethers logs *)

(** [ethers.providers.Log], with the fields the service reads.  A property
    can be absent from an object built by hand ([fromDBEvent] builds one
    without [transactionHash]); such a property reads [undefined], here
    [None]. *)
Record Log := mkLog {
  log_address : string;
  log_blockNumber : Z;
  log_blockHash : string;
  log_transactionHash : option string;
  log_transactionIndex : Z;
  log_logIndex : Z;
  log_removed : bool;
}.

Definition log_position (l : Log) : EventPosition :=
  mkPos (log_blockNumber l) (log_transactionIndex l) (log_logIndex l).

(** [ethers.utils.LogDescription]: the event name and its arguments; the
    arguments are carried as their serialized text. *)
Record LogDescription := mkParsed {
  parsed_name : string;
  parsed_args : string;
}.


(** ** Exceptions and stateful code *)

Inductive Exception :=
| JsError (message : string)                  (* [new Error(message)] *)
| TypeError (message : string)                (* a property read on [undefined] or [null] *)
| JSONRPCError (code : Z) (message : string)  (* jsonrpc.ts [JSONRPCError] *)
| DatabaseError (message : string).           (* raised by the database *)

#[global] Instance Exception_eq_dec : EqDecision Exception.
Proof. solve_decision. Defined.

(** The outcome of a call on a state of type [S]: a value, or an
    exception; either way with the state it leaves behind. *)
Inductive Outcome (S A : Type) :=
| Ok (a : A) (s : S)
| Throw (e : Exception) (s : S).
Arguments Ok {S A} a s.
Arguments Throw {S A} e s.

Definition M (S A : Type) : Type := S → Outcome S A.

Definition ret {S A} (a : A) : M S A := λ s, Ok a s.
Definition throw {S A} (e : Exception) : M S A := λ s, Throw e s.
Definition bind {S A B} (m : M S A) (k : A → M S B) : M S B :=
  λ s, match m s with
       | Ok a s' => k a s'
       | Throw e s' => Throw e s'
       end.
Definition get {S} : M S S := λ s, Ok s s.
Definition put {S} (s : S) : M S unit := λ _, Ok tt s.
Definition modify {S} (f : S → S) : M S unit := λ s, Ok tt (f s).

Declare Scope js_scope.
Delimit Scope js_scope with js.
Notation "'let*' x := m 'in' k" := (bind m (λ x, k))
  (at level 10, x pattern, m at level 100, k at level 200) : js_scope.
Notation "m ;; k" := (bind m (λ _, k))
  (at level 100, k at level 200, right associativity) : js_scope.

(** [for (const x of l) { await f(x) }] *)
Fixpoint forEach {S A} (l : list A) (f : A → M S unit) : M S unit :=
  match l with
  | [] => ret tt
  | x :: l' => bind (f x) (λ _, forEach l' f)
  end.

Definition outcome_state {S A} (o : Outcome S A) : S :=
  match o with Ok _ s => s | Throw _ s => s end.

Definition outcome_value {S A} (o : Outcome S A) : Exception + A :=
  match o with Ok a _ => inr a | Throw e _ => inl e end.

(** A call that reads the state and changes nothing: an exception or a
    value. *)
Definition on_value {A B} (f : A → B) (r : Exception + A) : Exception + B :=
  match r with
  | inl e => inl e
  | inr a => inr (f a)
  end.
(** * The ingestor: packages/base-plugins/src/plugins/source.ts *)

Module Source.

(** [MixedLog]: a log, or the placeholder of a single-instrument re-fetch
    that resolves to the logs in [promise]. *)
Inductive MixedLog :=
| PlainLog (l : Log)
| Deferred (blockNumber : Z) (transactionHash : string)
           (transactionIndex logIndex : Z) (promise : list Log).

Definition isLog (l : MixedLog) : bool :=
  match l with PlainLog _ => true | Deferred _ _ _ _ _ => false end.

Definition blockNumber (l : MixedLog) : Z :=
  match l with
  | PlainLog l => log_blockNumber l
  | Deferred b _ _ _ _ => b
  end.

Definition transactionHash (l : MixedLog) : option string :=
  match l with
  | PlainLog l => log_transactionHash l
  | Deferred _ h _ _ _ => Some h
  end.

Definition position (l : MixedLog) : EventPosition :=
  match l with
  | PlainLog l => log_position l
  | Deferred b _ t i _ => mkPos b t i
  end.

Definition removed (l : MixedLog) : bool :=
  match l with PlainLog l => log_removed l | Deferred _ _ _ _ _ => false end.

Definition compareMixedLog (a b : MixedLog) : Z :=
  if isLog a then
    if isLog b then compareLog (position a) (position b)
    else
      let res := compareLog (position a) (position b) in
      if res =? 0 then 1 else res
  else
    if isLog b then
      let res := compareLog (position a) (position b) in
      if res =? 0 then -1 else res
    else compareLog (position a) (position b).

Inductive Origin := fetch | subscribe.

(** The fields of the plugin that the confirmation stage reads and
    writes.  [logs] is the downstream channel, oldest batch first;
    [newBlock] collects the block numbers of the emitted [newBlock]
    hooks. *)
Record t := mk {
  confirmation : Z;
  pendingLogs : list MixedLog;
  confirmingLogs : list MixedLog;
  logs : list (list MixedLog);
  latestBlockNumber : option Z;
  syncing : bool;
  syncTarget : option Z;
  newBlock : list Z;
}.

Definition set_confirmingLogs (s : t) (l : list MixedLog) : t :=
  mk (confirmation s) (pendingLogs s) l (logs s) (latestBlockNumber s)
     (syncing s) (syncTarget s) (newBlock s).

Definition set_pendingLogs (s : t) (l : list MixedLog) : t :=
  mk (confirmation s) l (confirmingLogs s) (logs s) (latestBlockNumber s)
     (syncing s) (syncTarget s) (newBlock s).

Definition logs_push (s : t) (batch : list MixedLog) : t :=
  mk (confirmation s) (pendingLogs s) (confirmingLogs s) (logs s ++ [batch])
     (latestBlockNumber s) (syncing s) (syncTarget s) (newBlock s).

Definition set_latestBlockNumber (s : t) (n : Z) : t :=
  mk (confirmation s) (pendingLogs s) (confirmingLogs s) (logs s) (Some n)
     (syncing s) (syncTarget s) (newBlock s).

Definition emit_newBlock (s : t) (n : Z) : t :=
  mk (confirmation s) (pendingLogs s) (confirmingLogs s) (logs s)
     (latestBlockNumber s) (syncing s) (syncTarget s) (newBlock s ++ [n]).

(** [Array.prototype.findIndex] *)
Fixpoint findIndex {A} (p : A → bool) (l : list A) : option nat :=
  match l with
  | [] => None
  | x :: l' => if p x then Some O else S <$> findIndex p l'
  end.

Definition same_log (log _log : MixedLog) : bool :=
  (blockNumber _log =? blockNumber log)
  && bool_decide (transactionHash _log = transactionHash log)
  && (pos_transactionIndex (position _log) =? pos_transactionIndex (position log))
  && (pos_logIndex (position _log) =? pos_logIndex (position log)).

Definition addConfirmingLogs (from : Origin) (ls : list MixedLog) (s : t) : t :=
  match from with
  | fetch => set_confirmingLogs s (confirmingLogs s ++ ls)
  | subscribe =>
      foldl (λ s log,
        if isLog log && removed log then
          match findIndex (same_log log) (confirmingLogs s) with
          | Some index => set_confirmingLogs s (delete index (confirmingLogs s))
          | None => s
          end
        else set_confirmingLogs s (confirmingLogs s ++ [log])) s ls
  end.

(** The split of [addLogs]: above [latestBlockNumber - confirmation] a
    log is held, otherwise it is released. *)
Definition addLogs (from : Origin) (ls : list MixedLog) (s : t) : t :=
  match latestBlockNumber s with
  | None => addConfirmingLogs from ls s
  | Some latest =>
      let split := foldl (λ '(confirming, confirmed) log,
        if latest - confirmation s <? blockNumber log
        then (confirming ++ [log], confirmed)
        else (confirming, confirmed ++ [log])) ([], []) ls in
      let s := match split.1 with
               | [] => s
               | _ => addConfirmingLogs from split.1 s
               end in
      match split.2 with
      | [] => s
      | _ => logs_push s split.2
      end
  end.

(** [confirm]: both branches of the test push to [confirmedLogs], and
    the local [confirmingLogs], left empty, replaces the held list. *)
Definition confirm (s : t) : t :=
  match confirmingLogs s with
  | [] => s
  | _ =>
      let latest := default 0 (latestBlockNumber s) in
      let split := foldl (λ '(confirming, confirmed) log,
        if latest - confirmation s <? blockNumber log
        then (confirming, confirmed ++ [log])
        else (confirming, confirmed ++ [log]))
        (([] : list MixedLog), ([] : list MixedLog))
        (js_sort compareMixedLog (confirmingLogs s)) in
      let s := set_confirmingLogs s split.1 in
      match split.2 with
      | [] => s
      | _ => logs_push s split.2
      end
  end.

(** One turn of the loop of [processBlockNumbers].  [getBlock] is the
    block cache: the number of the header it returns, [None] when the
    lookup throws (the turn is then abandoned in the [catch]). *)
Definition processBlockNumber (getBlock : Z → option Z) (n : Z) (s : t) : t :=
  match getBlock n with
  | None => s
  | Some number =>
      let s := set_latestBlockNumber s number in
      let s := confirm s in
      emit_newBlock s number
  end.

(** [onNewLog]; [mixedLog] is what [trackNewInstrument] returned for the
    log. *)
Definition onNewLog (mixedLog : option MixedLog) (log : Log) (s : t) : t :=
  let target := match syncTarget s with Some n => n | None => 0 end in
  if syncing s && negb (target =? 0) then
    if target <=? log_blockNumber log then
      let s := match mixedLog with
               | Some m => set_pendingLogs s (pendingLogs s ++ [m])
               | None => s
               end in
      set_pendingLogs s (pendingLogs s ++ [PlainLog log])
    else s
  else
    let s := match mixedLog with
             | Some m => addLogs subscribe [m] s
             | None => s
             end in
    addLogs subscribe [PlainLog log] s.

(** The scenario of the specification: confirmation 2, head 103, nothing
    held, not syncing; then subscription logs at blocks 100 to 103. *)
Definition blockLog (n : Z) : Log :=
  mkLog "0x0000000000000000000000000000000000000001" n "0xb"
        (Some "0xa") 0 0 false.

Definition sameHeader : Z → option Z := Some.

Definition atHead103 : t :=
  mk 2 [] [] [] (Some 103) false None [].

Definition afterInjection : t :=
  foldl (λ s n, onNewLog None (blockLog n) s) atHead103 [100; 101; 102; 103].

End Source.

(** * The event store: packages/db/src/cache.ts (class [Events]) and the
    tables of packages/db/src/types.ts *)

Module EventStore.

(** A row of table [EventIndex]; also the in-memory instance of that row
    held in [Events.indexes]. *)
Record EventIndex := mkIndex {
  idx_id : Z;
  idx_chainId : Z;
  idx_blockNumber : Z;
  idx_index : Z;
  idx_size : Z;
}.

(** A row of a sub-table [events_{chainId}_{index}]. *)
Record Event := mkEvent {
  ev_id : string;
  ev_chainId : Z;
  ev_name : string;
  ev_blockNumber : Z;
  ev_timestamp : option Z;
  ev_blockHash : string;
  ev_txHash : string;
  ev_transactionIndex : Z;
  ev_logIndex : Z;
  ev_address : string;
  ev_data : string;
  ev_status : Z;
}.

#[global] Instance EventIndex_eq_dec : EqDecision EventIndex.
Proof. solve_decision. Defined.
#[global] Instance Event_eq_dec : EqDecision Event.
Proof. solve_decision. Defined.

Definition ev_position (e : Event) : EventPosition :=
  mkPos (ev_blockNumber e) (ev_transactionIndex e) (ev_logIndex e).

(** The database: table [EventIndex] with its auto-increment counter,
    and the sub-tables that exist, by table name. *)
Record Database := mkDB {
  db_EventIndex : list EventIndex;
  db_nextId : Z;
  db_tables : gmap string (list Event);
}.

(** The fields of an [Events] instance.  [models] holds the keys of the
    [models] map: a model is the handle of the table of that name. *)
Record Events := mkEvents {
  chainId : Z;
  maxSizeForSingleTable : Z;
  initializing : bool;
  models : gset string;
  indexes : list EventIndex;
}.

Record World := mkWorld {
  mem : Events;
  db : Database;
}.

Definition set_indexes (w : World) (l : list EventIndex) : World :=
  mkWorld (mkEvents (chainId (mem w)) (maxSizeForSingleTable (mem w))
                    (initializing (mem w)) (models (mem w)) l) (db w).

Definition set_db (w : World) (d : Database) : World := mkWorld (mem w) d.

Definition concatModelName (chainId index : Z) : string :=
  "events_" +:+ string_of_Z chainId +:+ "_" +:+ string_of_Z index.

(** [get indexSize], [get instanceSize], [get latestBlockNumber] *)
Definition indexSize (w : World) : Z := Z.of_nat (length (indexes (mem w))).

Definition instanceSize (w : World) : Z :=
  foldl (λ p c, p + idx_size c) 0 (indexes (mem w)).

Definition latestBlockNumber (w : World) : Z :=
  match last (indexes (mem w)) with
  | Some index => idx_blockNumber index
  | None => 0
  end.

(** [model.sync()]: create the table if it does not exist. *)
Definition sync_table (name : string) (d : Database) : Database :=
  match db_tables d !! name with
  | Some _ => d
  | None => mkDB (db_EventIndex d) (db_nextId d) (<[name := []]> (db_tables d))
  end.

Definition syncModel (indexOfEventIndex : Z) : M World unit :=
  λ w,
    let name := concatModelName (chainId (mem w)) indexOfEventIndex in
    if decide (name ∈ models (mem w)) then Ok tt w
    else
      Ok tt (mkWorld
               (mkEvents (chainId (mem w)) (maxSizeForSingleTable (mem w))
                         (initializing (mem w)) ({[name]} ∪ models (mem w))
                         (indexes (mem w)))
               (sync_table name (db w))).

Definition getModel (index : EventIndex) : M World string :=
  λ w,
    let name := concatModelName (chainId (mem w)) (idx_index index) in
    if decide (name ∈ models (mem w)) then Ok name w
    else Throw (JsError "unknown model") w.

Definition id_le (a b : EventIndex) : Prop := idx_id a ≤ idx_id b.
#[global] Instance id_le_dec : RelDecision id_le.
Proof. intros a b. unfold id_le. apply _. Defined.

(** [EventIndex.findAll({ where: { chainId }, order: [['id', 'ASC']] })] *)
Definition EventIndex_findAll (c : Z) (d : Database) : list EventIndex :=
  merge_sort id_le (filter (λ r, idx_chainId r = c) (db_EventIndex d)).

(** [init]: the stored promise makes a second call a no-op. *)
Definition init : M World unit :=
  λ w,
    if initializing (mem w) then Ok tt w
    else
      let loaded := EventIndex_findAll (chainId (mem w)) (db w) in
      let w := mkWorld (mkEvents (chainId (mem w)) (maxSizeForSingleTable (mem w))
                                 true (models (mem w)) loaded) (db w) in
      (forEach loaded (λ index, syncModel (idx_index index)) ;;
       let start := match last loaded with
                    | Some index => idx_index index
                    | None => 0
                    end in
       forEach (seqZ start (30 - start)) syncModel)%js w.

(** ** Queries *)

(** The [blockNumber] entry of a [where] clause: a number, or an object
    of comparison operators. *)
Inductive BlockCondition :=
| Exactly (n : Z)
| Range (gt gte lt lte : option Z).

(** [FindOptions]: the [blockNumber] entry of [where], the rest of
    [where], whether the rows are ordered by
    (blockNumber, transactionIndex, logIndex) ascending, [limit] and
    [offset]. *)
Record FindOptions := mkFind {
  where_blockNumber : option BlockCondition;
  where_rest : Event → bool;
  order_BTL : bool;
  limit : option nat;
  offset : option nat;
}.

Definition holds (bound : option Z) (test : Z → bool) : bool :=
  match bound with Some b => test b | None => true end.

Definition matches (c : FindOptions) (e : Event) : bool :=
  match where_blockNumber c with
  | None => true
  | Some (Exactly n) => ev_blockNumber e =? n
  | Some (Range gt gte lt lte) =>
      holds gt (λ b, b <? ev_blockNumber e)
      && holds gte (λ b, b <=? ev_blockNumber e)
      && holds lt (λ b, ev_blockNumber e <? b)
      && holds lte (λ b, ev_blockNumber e <=? b)
  end && where_rest c e.

Definition position_le (a b : Event) : Prop :=
  pos_leb (ev_position a) (ev_position b) = true.
#[global] Instance position_le_dec : RelDecision position_le.
Proof. intros a b. unfold position_le. apply _. Defined.

Definition rows (d : Database) (name : string) : list Event :=
  default [] (db_tables d !! name).

(** [model.findAll(options)] on the rows of one table. *)
Definition model_findAll (c : FindOptions) (table : list Event) : list Event :=
  let l := filter (λ e, matches c e = true) table in
  let l := if order_BTL c then merge_sort position_le l else l in
  let l := drop (default O (offset c)) l in
  match limit c with
  | Some n => take n l
  | None => l
  end.

(** [model.findOne(options)] *)
Definition model_findOne (c : FindOptions) (table : list Event) : option Event :=
  head (model_findAll (mkFind (where_blockNumber c) (where_rest c)
                              (order_BTL c) (Some 1%nat) (offset c)) table).

(** The loop shared by [create], [findOne] and [destroyOne]: the first
    index, with its place in [indexes], such that
    [previous < blockNumber && blockNumber <= index.blockNumber]. *)
Fixpoint locate (previous blockNumber : Z) (idxs : list EventIndex) (k : nat)
  : option (nat * EventIndex) :=
  match idxs with
  | [] => None
  | index :: rest =>
      if (previous <? blockNumber) && (blockNumber <=? idx_blockNumber index)
      then Some (k, index)
      else locate (idx_blockNumber index) blockNumber rest (S k)
  end.

(** [findOne(condition, explicitBlockNumber)]: probe, in order, every
    sub-table whose range holds the block number (every sub-table when
    there is none), and return the first match. *)
Fixpoint findOne_loop (c : FindOptions) (blockNumber : option (option Z))
         (previous : Z) (idxs : list EventIndex) : M World (option Event) :=
  match idxs with
  | [] => ret None
  | index :: rest =>
      let probe :=
        match blockNumber with
        | None => true
        | Some (Some n) => (previous <? n) && (n <=? idx_blockNumber index)
        | Some None => false
        end in
      if probe then
        (let* name := getModel index in
         let* w := get in
         match model_findOne c (rows (db w) name) with
         | Some e => ret (Some e)
         | None => findOne_loop c blockNumber (idx_blockNumber index) rest
         end)%js
      else findOne_loop c blockNumber (idx_blockNumber index) rest
  end.

(** [where.blockNumber ?? explicitBlockNumber]: [None] when both are
    missing, [Some None] when the entry is an operator object (every
    comparison with it is false), [Some (Some n)] for a number. *)
Definition blockNumber_of (c : FindOptions) (explicitBlockNumber : option Z)
  : option (option Z) :=
  match where_blockNumber c with
  | Some (Exactly n) => Some (Some n)
  | Some (Range _ _ _ _) => Some None
  | None => Some <$> explicitBlockNumber
  end.

Definition findOne (c : FindOptions) (explicitBlockNumber : option Z)
  : M World (option Event) :=
  λ w, findOne_loop c (blockNumber_of c explicitBlockNumber) (-1)
                    (indexes (mem w)) w.

(** ** Writes *)

(** [index.save()]: update the row of that id. *)
Definition EventIndex_save (index : EventIndex) (d : Database) : Database :=
  mkDB (map (λ r, if idx_id r =? idx_id index then index else r) (db_EventIndex d))
       (db_nextId d) (db_tables d).

(** [EventIndex.create(values)]: the row gets the next id. *)
Definition EventIndex_create (c blockNumber index size : Z) (d : Database)
  : EventIndex * Database :=
  let row := mkIndex (db_nextId d) c blockNumber index size in
  (row, mkDB (db_EventIndex d ++ [row]) (db_nextId d + 1) (db_tables d)).

(** The primary key [id] and the unique index on
    (chainId, blockNumber, transactionIndex, logIndex) of a sub-table. *)
Definition conflicts (e r : Event) : bool :=
  bool_decide (ev_id r = ev_id e)
  || ((ev_chainId r =? ev_chainId e)
      && bool_decide (ev_position r = ev_position e)).

(** The columns of the unique index. *)
Definition event_key (e : Event) : Z * EventPosition :=
  (ev_chainId e, ev_position e).

(** [model.create(event)] on the table [name]. *)
Definition model_create (name : string) (e : Event) : M World Event :=
  λ w,
    match db_tables (db w) !! name with
    | None => Throw (DatabaseError "relation does not exist") w
    | Some table =>
        if existsb (conflicts e) table
        then Throw (DatabaseError "unique constraint") w
        else Ok e (set_db w (mkDB (db_EventIndex (db w)) (db_nextId (db w))
                                  (<[name := table ++ [e]]> (db_tables (db w)))))
    end.

(** [insert(event, index)]; [k] is the place of [index] in [indexes],
    whose object the function mutates. *)
Definition insert (e : Event) (k : nat) (index : EventIndex) : M World Event :=
  (let* model := getModel index in
   let index' := mkIndex (idx_id index) (idx_chainId index)
                         (Z.max (idx_blockNumber index) (ev_blockNumber e))
                         (idx_index index) (idx_size index + 1) in
   modify (λ w, set_indexes w (<[k := index']> (indexes (mem w)))) ;;
   modify (λ w, set_db w (EventIndex_save index' (db w))) ;;
   model_create model e)%js.

(** The tail of [create]: a new [EventIndex] whose [index] is the number
    of indexes in memory. *)
Definition allocate (e : Event) : M World Event :=
  (let* w := get in
   let '(newIndex, d) :=
     EventIndex_create (ev_chainId e) (ev_blockNumber e)
                       (Z.of_nat (length (indexes (mem w)))) 1 (db w) in
   put (set_db w d) ;;
   modify (λ w, set_indexes w (indexes (mem w) ++ [newIndex])) ;;
   let* model := getModel newIndex in
   model_create model e)%js.

Definition create (e : Event) : M World Event :=
  λ w,
    match indexes (mem w) with
    | [] => allocate e w
    | _ :: _ =>
        match locate (-1) (ev_blockNumber e) (indexes (mem w)) O with
        | Some (k, index) => insert e k index w
        | None =>
            match last (indexes (mem w)) with
            | Some latestIndex =>
                if idx_size latestIndex <? maxSizeForSingleTable (mem w)
                then insert e (length (indexes (mem w)) - 1)%nat latestIndex w
                else allocate e w
            | None => allocate e w
            end
        end
    end.

(** [model.destroy(condition)]: delete the matching rows, return their
    number. *)
Definition model_destroy (name : string) (c : FindOptions) : M World Z :=
  λ w,
    match db_tables (db w) !! name with
    | None => Throw (DatabaseError "relation does not exist") w
    | Some table =>
        let destroyed := filter (λ e, matches c e = true) table in
        let kept := filter (λ e, matches c e ≠ true) table in
        Ok (Z.of_nat (length destroyed))
           (set_db w (mkDB (db_EventIndex (db w)) (db_nextId (db w))
                           (<[name := kept]> (db_tables (db w)))))
    end.

Definition destroyOne (c : FindOptions) (explicitBlockNumber : option Z)
  : M World Z :=
  λ w,
    match blockNumber_of c explicitBlockNumber with
    | Some (Some blockNumber) =>
        match locate (-1) blockNumber (indexes (mem w)) O with
        | Some (k, index) =>
            (let* model := getModel index in
             let* destroyed := model_destroy model c in
             (if 0 <? destroyed then
                let index' := mkIndex (idx_id index) (idx_chainId index)
                                      (idx_blockNumber index) (idx_index index)
                                      (idx_size index - destroyed) in
                modify (λ w, set_indexes w (<[k := index']> (indexes (mem w)))) ;;
                modify (λ w, set_db w (EventIndex_save index' (db w)))
              else ret tt) ;;
             ret destroyed)%js w
        | None => Ok 0 w
        end
    | _ => Throw (JsError "missing block number") w
    end.

(** ** Paginated scans: the generators [findAll] and
    [findAllOrderByBTLASC]

    A generator is a state and a function that runs it to its next
    [yield].  The store is read at every step, as the generator reads
    [this.indexes] and the tables each time it is resumed. *)

(** Where [findAll] is suspended: not started; at the [yield] inside the
    [while] loop of place [i], with the value of [offset]; at the [yield]
    after that loop; finished. *)
Inductive FindAllState :=
| FA_Start
| FA_Page (i : nat) (offset : nat)
| FA_Last (i : nat)
| FA_Done.

(** [limit && limit > 0] *)
Definition truthy_limit (c : FindOptions) : option nat :=
  match limit c with
  | Some (S n) => Some (S n)
  | _ => None
  end.

(** [blockNumber?.[Op.gt] ?? blockNumber?.[Op.gte] ?? explicitFrom ?? 0] *)
Definition from_of (c : FindOptions) (explicitFrom : option Z) : Z :=
  match where_blockNumber c with
  | Some (Range (Some gt) _ _ _) => gt
  | Some (Range None (Some gte) _ _) => gte
  | _ => default 0 explicitFrom
  end.

(** [blockNumber?.[Op.lt] ?? blockNumber?.[Op.lte] ?? explicitTo ?? Infinity];
    [None] is [Infinity]. *)
Definition to_of (c : FindOptions) (explicitTo : option Z) : option Z :=
  match where_blockNumber c with
  | Some (Range _ _ (Some lt) _) => Some lt
  | Some (Range _ _ None (Some lte)) => Some lte
  | _ => explicitTo
  end.

(** The test that selects a sub-table in [findAll]. *)
Definition selected (from : Z) (to : option Z) (previous : Z) (index : EventIndex)
  : bool :=
  match to with
  | Some to =>
      ((from <=? idx_blockNumber index) && (idx_blockNumber index <=? to))
      || ((previous <? to) && (to <=? idx_blockNumber index))
  | None => from <=? idx_blockNumber index
  end.

(** [{ ...condition, offset, limit }] *)
Definition with_page (c : FindOptions) (off lim : option nat) : FindOptions :=
  mkFind (where_blockNumber c) (where_rest c) (order_BTL c) lim off.

(** [{ offset, limit, ...condition }]: the entries of the condition win. *)
Definition under_page (off lim : option nat) (c : FindOptions) : FindOptions :=
  mkFind (where_blockNumber c) (where_rest c) (order_BTL c)
         (match limit c with Some n => Some n | None => lim end)
         (match offset c with Some n => Some n | None => off end).

Definition Step (S : Type) : Type := Exception + (option (list Event) * S).

(** After a query of place [i]: a full page is yielded inside the loop, a
    shorter one that is not empty after it, and an empty one lets the
    scan go on. *)
Definition yield_or (c : FindOptions) (i off : nat) (events : list Event)
           (continue : Step FindAllState) : Step FindAllState :=
  match truthy_limit c with
  | Some n =>
      if Nat.eqb (length events) n then inr (Some events, FA_Page i off)
      else if Nat.ltb 0 (length events) then inr (Some events, FA_Last i)
           else continue
  | None =>
      if Nat.ltb 0 (length events) then inr (Some events, FA_Last i)
      else continue
  end.

(** The [for] loop of [findAll] from place [i] on, [idxs] being the
    indexes from that place. *)
Fixpoint findAll_scan (w : World) (c : FindOptions) (from : Z) (to : option Z)
         (idxs : list EventIndex) (i : nat) (previous : Z) : Step FindAllState :=
  match idxs with
  | [] => inr (None, FA_Done)
  | index :: rest =>
      let continue :=
        findAll_scan w c from to rest (S i) (idx_blockNumber index) in
      if selected from to previous index then
        match getModel index w with
        | Throw e _ => inl e
        | Ok model _ =>
            let off := match truthy_limit c with
                       | Some _ => Some O
                       | None => None
                       end in
            let events :=
              model_findAll (with_page c off (limit c)) (rows (db w) model) in
            yield_or c i O events continue
        end
      else continue
  end.

(** [generator.next(injected)] *)
Definition findAll_next (c : FindOptions) (explicitFrom explicitTo : option Z)
           (st : FindAllState) (injected : option FindOptions) (w : World)
  : Step FindAllState :=
  let from := from_of c explicitFrom in
  let to := to_of c explicitTo in
  match st with
  | FA_Start => findAll_scan w c from to (indexes (mem w)) O (-1)
  | FA_Page i off =>
      match indexes (mem w) !! i, truthy_limit c with
      | Some index, Some n =>
          let off' := (off + n)%nat in
          let model := concatModelName (chainId (mem w)) (idx_index index) in
          let events :=
            model_findAll (under_page (Some off') (Some n) (default c injected))
                          (rows (db w) model) in
          yield_or c i off' events
                   (findAll_scan w c from to (drop (S i) (indexes (mem w))) (S i)
                                 (idx_blockNumber index))
      | _, _ => inr (None, FA_Done)
      end
  | FA_Last i =>
      match indexes (mem w) !! i with
      | Some index =>
          findAll_scan w c from to (drop (S i) (indexes (mem w))) (S i)
                       (idx_blockNumber index)
      | None => inr (None, FA_Done)
      end
  | FA_Done => inr (None, FA_Done)
  end.

(** A bound of [findAllOrderByBTLASC]: [number | EventPosition]. *)
Inductive Bound :=
| AtBlock (n : Z)
| AtPosition (p : EventPosition).

Definition bound_blockNumber (b : Bound) : Z :=
  match b with
  | AtBlock n => n
  | AtPosition p => pos_blockNumber p
  end.

(** Left open... *)
Definition fromCondition (from : Bound) (e : Event) : bool :=
  match from with
  | AtBlock n => n <? ev_blockNumber e
  | AtPosition p => pos_ltb p (ev_position e)
  end.

(** ...and right closed. *)
Definition toCondition (to : option Bound) (e : Event) : bool :=
  match to with
  | None => true
  | Some (AtBlock n) => ev_blockNumber e <=? n
  | Some (AtPosition p) => pos_leb (ev_position e) p
  end.

(** The condition of the first query of each sub-table, and the one
    re-anchored after the last event of the batch just yielded. *)
Definition btl_condition (c : Z) (from : Bound) (to : option Bound)
           (additional : Event → bool) (lim : nat) : FindOptions :=
  mkFind None
         (λ e, (ev_chainId e =? c) && fromCondition from e && toCondition to e
               && additional e)
         true (Some lim) None.

Definition btl_anchored (c : Z) (latestEvent : Event) (to : option Bound)
           (additional : Event → bool) : FindOptions :=
  mkFind None
         (λ e, (ev_chainId e =? c)
               && pos_ltb (ev_position latestEvent) (ev_position e)
               && toCondition to e && additional e)
         true None (Some O).

(** Where [findAllOrderByBTLASC] is suspended: not started, or at its
    [yield] with [toBlockNumber], the inner generator and the last event
    of the batch it yielded ([None] for an empty batch). *)
Inductive BTLState :=
| BTL_Start
| BTL_Running (toBlockNumber : Z) (inner : FindAllState) (latestEvent : option Event)
| BTL_Done.

Definition btl_yield (toBlockNumber : Z) (r : Step FindAllState) : Step BTLState :=
  match r with
  | inl e => inl e
  | inr (None, _) => inr (None, BTL_Done)
  | inr (Some batch, inner) =>
      inr (Some batch, BTL_Running toBlockNumber inner (last batch))
  end.

Definition findAllOrderByBTLASC_next (from : Bound) (to : option Bound)
           (additional : Event → bool) (lim : nat) (st : BTLState) (w : World)
  : Step BTLState :=
  let c := chainId (mem w) in
  let condition := btl_condition c from to additional lim in
  let fromBlockNumber := bound_blockNumber from in
  match st with
  | BTL_Start =>
      let toBlockNumber := match to with
                           | Some b => bound_blockNumber b
                           | None => latestBlockNumber w
                           end in
      if toBlockNumber <? fromBlockNumber
      then inl (JsError "invalid block number")
      else btl_yield toBlockNumber
             (findAll_next condition (Some fromBlockNumber) (Some toBlockNumber)
                           FA_Start None w)
  | BTL_Running toBlockNumber inner (Some latestEvent) =>
      btl_yield toBlockNumber
        (findAll_next condition (Some fromBlockNumber) (Some toBlockNumber)
                      inner (Some (btl_anchored c latestEvent to additional)) w)
  | BTL_Running _ _ None =>
      inl (TypeError "Cannot read properties of undefined (reading 'blockNumber')")
  | BTL_Done => inr (None, BTL_Done)
  end.

(** The default of the [limit] parameter. *)
Definition defaultLimit : nat := 1000.

(** Events before one another, strictly. *)
Definition position_lt (a b : Event) : Prop :=
  pos_ltb (ev_position a) (ev_position b) = true.

(** No two events of the list at one position. *)
Definition distinct_positions (l : list Event) : Prop :=
  ∀ x y, x ∈ l → y ∈ l → ev_position x = ev_position y → x = y.


(** The rows of the chain in a table, by position. *)
Definition chain_sorted (c : Z) (table : list Event) : list Event :=
  merge_sort position_le (filter (λ e, ev_chainId e = c) table).

(** What a scan still has to yield from place [i] on: for each selected
    sub-table, its rows of the chain that satisfy [R], by position. *)
Fixpoint pending (w : World) (R : Event → bool) (from : Z) (to : option Z)
         (idxs : list EventIndex) (previous : Z) : list Event :=
  match idxs with
  | [] => []
  | index :: rest =>
      (if selected from to previous index
       then filter (λ e, R e = true)
                   (chain_sorted (chainId (mem w))
                      (rows (db w) (concatModelName (chainId (mem w)) (idx_index index))))
       else [])
      ++ pending w R from to rest (idx_blockNumber index)
  end.

(** The two shapes of the conditions of [findAllOrderByBTLASC], without
    the test of the chain. *)
Definition first_test (from : Bound) (to : option Bound)
           (additional : Event → bool) (e : Event) : bool :=
  fromCondition from e && (toCondition to e && additional e).

Definition anchored_test (latestEvent : Event) (to : option Bound)
           (additional : Event → bool) (e : Event) : bool :=
  pos_ltb (ev_position latestEvent) (ev_position e)
  && (toCondition to e && additional e).

(** What [findAllOrderByBTLASC] still has to yield in a state. *)
Definition remaining (w : World) (from : Bound) (to : option Bound)
           (additional : Event → bool) (st : BTLState) : list Event :=
  let c := chainId (mem w) in
  let first := first_test from to additional in
  match st with
  | BTL_Start =>
      pending w first (bound_blockNumber from)
              (Some (match to with
                     | Some b => bound_blockNumber b
                     | None => latestBlockNumber w
                     end))
              (indexes (mem w)) (-1)
  | BTL_Running tb (FA_Page i _) (Some latestEvent) =>
      match indexes (mem w) !! i with
      | Some index =>
          filter (λ e, anchored_test latestEvent to additional e = true)
                 (chain_sorted c (rows (db w) (concatModelName c (idx_index index))))
          ++ pending w first (bound_blockNumber from) (Some tb)
                     (drop (S i) (indexes (mem w))) (idx_blockNumber index)
      | None => []
      end
  | BTL_Running tb (FA_Last i) _ =>
      match indexes (mem w) !! i with
      | Some index =>
          pending w first (bound_blockNumber from) (Some tb)
                  (drop (S i) (indexes (mem w))) (idx_blockNumber index)
      | None => []
      end
  | _ => []
  end.

(** The states in which the generator can be, for a scan from [from]. *)
Definition scanning (w : World) (from : Bound) (to : option Bound)
           (st : BTLState) : Prop :=
  match st with
  | BTL_Start =>
      bound_blockNumber from
      ≤ match to with
        | Some b => bound_blockNumber b
        | None => latestBlockNumber w
        end
  | BTL_Running tb inner latest =>
      tb = match to with
           | Some b => bound_blockNumber b
           | None => latestBlockNumber w
           end
      ∧ (∃ latestEvent, latest = Some latestEvent
                        ∧ ev_chainId latestEvent = chainId (mem w)
                        ∧ fromCondition from latestEvent = true)
      ∧ match inner with
        | FA_Page i _ | FA_Last i => is_Some (indexes (mem w) !! i)
        | _ => False
        end
  | BTL_Done => False
  end.

(** Every index in memory has its model. *)
Definition models_synced (w : World) : Prop :=
  ∀ index, index ∈ indexes (mem w) → concatModelName (chainId (mem w)) (idx_index index) ∈ models (mem w).

(** The rows of the sub-tables of the indexes, and those of the chain
    that satisfy [R], by position. *)
Definition rows_of (w : World) (index : EventIndex) : list Event :=
  rows (db w) (concatModelName (chainId (mem w)) (idx_index index)).

Definition all_rows (w : World) : list Event :=
  concat (rows_of w <$> indexes (mem w)).

Definition stored_events (w : World) (R : Event → bool) : list Event :=
  merge_sort position_le
             (filter (λ e, ev_chainId e = chainId (mem w) ∧ R e = true) (all_rows w)).

(** The sub-tables of [idxs] hold rows of increasing block ranges, the
    first one above [previous], with unique ids and positions. *)
Fixpoint ranged (w : World) (previous : Z) (idxs : list EventIndex) : Prop :=
  match idxs with
  | [] => True
  | index :: rest =>
      previous < idx_blockNumber index
      ∧ (∀ e, e ∈ rows_of w index →
              previous < ev_blockNumber e ≤ idx_blockNumber index)
      ∧ NoDup (ev_id <$> rows_of w index)
      ∧ NoDup (event_key <$> rows_of w index)
      ∧ ranged w (idx_blockNumber index) rest
  end.

(** ** The state a write leaves, and the invariants of the store *)

Definition table_name (w : World) (index : EventIndex) : string :=
  concatModelName (chainId (mem w)) (idx_index index).

Definition table_of (w : World) (index : EventIndex) : list Event :=
  rows (db w) (table_name w index).

(** The index as [insert] leaves it, and as [destroyOne] leaves it. *)
Definition bump (e : Event) (index : EventIndex) : EventIndex :=
  mkIndex (idx_id index) (idx_chainId index)
          (Z.max (idx_blockNumber index) (ev_blockNumber e))
          (idx_index index) (idx_size index + 1).

Definition shrink (n : Z) (index : EventIndex) : EventIndex :=
  mkIndex (idx_id index) (idx_chainId index) (idx_blockNumber index)
          (idx_index index) (idx_size index - n).

(** The state in which [allocate] looks for the model of the new index:
    the row is in the database and in memory. *)
Definition allocated (e : Event) (w : World) : World :=
  let row := mkIndex (db_nextId (db w)) (ev_chainId e) (ev_blockNumber e)
                     (Z.of_nat (length (indexes (mem w)))) 1 in
  mkWorld
    (mkEvents (chainId (mem w)) (maxSizeForSingleTable (mem w))
              (initializing (mem w)) (models (mem w))
              (indexes (mem w) ++ [row]))
    (mkDB (db_EventIndex (db w) ++ [row]) (db_nextId (db w) + 1)
          (db_tables (db w))).

(** What [index.save()] does to one row of the table. *)
Definition replace_row (index : EventIndex) (r : EventIndex) : EventIndex :=
  if idx_id r =? idx_id index then index else r.

(** The value of [previous] when the loops reach place [k]. *)
Fixpoint previous_at (previous : Z) (idxs : list EventIndex) (k : nat) : Z :=
  match k, idxs with
  | O, _ => previous
  | S _, [] => previous
  | S j, index :: rest => previous_at (idx_blockNumber index) rest j
  end.

Definition previous_of (idxs : list EventIndex) (k : nat) : Z :=
  previous_at (-1) idxs k.

(** The words of the specification: the smallest place whose
    [blockNumber_max] is at least the block number. *)
Fixpoint first_fit (blockNumber : Z) (idxs : list EventIndex) (k : nat)
  : option (nat * EventIndex) :=
  match idxs with
  | [] => None
  | index :: rest =>
      if blockNumber <=? idx_blockNumber index then Some (k, index)
      else first_fit blockNumber rest (S k)
  end.

(** What holds of a store written only by successful calls of [create]
    and [destroyOne]: memory mirrors the rows of the chain; the index
    at place [k] has [index = k]; its size is the number of rows of its
    table; every row lies in the block range of its table; the maxima
    increase; ids and positions are unique within a table; the tables
    past the last index hold no row. *)
Record store_ok (w : World) : Prop := {
  ok_coherent :
    filter (λ r, idx_chainId r = chainId (mem w)) (db_EventIndex (db w))
    = indexes (mem w);
  ok_ids : NoDup (idx_id <$> db_EventIndex (db w));
  ok_nextId : Forall (λ r, idx_id r < db_nextId (db w)) (db_EventIndex (db w));
  ok_index : ∀ k index,
    indexes (mem w) !! k = Some index → idx_index index = Z.of_nat k;
  ok_size : ∀ k index,
    indexes (mem w) !! k = Some index →
    idx_size index = Z.of_nat (length (table_of w index));
  ok_range : ∀ k index e,
    indexes (mem w) !! k = Some index → e ∈ table_of w index →
    previous_of (indexes (mem w)) k < ev_blockNumber e ≤ idx_blockNumber index;
  ok_mono : ∀ k index,
    indexes (mem w) !! k = Some index →
    previous_of (indexes (mem w)) k < idx_blockNumber index;
  ok_unique : ∀ k index,
    indexes (mem w) !! k = Some index →
    NoDup (ev_id <$> table_of w index)
    ∧ NoDup (event_key <$> table_of w index);
  ok_untracked : ∀ i,
    Z.of_nat (length (indexes (mem w))) ≤ i →
    rows (db w) (concatModelName (chainId (mem w)) i) = [];
}.

(** [get instanceSize] over the rows of the chain in the database, and
    the number of rows of the sub-tables they name. *)
Definition size_total (w : World) : Z :=
  foldl (λ p c, p + idx_size c) 0
        (filter (λ r, idx_chainId r = chainId (mem w)) (db_EventIndex (db w))).

Definition row_total (w : World) : Z :=
  foldl (λ p c, p + Z.of_nat (length (table_of w c))) 0
        (filter (λ r, idx_chainId r = chainId (mem w)) (db_EventIndex (db w))).

(** A successful write. *)
Inductive written (w w' : World) : Prop :=
| written_create e r :
    0 ≤ ev_blockNumber e → ev_chainId e = chainId (mem w) →
    create e w = Ok r w' → written w w'
| written_destroy c b n :
    destroyOne c b w = Ok n w' → written w w'.

(** A store that starts empty. *)
Definition emptyDB : Database := mkDB [] 1 ∅.

Definition fresh (c maxSize : Z) : World :=
  mkWorld (mkEvents c maxSize false ∅ []) emptyDB.

(** What a run of [syncModel] over the places [l] changes: the models of
    those places are added; tables that existed keep their rows; a
    table is created, empty, for each place not yet in [models]. *)
Record synced (l : list Z) (w w' : World) : Prop := {
  synced_chainId : chainId (mem w') = chainId (mem w);
  synced_maxSize : maxSizeForSingleTable (mem w') = maxSizeForSingleTable (mem w);
  synced_initializing : initializing (mem w') = initializing (mem w);
  synced_indexes : indexes (mem w') = indexes (mem w);
  synced_models : ∀ name,
    name ∈ models (mem w') ↔
    name ∈ models (mem w) ∨ ∃ i, i ∈ l ∧ name = concatModelName (chainId (mem w)) i;
  synced_rows : db_EventIndex (db w') = db_EventIndex (db w);
  synced_nextId : db_nextId (db w') = db_nextId (db w);
  synced_kept : ∀ name table,
    db_tables (db w) !! name = Some table → db_tables (db w') !! name = Some table;
  synced_created : ∀ name,
    db_tables (db w) !! name = None →
    name ∉ models (mem w) →
    (∃ i, i ∈ l ∧ name = concatModelName (chainId (mem w)) i) →
    db_tables (db w') !! name = Some [];
  synced_absent : ∀ name,
    db_tables (db w) !! name = None →
    (name ∈ models (mem w)
     ∨ ¬ ∃ i, i ∈ l ∧ name = concatModelName (chainId (mem w)) i) →
    db_tables (db w') !! name = None;
}.

(** [loaded] are the rows [init] read; the places its second loop
    visits start at the [index] of the last of them. *)
Definition runway_start (loaded : list EventIndex) : Z :=
  match last loaded with
  | Some index => idx_index index
  | None => 0
  end.

Definition init_places (loaded : list EventIndex) : list Z :=
  (idx_index <$> loaded) ++ seqZ (runway_start loaded) (30 - runway_start loaded).

(** The world in which [init] runs its two loops. *)
Definition loading (w : World) : World :=
  mkWorld (mkEvents (chainId (mem w)) (maxSizeForSingleTable (mem w)) true
                    (models (mem w))
                    (EventIndex_findAll (chainId (mem w)) (db w)))
          (db w).

(** Any call of the instance, whatever its outcome. *)
Inductive call (w w' : World) : Prop :=
| call_init : outcome_state (init w) = w' → call w w'
| call_create e : outcome_state (create e w) = w' → call w w'
| call_destroyOne c b : outcome_state (destroyOne c b w) = w' → call w w'
| call_findOne c b : outcome_state (findOne c b w) = w' → call w w'.

(** [create] reaches its last part: no index takes the event and the
    latest index, when there is one, is full. *)
Definition allocates (e : Event) (w : World) : Prop :=
  indexes (mem w) = []
  ∨ locate (-1) (ev_blockNumber e) (indexes (mem w)) O = None
    ∧ ∃ latestIndex, last (indexes (mem w)) = Some latestIndex
                     ∧ maxSizeForSingleTable (mem w) ≤ idx_size latestIndex.

(** The largest block number among the rows of a table. *)
Definition max_blockNumber (table : list Event) : option Z :=
  match table with
  | [] => None
  | e :: rest => Some (foldl (λ m x, Z.max m (ev_blockNumber x)) (ev_blockNumber e) rest)
  end.

(** The fields that only [init] writes. *)
Definition same_instance (w w' : World) : Prop :=
  chainId (mem w') = chainId (mem w)
  ∧ maxSizeForSingleTable (mem w') = maxSizeForSingleTable (mem w)
  ∧ initializing (mem w') = initializing (mem w)
  ∧ models (mem w') = models (mem w).

(** ** Scenarios *)

Definition run {A} (m : M World A) (w : World) : World := outcome_state (m w).

(** An event at block [n], alone in its transaction. *)
Definition eventAt (n : Z) : Event :=
  mkEvent (string_of_Z n) 100 "Trade" n None "b" "t" 0 0 "a" "{}" 0.

Definition byId (i : string) (blockNumber : Z) : FindOptions :=
  mkFind (Some (Exactly blockNumber)) (λ e, bool_decide (ev_id e = i))
         false None None.

(** A store of chain 100 that starts empty and is initialised. *)
Definition started (maxSize : Z) : World := run init (fresh 100 maxSize).

(** Two events in one sub-table, then the later one destroyed. *)
Definition twoEvents : World :=
  run (create (eventAt 20)) (run (create (eventAt 10)) (started 1000000)).

Definition afterDestroy : World :=
  run (destroyOne (byId "20" 20) None) twoEvents.

(** Six sub-tables of one event each, then a restart of the service on
    the same database. *)
Definition sixTables : World :=
  foldl (λ w n, run (create (eventAt n)) w) (started 1) [0; 1; 2; 3; 4; 5].

Definition restarted : World :=
  mkWorld (mkEvents 100 1 false ∅ []) (db sixTables).

(** Thirty sub-tables of one event each, on a store that started empty. *)
Definition thirtyTables : World :=
  foldl (λ w n, run (create (eventAt n)) w) (started 1) (seqZ 0 30).

End EventStore.

(** * packages/base-plugins/src/utils/utils.ts *)

Module Utils.
Import EventStore.

(** [fromDBEvent]: the log has no [transactionHash] (nor topics or data);
    the stored arguments become the arguments of the parsed log. *)
Definition fromDBEvent (event : Event) : Log * LogDescription :=
  (mkLog ("0x" +:+ ev_address event) (ev_blockNumber event)
         ("0x" +:+ ev_blockHash event) None
         (ev_transactionIndex event) (ev_logIndex event) false,
   mkParsed (ev_name event) (ev_data event)).

(** An argument of [calcId]: a number, a string, or [undefined] when the
    caller read a property that is not there. *)
Inductive IdPart :=
| PartNumber (n : Z)
| PartString (s : string)
| PartUndefined.

Definition part_of_option (s : option string) : IdPart :=
  match s with
  | Some s => PartString s
  | None => PartUndefined
  end.

Fixpoint join (sep : string) (l : list string) : string :=
  match l with
  | [] => ""
  | [s] => s
  | s :: rest => s +:+ sep +:+ join sep rest
  end.

(** [args.map(ele => typeof ele === 'number' ? ele.toString()
    : formatHexString(ele))]: [formatHexString(undefined)] reads
    [startsWith] of [undefined] and throws. *)
Fixpoint format_parts (l : list IdPart) : Exception + list string :=
  match l with
  | [] => inr []
  | p :: rest =>
      match p with
      | PartUndefined =>
          inl (TypeError "Cannot read properties of undefined (reading 'startsWith')")
      | PartNumber n => on_value (cons (string_of_Z n)) (format_parts rest)
      | PartString s => on_value (cons (formatHexString s)) (format_parts rest)
      end
  end.

Section Hash.
(** SHA-256 as a hex digest. *)
Variable sha256 : string → string.

Definition calcId (args : list IdPart) : Exception + string :=
  on_value (λ parts, sha256 (join "," parts)) (format_parts args).

Definition calcEventId (chainId : Z) (address blockHash : string)
           (txHash : option string) (logIndex : Z) : Exception + string :=
  calcId [PartNumber chainId; PartString address; PartString blockHash;
          part_of_option txHash; PartNumber logIndex].

Definition calcInstrumentId (chainId : Z) (address : string) : Exception + string :=
  calcId [PartNumber chainId; PartString address].
End Hash.

End Utils.

(** * Replay: packages/base-plugins/src/libs ([replay], [getSnapshot]) *)

Module Replay.
Import EventStore Utils.

(** The rows of table [Snapshots]; the snapshot is stored serialized. *)
Record StoredSnapshot (Serialized : Type) := mkStored {
  ss_chainId : Z;
  ss_position : EventPosition;
  ss_snapshot : Serialized;
}.
Arguments mkStored {Serialized}.
Arguments ss_chainId {Serialized}.
Arguments ss_position {Serialized}.
Arguments ss_snapshot {Serialized}.

Section Engine.
(** The application-state engine of the SDK: [new Snapshot(sdk)],
    [snapshot.processParsedLog(log, parsed)], [serialize] and
    [deserialize]. *)
Variable Snapshot : Type.
Variable Serialized : Type.
Variable empty : Snapshot.
Variable processParsedLog : Snapshot → Log → LogDescription → Snapshot.
Variable serialize : Snapshot → Serialized.
Variable deserialize : Serialized → Snapshot.

Definition apply_event (snapshot : Snapshot) (event : Event) : Snapshot :=
  let '(log, parsedLog) := fromDBEvent event in
  processParsedLog snapshot log parsedLog.

(** The loop [for await (const _events of events.findAllOrderByBTLASC(from, to))]
    of [replay].  Each turn resumes the generator once; [None] when [fuel]
    turns were not enough.  The abort signal and the progress bar are left
    out. *)
Fixpoint replay_loop (fuel : nat) (w : World) (from : EventPosition)
         (to : option Bound) (st : BTLState) (snapshot : Snapshot)
         (latest : EventPosition)
  : option (Exception + Snapshot * EventPosition) :=
  match fuel with
  | O => None
  | S fuel' =>
      match findAllOrderByBTLASC_next (AtPosition from) to (λ _, true)
                                      defaultLimit st w with
      | inl e => Some (inl e)
      | inr (None, _) => Some (inr (snapshot, latest))
      | inr (Some _events, st') =>
          match last _events with
          | None =>
              Some (inl (TypeError
                "Cannot read properties of undefined (reading 'blockNumber')"))
          | Some latestEvent =>
              replay_loop fuel' w from to st'
                          (foldl apply_event snapshot _events)
                          (ev_position latestEvent)
          end
      end
  end.

Definition replay (fuel : nat) (w : World) (snapshot : Snapshot)
           (from : EventPosition) (to : option Bound)
  : option (Exception + Snapshot * EventPosition) :=
  replay_loop fuel w from to BTL_Start snapshot from.

(** [SnapshotTable.findOne] of [getSnapshot]: among the rows of the chain
    at or before [to], the one of greatest position. *)
Definition at_or_before (to : Bound) (p : EventPosition) : bool :=
  match to with
  | AtBlock n => pos_blockNumber p <=? n
  | AtPosition q => pos_leb p q
  end.

Definition nearest (table : list (StoredSnapshot Serialized)) (c : Z) (to : Bound)
  : option (StoredSnapshot Serialized) :=
  foldl (λ best row,
           if (ss_chainId row =? c) && at_or_before to (ss_position row) then
             match best with
             | Some b => if pos_ltb (ss_position b) (ss_position row)
                         then Some row else best
             | None => Some row
             end
           else best)
        None table.

(** [getSnapshot(sdk, events, to, from?)] *)
Definition getSnapshot (fuel : nat) (w : World)
           (table : list (StoredSnapshot Serialized)) (to : Bound)
           (from : option (Snapshot * EventPosition))
  : option (Exception + Snapshot * EventPosition) :=
  let '(snapshot, _from) :=
    match from with
    | Some (snapshot, position) => (snapshot, position)
    | None =>
        match nearest table (chainId (mem w)) to with
        | Some _snapshot => (deserialize (ss_snapshot _snapshot), ss_position _snapshot)
        | None => (empty, mkPos 0 0 0)
        end
    end in
  replay fuel w snapshot _from (Some to).

(** All the stored events of the chain at or before a bound, by
    position, and the snapshot they fold to. *)
Definition events_upto (w : World) (b : Bound) : list Event :=
  stored_events w (toCondition (Some b)).

Definition snapshot_at (w : World) (b : Bound) : Snapshot :=
  foldl apply_event empty (events_upto w b).

(** A base of a replay: the snapshot is the fold of the events up to its
    position. *)
Definition valid_base (w : World) (base : Snapshot * EventPosition) : Prop :=
  base.1 = snapshot_at w (AtPosition base.2).

Definition valid_table (w : World) (table : list (StoredSnapshot Serialized)) : Prop :=
  ∀ row, row ∈ table → ss_chainId row = chainId (mem w) →
         valid_base w (deserialize (ss_snapshot row), ss_position row).

End Engine.

(** A small engine for the examples: the snapshot is the list of the names
    of the events applied, serialized as itself. *)
Definition nameLog (snapshot : list string) (_ : Log) (parsed : LogDescription)
  : list string :=
  snapshot ++ [parsed_name parsed].

(** Three sub-tables of one event each, and a table [Snapshots] with the
    snapshot taken after the first event. *)
Definition threeTables : World :=
  foldl (λ w n, run (create (eventAt n)) w) (started 1) [10; 20; 30].

Definition oneStored : list (StoredSnapshot (list string)) :=
  [mkStored 100 (mkPos 10 0 0) ["Trade"]].

End Replay.
(** * Storage: packages/base-plugins/src/plugins/storage.ts *)

Module Storage.
Import EventStore Utils.

(** What [core.emit] has sent, in order. *)
Inductive Emitted :=
| newParsedEvent (log : Log) (parsed : LogDescription) (processed : bool)
| newStoredBlockNumber (blockNumber : Z).

(** The plugin with what it reaches: [common.events] and the database it
    writes, [cache.blockNumber] and the row of the cache in the database,
    and the events emitted. *)
Record t := mk {
  common_events : World;
  cache_blockNumber : Z;
  saved_blockNumber : Z;
  emitted : list Emitted;
}.

Definition set_events (s : t) (w : World) : t :=
  mk w (cache_blockNumber s) (saved_blockNumber s) (emitted s).

Definition set_cache (s : t) (n : Z) : t :=
  mk (common_events s) n (saved_blockNumber s) (emitted s).

(** [cache.save(transaction)] *)
Definition cache_save (s : t) : t :=
  mk (common_events s) (cache_blockNumber s) (cache_blockNumber s) (emitted s).

(** [core.emit(...)] *)
Definition emit (x : Emitted) (s : t) : t :=
  mk (common_events s) (cache_blockNumber s) (saved_blockNumber s) (emitted s ++ [x]).

(** A call on [common.events]. *)
Definition lift {A} (m : M World A) : M t A :=
  λ s, match m (common_events s) with
       | Ok a w => Ok a (set_events s w)
       | Throw e w => Throw e (set_events s w)
       end.

Definition of_result {A} (r : Exception + A) : M t A :=
  λ s, match r with
       | inl e => Throw e s
       | inr a => Ok a s
       end.

(** [transaction.rollback()]: the database is as it was when the
    transaction began; the objects in memory stay as they are. *)
Definition rollback (begin : t) (s : t) : t :=
  mk (mkWorld (mem (common_events s)) (db (common_events begin)))
     (cache_blockNumber s) (saved_blockNumber begin) (emitted s).

(** [exists.save({ transaction })]: the row belongs to the model
    [findOne] took it from, the sub-table whose range holds its block
    number; the row of that id is updated. *)
Definition Event_save (e : Event) : M World unit :=
  λ w,
    match locate (-1) (ev_blockNumber e) (indexes (mem w)) O with
    | Some (_, index) =>
        (let* name := getModel index in
         modify (λ w, set_db w
                   (mkDB (db_EventIndex (db w)) (db_nextId (db w))
                         (<[name := (λ r, if bool_decide (ev_id r = ev_id e)
                                          then e else r) <$> rows (db w) name]>
                            (db_tables (db w))))))%js w
    | None => Ok tt w
    end.

(** [formatHexString(log.transactionHash)] *)
Definition formatHexString_opt (s : option string) : Exception + string :=
  match s with
  | Some s => inr (formatHexString s)
  | None => inl (TypeError "Cannot read properties of undefined (reading 'startsWith')")
  end.

Section Plugin.
Variable sha256 : string → string.
(** [EventStatus.PROCESSED] *)
Variable PROCESSED : Z.
(** [sdk.contracts.gate.address] and [sdk.contracts.config.address] *)
Variable gate : string.
Variable config : string.
(** [parseLog] of the three interfaces; [None] when it throws. *)
Variable gateInterface : Log → option LogDescription.
Variable configInterface : Log → option LogDescription.
Variable instrumentInterface : Log → option LogDescription.
(** [this['handle' + parsed.name + 'Event']] *)
Variable handler :
  string → option (string → Log → LogDescription → bool → M t unit).

Definition interface_of (log : Log) : Log → option LogDescription :=
  if String.eqb (toLowerCase (log_address log)) (toLowerCase gate)
  then gateInterface
  else if String.eqb (toLowerCase (log_address log)) (toLowerCase config)
       then configInterface
       else instrumentInterface.

(** One turn of the loop of [processLogs] on [logs[i]]; the value is
    [latest] after the turn.  The arguments of a parsed log are kept in
    their serialized form. *)
Definition process_log (reprocessing : bool) (log : Log)
           (given : option LogDescription) (latest : Z) : M t Z :=
  (let* s := get in
   let c := chainId (mem (common_events s)) in
   let* id := of_result (calcEventId sha256 c (log_address log) (log_blockHash log)
                                     (log_transactionHash log) (log_logIndex log)) in
   let* found := lift (findOne (byId id (log_blockNumber log)) None) in
   if negb reprocessing && bool_decide (is_Some found) then ret latest
   else
     let latest := if latest <? log_blockNumber log
                   then log_blockNumber log else latest in
     match (match given with
            | Some parsed => Some parsed
            | None => interface_of log log
            end) with
     | None => ret latest
     | Some parsed =>
         let processed :=
           match found with
           | Some e => 0 <? Z.land (ev_status e) PROCESSED
           | None => false
           end in
         match handler (parsed_name parsed) with
         | Some handle => handle id log parsed processed
         | None => ret tt
         end ;;
         match found with
         | Some e =>
             if processed then ret tt
             else lift (Event_save
                          (mkEvent (ev_id e) (ev_chainId e) (ev_name e)
                                   (ev_blockNumber e) (ev_timestamp e)
                                   (ev_blockHash e) (ev_txHash e)
                                   (ev_transactionIndex e) (ev_logIndex e)
                                   (ev_address e) (ev_data e)
                                   (ev_status e + PROCESSED)))
         | None =>
             let* txHash := of_result (formatHexString_opt (log_transactionHash log)) in
             let* _ := lift (create
                          (mkEvent id c (parsed_name parsed) (log_blockNumber log)
                                   None (formatHexString (log_blockHash log)) txHash
                                   (log_transactionIndex log) (log_logIndex log)
                                   (formatHexString (log_address log))
                                   (parsed_args parsed) PROCESSED)) in
             ret tt
         end ;;
         modify (emit (newParsedEvent log parsed processed)) ;;
         ret latest
     end)%js.

(** [for (let i = 0; i < logs.length; i++)] *)
Fixpoint process_logs (reprocessing : bool) (logs : list Log)
         (parsedLogs : option (list LogDescription)) (i : nat) (latest : Z)
  : M t Z :=
  match logs with
  | [] => ret latest
  | log :: rest =>
      (let* latest := process_log reprocessing log (parsedLogs ≫= (.!! i)) latest in
       process_logs reprocessing rest parsedLogs (S i) latest)%js
  end.

(** [processLogs(logs, parsedLogs?)]; the transaction is always
    obtained. *)
Definition processLogs (logs : list Log) (parsedLogs : option (list LogDescription))
  : M t bool :=
  λ begin,
    let reprocessing := bool_decide (is_Some parsedLogs) in
    match (let* latest := process_logs reprocessing logs parsedLogs O
                                       (cache_blockNumber begin) in
           let* s := get in
           let updated := negb (cache_blockNumber s =? latest) in
           put (cache_save (set_cache s latest)) ;;
           (if updated
            then modify (emit (newStoredBlockNumber latest))
            else ret tt) ;;
           ret true)%js begin with
    | Ok b s => Ok b s
    | Throw _ s => Ok false (rollback begin s)
    end.

(** The loop [for await (const events of
    this.events.findAllOrderByBTLASC(reorgBlockNumber - 1))] of [reorg]:
    each turn resumes the generator once, on the store as it then is;
    [None] when [fuel] turns were not enough. *)
Fixpoint reorg_loop (fuel : nat) (from : Bound) (st : BTLState) (s : t)
  : option (Outcome t unit) :=
  match fuel with
  | O => None
  | S fuel' =>
      match findAllOrderByBTLASC_next from None (λ _, true) defaultLimit st
                                      (common_events s) with
      | inl e => Some (Throw e s)
      | inr (None, _) => Some (Ok tt s)
      | inr (Some events, st') =>
          let _events := fromDBEvent <$> events in
          match processLogs (fst <$> _events) (Some (snd <$> _events)) s with
          | Ok _ s' => reorg_loop fuel' from st' s'
          | Throw e s' => Some (Throw e s')
          end
      end
  end.

Definition reorg (fuel : nat) (reorgBlockNumber : Z) (s : t)
  : option (Outcome t unit) :=
  reorg_loop fuel (AtBlock (reorgBlockNumber - 1)) BTL_Start s.

End Plugin.

(** The plugin on the store of three sub-tables, up to date. *)
Definition upToDate : t := mk Replay.threeTables 30 30 [].

End Storage.
(** * The snapshot API handler ([snapshotId], [Handler.handleGenerateSnapshot]) *)

Module Handler.
Import EventStore Replay.

(** A value that [JSON.parse] gives, or [undefined]; numbers are
    integers here. *)
#[warnings="-register-all"] Inductive Value :=
| VUndefined
| VNull
| VBool (b : bool)
| VNumber (n : Z)
| VString (s : string)
| VArray (elements : list Value)
| VObject (fields : list (string * Value)).

Definition typeof (v : Value) : string :=
  match v with
  | VUndefined => "undefined"
  | VNull | VArray _ | VObject _ => "object"
  | VBool _ => "boolean"
  | VNumber _ => "number"
  | VString _ => "string"
  end.

Fixpoint field (key : string) (fields : list (string * Value)) : Value :=
  match fields with
  | [] => VUndefined
  | (k, v) :: rest => if String.eqb k key then v else field key rest
  end.

(** [v.key] for a key that is neither an index nor a property of a
    prototype: reading from [undefined] or [null] throws. *)
Definition property (v : Value) (key : string) : Exception + Value :=
  match v with
  | VUndefined =>
      inl (TypeError ("Cannot read properties of undefined (reading '" +:+ key +:+ "')"))
  | VNull =>
      inl (TypeError ("Cannot read properties of null (reading '" +:+ key +:+ "')"))
  | VObject fields => inr (field key fields)
  | _ => inr VUndefined
  end.

Definition and_then {A B} (r : Exception + A) (k : A → Exception + B)
  : Exception + B :=
  match r with
  | inl e => inl e
  | inr a => k a
  end.

Definition is_undefined (v : Value) : bool :=
  match v with VUndefined => true | _ => false end.

Definition InvalidRequest : Z := -32600.
Definition Generating : Z := 102.

Definition invalid_params : Exception := JSONRPCError InvalidRequest "invalid params".

(** The test at the head of [handleGenerateSnapshot]; [||] and [&&]
    evaluate their right operand only when the left one does not
    decide. *)
Definition rejected (params : Value) : Exception + bool :=
  if negb (String.eqb (typeof params) "object") then inr true
  else
    and_then (property params "blockNumber") (λ blockNumber,
    if negb (String.eqb (typeof blockNumber) "number") then inr true
    else
      and_then (property params "transactionIndex") (λ transactionIndex,
      if negb (is_undefined transactionIndex)
         && negb (String.eqb (typeof transactionIndex) "number") then inr true
      else
        and_then (property params "logIndex") (λ logIndex,
        inr (negb (is_undefined logIndex)
             && negb (String.eqb (typeof logIndex) "number"))))).

(** The target [to] of the request: a block number, or a position. *)
Definition target (params : Value) : Exception + Bound :=
  and_then (rejected params) (λ bad,
  if bad then inl invalid_params
  else
    and_then (property params "blockNumber") (λ blockNumber,
    and_then (property params "transactionIndex") (λ transactionIndex,
    and_then (property params "logIndex") (λ logIndex,
    match blockNumber, transactionIndex, logIndex with
    | VNumber b, VNumber t, VNumber l => inr (AtPosition (mkPos b t l))
    | VNumber b, VUndefined, VUndefined => inr (AtBlock b)
    | _, _, _ => inl invalid_params
    end)))).

(** [snapshotId(chainId, position)] *)
Definition snapshotId (chainId : Z) (position : Bound) : string :=
  match position with
  | AtBlock n => string_of_Z chainId +:+ "-" +:+ string_of_Z n
  | AtPosition p =>
      string_of_Z chainId +:+ "-" +:+ string_of_Z (pos_blockNumber p)
      +:+ "-" +:+ string_of_Z (pos_transactionIndex p)
      +:+ "-" +:+ string_of_Z (pos_logIndex p)
  end.

Section Api.
Variable Snapshot : Type.
Variable Serialized : Type.
Variable empty : Snapshot.
Variable processParsedLog : Snapshot → Log → LogDescription → Snapshot.
Variable deserialize : Serialized → Snapshot.

(** The handler with what it reaches: the event store, the table
    [Snapshots], the keys of [generating] and the map [generated]. *)
Record t := mk {
  events : World;
  snapshots : list (StoredSnapshot Serialized);
  generating : gset string;
  generated : gmap string Snapshot;
}.

(** [handleGenerateSnapshot(params, signal)]; the chain of the sdk is
    that of the event store, and no signal aborts.  [None] when [fuel]
    turns of the replay were not enough. *)
Definition handleGenerateSnapshot (fuel : nat) (params : Value) (h : t)
  : option (Outcome t string) :=
  match target params with
  | inl e => Some (Throw e h)
  | inr to =>
      let c := chainId (mem (events h)) in
      let snapId := snapshotId c to in
      if bool_decide (snapId ∈ generating h)
      then Some (Throw (JSONRPCError Generating "still generating") h)
      else if bool_decide (is_Some (generated h !! snapId))
      then Some (Ok snapId h)
      else
        let started := generating h ∪ {[snapId]} in
        match getSnapshot Snapshot Serialized empty processParsedLog deserialize
                          fuel (events h) (snapshots h) to None with
        | None => None
        | Some (inl e) =>
            Some (Throw e (mk (events h) (snapshots h) (started ∖ {[snapId]})
                              (generated h)))
        | Some (inr (snapshot, position)) =>
            let underlyingSnapId := snapshotId c (AtPosition position) in
            let saved := <[snapId := snapshot]> (generated h) in
            let saved := if bool_decide (underlyingSnapId = snapId) then saved
                         else <[underlyingSnapId := snapshot]> saved in
            Some (Ok snapId (mk (events h) (snapshots h) (started ∖ {[snapId]}) saved))
        end
  end.

End Api.

Arguments mk {Snapshot Serialized}.
Arguments events {Snapshot Serialized}.
Arguments snapshots {Snapshot Serialized}.
Arguments generating {Snapshot Serialized}.
Arguments generated {Snapshot Serialized}.

(** The request of the API document. *)
Definition documented : Value :=
  VObject [("blockNumber", VNumber 2737538); ("transactionIndex", VNumber 10);
           ("logIndex", VNumber 23)].

(** A handler of the name-list engine on the store of three sub-tables,
    with nothing generated yet. *)
Definition idle : t (list string) (list string) :=
  mk threeTables oneStored ∅ ∅.

End Handler.
(** * Reorg: packages/base-plugins/src/plugins/reorg.ts ([checkEvents], [commit]) *)

Module Reorg.
Import EventStore Utils.

(** The locals of [checkEvents]: the map [existed], the list [needSave]
    and [reorgedBlockNumber]. *)
Record Check := mkCheck {
  existed : gmap string Event;
  needSave : list Event;
  reorgedBlockNumber : option Z;
}.

(** [for (const event of events) existed.set(event.id, event)] *)
Definition remember (existed : gmap string Event) (events : list Event)
  : gmap string Event :=
  foldl (λ m event, <[ev_id event := event]> m) existed events.

(** The condition of the query of a batch:
    [{ chainId, blockNumber: { [Op.gte]: from, [Op.lte]: _to } }]. *)
Definition window (c from _to : Z) : FindOptions :=
  mkFind (Some (Range None (Some from) None (Some _to)))
         (λ e, ev_chainId e =? c) false None None.

(** The loop [for await (const events of this.events.findAll(...))]:
    each turn resumes the generator once; [None] when [fuel] turns were
    not enough. *)
Fixpoint collect (fuel : nat) (c : FindOptions) (st : FindAllState) (w : World)
         (existed : gmap string Event) : option (Exception + gmap string Event) :=
  match fuel with
  | O => None
  | S fuel' =>
      match findAll_next c None None st None w with
      | inl e => Some (inl e)
      | inr (None, _) => Some (inr existed)
      | inr (Some events, st') => collect fuel' c st' w (remember existed events)
      end
  end.

(** [event.destroy({ transaction })]: the row of that id is deleted from
    the sub-table the event was read from. *)
Definition Event_destroy (e : Event) : M World unit :=
  λ w,
    match locate (-1) (ev_blockNumber e) (indexes (mem w)) O with
    | Some (_, index) =>
        (let* name := getModel index in
         let* _ := model_destroy name (byId (ev_id e) (ev_blockNumber e)) in
         ret tt)%js w
    | None => Ok tt w
    end.

(** [commit(needSave, needDestroy)]; the transaction is always obtained.
    A rollback restores the database, not the objects in memory. *)
Definition commit (needSave needDestroy : list Event) : M World bool :=
  λ begin,
    match (forEach needDestroy Event_destroy ;;
           forEach needSave (λ event, let* _ := create event in ret tt))%js begin with
    | Ok _ w => Ok true w
    | Throw _ w => Ok false (mkWorld (mem w) (db begin))
    end.

(** Every row of [d] is a row of [d'], in the same table. *)
Definition keeps_rows (d d' : Database) : Prop :=
  ∀ name row, row ∈ rows d name → row ∈ rows d' name.

(** How many turns are left to [findAll] without a limit, at most. *)
Definition turns (w : World) (st : FindAllState) : nat :=
  match st with
  | FA_Start => S (length (indexes (mem w)))
  | FA_Last i => length (indexes (mem w)) - i
  | FA_Page _ _ => 1
  | FA_Done => 1
  end.

Section Plugin.
Variable sha256 : string → string.
(** [sdk.contracts.gate.address] and [sdk.contracts.config.address] *)
Variable gate : string.
Variable config : string.
(** [parseLog] of the three interfaces; [None] when it throws. *)
Variable gateInterface : Log → option LogDescription.
Variable configInterface : Log → option LogDescription.
Variable instrumentInterface : Log → option LogDescription.
(** [source.logFetcher.fetch(from, to)] *)
Variable fetch : Z → Z → Exception + list Log.
(** The timestamp of [blocks.getBlock(blockNumber)]; [None] when it
    throws. *)
Variable getBlock : Z → option Z.

(** The row that [checkEvents] builds for a log it supplements; the
    arguments are kept in their serialized form, and no status is set. *)
Definition supplement (c : Z) (id txHash : string) (log : Log)
           (parsed : LogDescription) (timestamp : Z) : Event :=
  mkEvent id c (parsed_name parsed) (log_blockNumber log) (Some timestamp)
          (formatHexString (log_blockHash log)) txHash
          (log_transactionIndex log) (log_logIndex log)
          (formatHexString (log_address log)) (parsed_args parsed) 0.

(** One turn of [for (const log of logs)]. *)
Definition check_log (c : Z) (log : Log) (k : Check) : Exception + Check :=
  match calcEventId sha256 c (log_address log) (log_blockHash log)
                    (log_transactionHash log) (log_logIndex log) with
  | inl e => inl e
  | inr id =>
      match existed k !! id with
      | Some _ => inr (mkCheck (delete id (existed k)) (needSave k)
                               (reorgedBlockNumber k))
      | None =>
          match Storage.interface_of gate config gateInterface configInterface
                                     instrumentInterface log log with
          | None => inr k
          | Some parsed =>
              match getBlock (log_blockNumber log) with
              | None => inr k
              | Some timestamp =>
                  match Storage.formatHexString_opt (log_transactionHash log) with
                  | inl e => inl e
                  | inr txHash =>
                      inr (mkCheck
                             (existed k)
                             (needSave k ++ [supplement c id txHash log parsed timestamp])
                             (Some (match reorgedBlockNumber k with
                                    | None => log_blockNumber log
                                    | Some n => Z.min n (log_blockNumber log)
                                    end)))
                  end
              end
          end
      end
  end.

Fixpoint check_logs (c : Z) (logs : list Log) (k : Check) : Exception + Check :=
  match logs with
  | [] => inr k
  | log :: rest =>
      match check_log c log k with
      | inl e => inl e
      | inr k' => check_logs c rest k'
      end
  end.

(** The loop [while (from <= to)] of [checkEvents]; the store is only
    read. *)
Fixpoint check_batches (fuel : nat) (w : World) (from to : Z) (k : Check)
  : option (Exception + Check) :=
  match fuel with
  | O => None
  | S fuel' =>
      if from <=? to then
        let c := chainId (mem w) in
        let _to := Z.min (from + 1000) to in
        match collect fuel (window c from _to) FA_Start w (existed k) with
        | None => None
        | Some (inl e) => Some (inl e)
        | Some (inr existed') =>
            match fetch from _to with
            | inl e => Some (inl e)
            | inr logs =>
                match check_logs c
                        (js_sort (λ a b, compareLog (log_position a) (log_position b))
                                 logs)
                        (mkCheck existed' (needSave k) (reorgedBlockNumber k)) with
                | inl e => Some (inl e)
                | inr k' =>
                    if _to =? to then Some (inr k')
                    else check_batches fuel' w _to to k'
                end
            end
        end
      else Some (inr k)
  end.

(** [checkEvents(from, to)]: [{ needSave, needDestroy: [], reorgedBlockNumber }] *)
Definition checkEvents (fuel : nat) (w : World) (from to : Z)
  : option (Exception + list Event * list Event * option Z) :=
  on_value (λ k, (needSave k, [], reorgedBlockNumber k))
    <$> check_batches fuel w from to (mkCheck ∅ [] None).

(** A log and the row built for it. *)
Definition supplemented (c : Z) (log : Log) (e : Event) : Prop :=
  ∃ txHash parsed timestamp,
    log_transactionHash log = Some txHash
    ∧ calcEventId sha256 c (log_address log) (log_blockHash log)
                  (Some txHash) (log_logIndex log) = inr (ev_id e)
    ∧ Storage.interface_of gate config gateInterface configInterface
                           instrumentInterface log log = Some parsed
    ∧ getBlock (log_blockNumber log) = Some timestamp
    ∧ e = supplement c (ev_id e) (formatHexString txHash) log parsed timestamp.

(** What holds of the locals all along: [reorgedBlockNumber] is the least
    block number of [needSave], and every row of [needSave] was built for
    a log that [fetch] returned. *)
Record sound (c : Z) (k : Check) : Prop := {
  sound_none : reorgedBlockNumber k = None ↔ needSave k = [];
  sound_min : ∀ n, reorgedBlockNumber k = Some n →
                   (∃ e, e ∈ needSave k ∧ ev_blockNumber e = n)
                   ∧ ∀ e, e ∈ needSave k → n ≤ ev_blockNumber e;
  sound_fetched : ∀ e, e ∈ needSave k →
                       ∃ a b logs log, fetch a b = inr logs ∧ log ∈ logs
                                       ∧ supplemented c log e;
}.

End Plugin.

(** A fetcher that returns, whatever the window, a log of block 20 that
    is stored and a log of block 25 that is not. *)
Definition twoLogs (_ _ : Z) : Exception + list Log :=
  inr [mkLog "0xa" 25 "0xc" (Some "0xt") 0 0 false;
       mkLog "0xa" 20 "0xb" (Some "0xt") 0 0 false].

(** A digest for the examples, under which the log of block 20 of
    [twoLogs] has the id of the row stored at block 20. *)
Definition byIndex (s : string) : string :=
  if String.eqb s "100,a,b,t,0" then "20" else s.

End Reorg.
(** * A new instance on a written database *)

Module Restart.
Import EventStore.

(** [new Events(sequelize, chainId, maxSizeForSingleTable)] on the
    database of [w]: no model, no index, not initialised. *)
Definition reopen (w : World) : World :=
  mkWorld (mkEvents (chainId (mem w)) (maxSizeForSingleTable (mem w)) false ∅ [])
          (db w).

(** The rows of [EventIndex] lie in the order of their ids. *)
Definition by_id (d : Database) : Prop :=
  StronglySorted (λ a b, idx_id a < idx_id b) (db_EventIndex d).

End Restart.

(** * Stored snapshots: [saveSnapshot] and the pruning of the plugin
    (packages/base-plugins/src/plugins/snapshots.ts) *)

Module Snapshots.
Import EventStore Replay.

Section Table.
Variable Snapshot : Type.
Variable Serialized : Type.
Variable serialize : Snapshot → Serialized.

(** The [where] of [SnapshotTable.findOne] in [saveSnapshot]. *)
Definition at_position (chainId : Z) (position : EventPosition)
           (row : StoredSnapshot Serialized) : bool :=
  (ss_chainId row =? chainId) && bool_decide (ss_position row = position).

(** [saveSnapshot(chainId, snapshot, position)]: create if not exists. *)
Definition saveSnapshot (chainId : Z) (snapshot : Snapshot)
           (position : EventPosition) (table : list (StoredSnapshot Serialized))
  : list (StoredSnapshot Serialized) :=
  if existsb (at_position chainId position) table then table
  else table ++ [mkStored chainId position (serialize snapshot)].

End Table.

(** The ids that the plugin destroys before it saves a snapshot at
    [blockNumber]; [snapshots] are the rows (id, blockNumber) of the
    query, by block number.  When every row is outdated the last one is
    kept. *)
Definition outdatedSnapshots (blockNumber outdated : Z) (snapshots : list (Z * Z))
  : list Z :=
  let outdatedThreshold := blockNumber - outdated in
  let outdatedSnapshots :=
    fst <$> filter (λ row, row.2 ≤ outdatedThreshold) snapshots in
  if Nat.ltb 0 (length outdatedSnapshots)
     && Nat.eqb (length outdatedSnapshots) (length snapshots)
  then removelast outdatedSnapshots
  else outdatedSnapshots.

End Snapshots.

(** * Snapshot ids read back: [parseSnapshotId] and [Handler.onReorged] *)

Module SnapshotId.
Import EventStore Replay Handler.

(** The result of [parseInt]: an integer, or [NaN].  Integers are exact
    here; those of JavaScript are exact below 2^53. *)
Inductive Number :=
| NaN
| Int (n : Z).

(** White space that [parseInt] skips, among the characters of one
    byte. *)
Definition isWhiteSpace (a : ascii) : bool :=
  let n := nat_of_ascii a in
  Nat.eqb n 9 || Nat.eqb n 10 || Nat.eqb n 11 || Nat.eqb n 12 || Nat.eqb n 13
  || Nat.eqb n 32.

Fixpoint trimStart (s : string) : string :=
  match s with
  | String a s' => if isWhiteSpace a then trimStart s' else s
  | EmptyString => s
  end.

(** The value of a character as a digit of the radix. *)
Definition digit_of (radix : Z) (a : ascii) : option Z :=
  let n := Z.of_nat (nat_of_ascii a) in
  let d := if (48 <=? n) && (n <=? 57) then Some (n - 48)
           else if (97 <=? n) && (n <=? 122) then Some (n - 87)
           else if (65 <=? n) && (n <=? 90) then Some (n - 55)
           else None in
  match d with
  | Some d => if d <? radix then Some d else None
  | None => None
  end.

(** The value of the longest prefix of digits, [None] when it is
    empty. *)
Fixpoint digits (radix : Z) (s : string) (acc : option Z) : option Z :=
  match s with
  | String a s' =>
      match digit_of radix a with
      | Some d => digits radix s' (Some (default 0 acc * radix + d))
      | None => acc
      end
  | EmptyString => acc
  end.

(** [parseInt(string)], without a radix. *)
Definition parseInt (s : string) : Number :=
  let s := trimStart s in
  let '(sign, s) := match s with
                    | String "-" s' => (-1, s')
                    | String "+" s' => (1, s')
                    | _ => (1, s)
                    end in
  let '(radix, s) := match s with
                     | String "0" (String "x" s') => (16, s')
                     | String "0" (String "X" s') => (16, s')
                     | _ => (10, s)
                     end in
  match digits radix s None with
  | Some n => Int (sign * n)
  | None => NaN
  end.

(** [string.split(separator)] for a separator of one character. *)
Fixpoint split (separator : ascii) (s : string) : list string :=
  match s with
  | EmptyString => [EmptyString]
  | String a s' =>
      if Ascii.eqb a separator then EmptyString :: split separator s'
      else match split separator s' with
           | element :: rest => String a element :: rest
           | [] => [String a EmptyString]
           end
  end.

(** The object that [parseSnapshotId] returns; the last two properties
    are there in its second form only. *)
Record Parsed := mkParsedId {
  id_chainId : Number;
  id_blockNumber : Number;
  id_transactionIndex : option Number;
  id_logIndex : option Number;
}.

(** [parseInt(elements[i])]; [parseInt(undefined)] is [NaN]. *)
Definition element (elements : list string) (i : nat) : Number :=
  match elements !! i with
  | Some s => parseInt s
  | None => NaN
  end.

Definition parseSnapshotId (id : string) : Parsed :=
  let elements := split "-" id in
  if Nat.eqb (length elements) 2
  then mkParsedId (element elements 0) (element elements 1) None None
  else mkParsedId (element elements 0) (element elements 1)
                  (Some (element elements 2)) (Some (element elements 3)).

(** [blockNumber >= reorgBlockNumber], false for [NaN]. *)
Definition reorged (reorgBlockNumber : Z) (id : string) : bool :=
  match id_blockNumber (parseSnapshotId id) with
  | Int blockNumber => reorgBlockNumber <=? blockNumber
  | NaN => false
  end.

(** [onReorged(reorgBlockNumber)]: the ids being generated whose
    aborter is aborted, and the handler without the generated snapshots
    at or after the block. *)
Definition onReorged {Snapshot Serialized : Type} (reorgBlockNumber : Z)
           (h : t Snapshot Serialized) : gset string * t Snapshot Serialized :=
  (filter (λ id, reorged reorgBlockNumber id = true) (generating h),
   mk (events h) (snapshots h) (generating h)
      (filter (λ entry, reorged reorgBlockNumber entry.1 ≠ true) (generated h))).

End SnapshotId.

(** * packages/base-plugins/src/utils/fetcher.ts *)

Module Fetcher.

(** [provider.getLogs({ fromBlock: from, toBlock: to })] on a chain whose
    logs are [chain]: the logs of the blocks [from] to [to], both
    included. *)
Definition getLogs (chain : list Log) (from to : Z) : Exception + list Log :=
  inr (filter (λ log, from ≤ log_blockNumber log ≤ to) chain).

(** A chain with a log at block 20 and a log at block 1000. *)
Definition twoBlocks : list Log :=
  [mkLog "0xa" 20 "0xb" (Some "0xt") 0 0 false;
   mkLog "0xa" 1000 "0xc" (Some "0xt") 0 0 false].

End Fetcher.

(** * packages/utils/src/jsonrpc.ts ([JSONRPC.parse], the formatters) and
      [Handler.handle] *)

Module JSONRPC.
Import Handler.

Definition Parse : Z := -32700.
Definition NotFound : Z := -32601.
Definition Internal : Z := -32603.

(** The truth value of a value in a condition. *)
Definition truthy (v : Value) : bool :=
  match v with
  | VUndefined | VNull => false
  | VBool b => b
  | VNumber n => negb (n =? 0)
  | VString s => negb (String.eqb s "")
  | VArray _ | VObject _ => true
  end.

(** [v === s] for a string [s] *)
Definition is_string (v : Value) (s : string) : bool :=
  match v with
  | VString s' => String.eqb s' s
  | _ => false
  end.

(** What [parse] returns: the type of the message with its data. *)
Inductive Message :=
| request (id : Value) (method : string) (params : Value)
| notify (method : string) (params : Value)
| response (id result error : Value).

Definition formatJSONRPCRequest (id method params : Value) : Value :=
  VObject [("jsonrpc", VString "2.0"); ("id", id); ("method", method);
           ("params", params)].

Definition formatJSONRPCResult (id result : Value) : Value :=
  VObject [("jsonrpc", VString "2.0"); ("id", id); ("result", result)].

(** [formatJSONRPCError(err, id)] for a thrown [err]: the code of a
    [JSONRPCError], [Internal] for any other [Error]. *)
Definition formatJSONRPCError (err : Exception) (id : Value) : Value :=
  let '(code, message) :=
    match err with
    | JSONRPCError code message => (code, message)
    | JsError message | TypeError message | DatabaseError message =>
        (Internal, message)
    end in
  VObject [("jsonrpc", VString "2.0"); ("id", id);
           ("error", VObject [("code", VNumber code); ("message", VString message)])].

Section Parse.
(** [JSON.parse]; [None] when it throws. *)
Variable JSON_parse : string → option Value.

Definition parse (data : Value) : Exception + Message :=
  and_then (match data with
            | VString s =>
                match JSON_parse s with
                | Some json => inr json
                | None => inl (JSONRPCError Parse "invalid json format")
                end
            | _ => inr data
            end) (λ json,
  and_then (property json "jsonrpc") (λ version,
  if negb (is_string version "2.0")
  then inl (JSONRPCError InvalidRequest "invalid version")
  else
    and_then (property json "method") (λ method,
    if truthy method then
      match method with
      | VString m =>
          and_then (property json "id") (λ id,
          and_then (property json "params") (λ params,
          inr (if truthy id then request id m params else notify m params)))
      | _ => inl (JSONRPCError InvalidRequest "invalid method")
      end
    else
      and_then (property json "result") (λ result,
      and_then (property json "error") (λ error,
      if negb (truthy result) && negb (truthy error)
      then inl (JSONRPCError InvalidRequest "invalid result or error")
      else and_then (property json "id") (λ id, inr (response id result error))))))).

(** [String.prototype.toUpperCase] on an ASCII character. *)
Definition upper_ascii (c : ascii) : ascii :=
  let n := nat_of_ascii c in
  if ((97 <=? n)%nat && (n <=? 122)%nat)%bool then ascii_of_nat (n - 32) else c.

(** [`handle${method[0].toUpperCase() + method.substring(1)}`] for a
    method that is not empty. *)
Definition handler_name (method : string) : string :=
  match method with
  | EmptyString => "handleundefined"
  | String c rest => "handle" +:+ String (upper_ascii c) rest
  end.

(** [Handler.handle(msg, signal)] on a handler whose state is of type
    [S]; [handlers] is the lookup of a property of the handler by name.
    The value is the object that [JSON.stringify] is given. *)
Definition handle {S : Type} (handlers : string → option (Value → M S Value))
           (msg : string) (s : S) : Value * S :=
  match parse (VString msg) with
  | inl err => (formatJSONRPCError err VUndefined, s)
  | inr (notify _ _) =>
      (formatJSONRPCError (JSONRPCError InvalidRequest "invalid request") VUndefined, s)
  | inr (response id _ _) =>
      (formatJSONRPCError (JSONRPCError InvalidRequest "invalid request") id, s)
  | inr (request id method params) =>
      if String.eqb method ""
      then (formatJSONRPCError
              (JSONRPCError NotFound ("unknown method: " +:+ method)) id, s)
      else
        match handlers (handler_name method) with
        | None =>
            (formatJSONRPCError
               (JSONRPCError NotFound ("unknown method: " +:+ method)) id, s)
        | Some handler =>
            match handler params s with
            | Ok result s' => (formatJSONRPCResult id result, s')
            | Throw err s' => (formatJSONRPCError err id, s')
            end
        end
  end.

End Parse.

(** A message that asks for the state, with the id 0. *)
Definition stateRequest : Value :=
  VObject [("jsonrpc", VString "2.0"); ("id", VNumber 0);
           ("method", VString "state")].

End JSONRPC.

(** * The plugin [Snapshots]: a turn of [work] on a [reorged] event
      (packages/base-plugins/src/plugins/snapshots.ts) *)

Module SnapshotsWork.
Import EventStore Replay.

Section Engine.
Variable Snapshot : Type.
Variable Serialized : Type.
Variable empty : Snapshot.
Variable processParsedLog : Snapshot → Log → LogDescription → Snapshot.
Variable deserialize : Serialized → Snapshot.

(** [latestSnapshot] with [latestPosition], which are set and cleared
    together, and the table [Snapshots]. *)
Record t := mk {
  latest : option (Snapshot * EventPosition);
  table : list (StoredSnapshot Serialized);
}.

(** [SnapshotTable.destroy({ where: { blockNumber: { [Op.gte]: n } } })] *)
Definition destroy_from (n : Z) (table : list (StoredSnapshot Serialized))
  : list (StoredSnapshot Serialized) :=
  filter (λ row, ¬ n ≤ pos_blockNumber (ss_position row)) table.

(** The turn of [work] on [{ type: 'reorged', reorgBlockNumber }]; an
    exception of [getSnapshot] is caught and logged, and leaves the
    latest snapshot cleared.  [None] when [fuel] turns of the replay
    were not enough. *)
Definition reorged (fuel : nat) (w : World) (reorgBlockNumber : Z) (s : t)
  : option t :=
  let table := destroy_from reorgBlockNumber (table s) in
  match getSnapshot Snapshot Serialized empty processParsedLog deserialize
                    fuel w table (AtBlock (reorgBlockNumber - 1)) None with
  | None => None
  | Some (inl _) => Some (mk None table)
  | Some (inr (snapshot, position)) => Some (mk (Some (snapshot, position)) table)
  end.

End Engine.

Arguments mk {Snapshot Serialized}.
Arguments latest {Snapshot Serialized}.
Arguments table {Snapshot Serialized}.

End SnapshotsWork.

(** * Facts about the printed numbers *)

Lemma Z_to_int_printable (z : Z) :
  Z.to_int z ≠ Decimal.Pos Decimal.Nil ∧ Z.to_int z ≠ Decimal.Neg Decimal.Nil.
Proof.
  destruct z as [|p|p]; simpl; split; try discriminate;
    intros [= H]; by apply DecimalPos.Unsigned.to_uint_nonnil in H.
Qed.

Lemma string_of_Z_inj (a b : Z) : string_of_Z a = string_of_Z b → a = b.
Proof.
  unfold string_of_Z. intros H.
  apply (f_equal NilZero.int_of_string) in H.
  destruct (Z_to_int_printable a) as [Ha1 Ha2].
  destruct (Z_to_int_printable b) as [Hb1 Hb2].
  rewrite !NilZero.isi in H by assumption.
  injection H as H.
  apply (f_equal Z.of_int) in H.
  by rewrite !DecimalZ.of_to in H.
Qed.


(** * The confirmation stage of the ingestor *)

Section SourceFacts.
Import Source.

Lemma confirm_fold_all (latest c : Z) (l acc : list MixedLog) :
  foldl (λ '(confirming, confirmed) log,
           if latest - c <? blockNumber log
           then (confirming, confirmed ++ [log])
           else (confirming, confirmed ++ [log]))
        (([] : list MixedLog), acc) l
  = ([], acc ++ l).
Proof.
  revert acc. induction l as [|x l IH]; intros acc; simpl.
  - by rewrite app_nil_r.
  - destruct (latest - c <? blockNumber x); rewrite IH, <- app_assoc; done.
Qed.

Lemma js_insert_length {A} (cmp : A → A → Z) x (l : list A) :
  length (js_insert cmp x l) = S (length l).
Proof.
  induction l as [|y l IH]; simpl; [done|].
  destruct (cmp y x <=? 0); simpl; by rewrite ?IH.
Qed.

Lemma js_sort_length {A} (cmp : A → A → Z) (l : list A) :
  length (js_sort cmp l) = length l.
Proof.
  unfold js_sort.
  assert (H : ∀ acc, length (foldl (λ acc x, js_insert cmp x acc) acc l)
                     = (length acc + length l)%nat).
  { induction l as [|x l IH]; intros acc; simpl; [lia|].
    rewrite IH, js_insert_length. lia. }
  by rewrite H.
Qed.

(** Whatever the head, [confirm] leaves nothing held: every held log is
    pushed downstream in one batch. *)
Lemma confirm_holds_nothing (s : t) :
  confirmingLogs (confirm s) = []
  ∧ (confirmingLogs s ≠ [] →
     logs (confirm s) = logs s ++ [js_sort compareMixedLog (confirmingLogs s)]).
Proof.
  unfold confirm. destruct (confirmingLogs s) as [|x l] eqn:E; [done|].
  rewrite confirm_fold_all. simpl.
  pose proof (js_sort_length compareMixedLog (x :: l)) as Hlen.
  destruct (js_sort compareMixedLog (x :: l)) as [|y l'] eqn:E'; [done|].
  simpl. done.
Qed.

(** C1, evaluated on the code.  With confirmation 2 and head 103 the
    subscription logs at blocks 100 and 101 go downstream and those at
    102 and 103 are held; the head update to 104 then pushes both held
    logs downstream, the block-103 log included although 103 > 104 - 2,
    and nothing stays in [confirmingLogs]. *)
Theorem confirm_releases_unconfirmed_log :
  logs afterInjection = [[PlainLog (blockLog 100)]; [PlainLog (blockLog 101)]]
  ∧ confirmingLogs afterInjection
    = [PlainLog (blockLog 102); PlainLog (blockLog 103)]
  ∧ logs (processBlockNumber sameHeader 104 afterInjection)
    = [[PlainLog (blockLog 100)]; [PlainLog (blockLog 101)];
       [PlainLog (blockLog 102); PlainLog (blockLog 103)]]
  ∧ confirmingLogs (processBlockNumber sameHeader 104 afterInjection) = [].
Proof. vm_compute. done. Qed.

End SourceFacts.

(** * The event store: shape of the results of the writes *)

Section EventStoreBasics.
Import EventStore.

Lemma append_inj_r (p a b : string) : p +:+ a = p +:+ b → a = b.
Proof. induction p as [|c p IH]; simpl; [done|]. intros [= H]. auto. Qed.

Lemma concatModelName_inj (c i j : Z) :
  concatModelName c i = concatModelName c j → i = j.
Proof.
  unfold concatModelName. intros H.
  do 3 apply append_inj_r in H. by apply string_of_Z_inj.
Qed.

(** A successful [insert] appends the event to the table of the index,
    replaces the index by its bumped copy in memory and saves it. *)
Lemma insert_Ok (e r : Event) (k : nat) (index : EventIndex) (w w' : World) :
  insert e k index w = Ok r w' →
  ∃ table,
    table_name w index ∈ models (mem w)
    ∧ db_tables (db w) !! table_name w index = Some table
    ∧ existsb (conflicts e) table = false
    ∧ r = e
    ∧ w' = mkWorld
             (mkEvents (chainId (mem w)) (maxSizeForSingleTable (mem w))
                       (initializing (mem w)) (models (mem w))
                       (<[k := bump e index]> (indexes (mem w))))
             (mkDB (db_EventIndex (EventIndex_save (bump e index) (db w)))
                   (db_nextId (db w))
                   (<[table_name w index := table ++ [e]]> (db_tables (db w)))).
Proof.
  unfold insert, bind, getModel, modify, model_create, table_name.
  destruct (decide (_ ∈ models (mem w))) as [Hin|]; [|done].
  simpl.
  destruct (db_tables (db w) !! _) as [table|] eqn:Ht; [|done].
  destruct (existsb (conflicts e) table) eqn:Hc; [done|].
  intros [= <- <-]. exists table. done.
Qed.

Lemma allocate_unfold (e : Event) (w : World) :
  allocate e w =
  (let* model := getModel (mkIndex (db_nextId (db w)) (ev_chainId e)
                                   (ev_blockNumber e)
                                   (Z.of_nat (length (indexes (mem w)))) 1) in
   model_create model e)%js (allocated e w).
Proof. reflexivity. Qed.

Lemma allocate_Ok (e r : Event) (w w' : World) :
  allocate e w = Ok r w' →
  let name := concatModelName (chainId (mem w))
                              (Z.of_nat (length (indexes (mem w)))) in
  ∃ table,
    name ∈ models (mem w)
    ∧ db_tables (db w) !! name = Some table
    ∧ existsb (conflicts e) table = false
    ∧ r = e
    ∧ w' = set_db (allocated e w)
             (mkDB (db_EventIndex (db (allocated e w)))
                   (db_nextId (db (allocated e w)))
                   (<[name := table ++ [e]]> (db_tables (db w)))).
Proof.
  rewrite allocate_unfold. unfold bind, getModel, model_create. simpl.
  destruct (decide (_ ∈ models (mem w))) as [Hin|]; [|done].
  change (db_tables (db (allocated e w))) with (db_tables (db w)).
  destruct (db_tables (db w) !! _) as [table|] eqn:Ht; [|done].
  destruct (existsb (conflicts e) table) eqn:Hc; [done|].
  intros [= <- <-]. exists table. done.
Qed.

Lemma allocate_unknown_model (e : Event) (w : World) :
  concatModelName (chainId (mem w)) (Z.of_nat (length (indexes (mem w))))
    ∉ models (mem w) →
  allocate e w = Throw (JsError "unknown model") (allocated e w).
Proof.
  intros Hn. rewrite allocate_unfold. unfold bind, getModel. simpl.
  destruct (decide (_ ∈ models (mem w))); done.
Qed.

(** A successful [destroyOne] that found a sub-table. *)
Lemma destroyOne_Ok (c : FindOptions) (b : option Z) (n : Z) (w w' : World) :
  destroyOne c b w = Ok n w' →
  ∃ blockNumber, blockNumber_of c b = Some (Some blockNumber) ∧
  match locate (-1) blockNumber (indexes (mem w)) O with
  | None => n = 0 ∧ w' = w
  | Some (k, index) =>
      ∃ table,
        db_tables (db w) !! table_name w index = Some table
        ∧ n = Z.of_nat (length (filter (λ e, matches c e = true) table))
        ∧ let kept := filter (λ e, matches c e ≠ true) table in
          let tables := <[table_name w index := kept]> (db_tables (db w)) in
          if 0 <? n then
            w' = mkWorld
                   (mkEvents (chainId (mem w)) (maxSizeForSingleTable (mem w))
                             (initializing (mem w)) (models (mem w))
                             (<[k := shrink n index]> (indexes (mem w))))
                   (mkDB (db_EventIndex (EventIndex_save (shrink n index) (db w)))
                         (db_nextId (db w)) tables)
          else
            w' = set_db w (mkDB (db_EventIndex (db w)) (db_nextId (db w)) tables)
  end.
Proof.
  unfold destroyOne.
  destruct (blockNumber_of c b) as [[blockNumber|]|] eqn:Hb; [|done|done].
  intros H. exists blockNumber. split; [done|].
  destruct (locate (-1) blockNumber (indexes (mem w)) 0) as [[k index]|];
    [|by injection H as <- <-].
  revert H. unfold bind, getModel, model_destroy, modify, ret, table_name.
  destruct (decide (_ ∈ models (mem w))) as [Hin|]; [|done].
  destruct (db_tables (db w) !! _) as [table|] eqn:Ht; [|done].
  simpl.
  destruct (0 <? Z.of_nat (length (filter _ table))) eqn:Hpos; simpl;
    intros [= <- <-]; exists table; rewrite Hpos; done.
Qed.

End EventStoreBasics.

(** * The event store: routing by block number *)

Section EventStoreRouting.
Import EventStore.

Lemma previous_at_lookup (p : Z) (idxs : list EventIndex) (j : nat) index :
  idxs !! j = Some index → previous_at p idxs (S j) = idx_blockNumber index.
Proof.
  revert p j. induction idxs as [|a l IH]; intros p j H; [done|].
  destruct j as [|j]; simpl in *.
  - injection H as ->. by destruct l.
  - by apply IH.
Qed.

Lemma previous_at_app (p : Z) (l l' : list EventIndex) (j : nat) :
  (j ≤ length l)%nat → previous_at p (l ++ l') j = previous_at p l j.
Proof.
  revert p j. induction l as [|a l IH]; intros p j H; simpl in *.
  - assert (j = O) as -> by lia. by destruct l'.
  - destruct j as [|j]; [done|]. simpl. apply IH. lia.
Qed.

Lemma previous_at_insert_le (p : Z) (l : list EventIndex) (k j : nat) x :
  (j ≤ k)%nat → previous_at p (<[k := x]> l) j = previous_at p l j.
Proof.
  revert p k j. induction l as [|a l IH]; intros p k j H; [done|].
  destruct j as [|j]; [by destruct k|].
  destruct k as [|k]; [lia|]. simpl. apply IH. lia.
Qed.

Lemma previous_at_insert_same (p : Z) (l : list EventIndex) (k j : nat) x y :
  l !! k = Some y → idx_blockNumber x = idx_blockNumber y →
  previous_at p (<[k := x]> l) j = previous_at p l j.
Proof.
  revert p k j. induction l as [|a l IH]; intros p k j Hk Hx; [done|].
  destruct j as [|j]; [by destruct k|].
  destruct k as [|k]; simpl in *.
  - injection Hk as ->. by rewrite Hx.
  - by apply IH.
Qed.

Lemma first_fit_Some (bn : Z) (idxs : list EventIndex) (k0 k : nat) index :
  first_fit bn idxs k0 = Some (k, index) →
  ∃ j, k = (k0 + j)%nat ∧ idxs !! j = Some index ∧ bn ≤ idx_blockNumber index
       ∧ ∀ i index', (i < j)%nat → idxs !! i = Some index' →
                     idx_blockNumber index' < bn.
Proof.
  revert k0. induction idxs as [|a l IH]; intros k0; simpl; [done|].
  destruct (bn <=? idx_blockNumber a) eqn:E.
  - intros [= <- <-]. exists O. split_and!; [lia|done|lia|]. intros; lia.
  - intros H. destruct (IH _ H) as (j & -> & Hj & Hle & Hlt).
    exists (S j). split_and!; [lia|done|done|].
    intros [|i] index' Hi Hl; simpl in Hl.
    + injection Hl as <-. lia.
    + apply (Hlt i); [lia|done].
Qed.

Lemma first_fit_None (bn : Z) (idxs : list EventIndex) (k0 : nat) :
  first_fit bn idxs k0 = None →
  ∀ index, index ∈ idxs → idx_blockNumber index < bn.
Proof.
  revert k0. induction idxs as [|a l IH]; intros k0; simpl.
  - intros _ index H. by apply elem_of_nil in H.
  - destruct (bn <=? idx_blockNumber a) eqn:E; [done|].
    intros H index [->|Hin]%elem_of_cons; [lia|]. by eapply IH.
Qed.

(** For a block number above [previous] (every block number is, at the
    start of the loop, where [previous] is -1) the loop of the code picks
    the place the specification names. *)
Lemma locate_first_fit (previous bn : Z) (idxs : list EventIndex) (k : nat) :
  previous < bn → locate previous bn idxs k = first_fit bn idxs k.
Proof.
  revert previous k. induction idxs as [|a l IH]; intros previous k H; simpl; [done|].
  destruct (bn <=? idx_blockNumber a) eqn:E.
  - replace (previous <? bn) with true by (symmetry; apply Z.ltb_lt; lia). done.
  - rewrite andb_false_r. apply IH. lia.
Qed.

Lemma locate_Some (previous bn : Z) (idxs : list EventIndex) (k0 k : nat) index :
  locate previous bn idxs k0 = Some (k, index) →
  ∃ j, k = (k0 + j)%nat ∧ idxs !! j = Some index
       ∧ previous_at previous idxs j < bn ≤ idx_blockNumber index.
Proof.
  revert previous k0. induction idxs as [|a l IH]; intros previous k0; simpl; [done|].
  destruct ((previous <? bn) && (bn <=? idx_blockNumber a)) eqn:E.
  - intros [= <- <-]. exists O. apply andb_true_iff in E as [E1 E2].
    split_and!; [lia|done|simpl; lia|lia].
  - intros H. destruct (IH _ _ H) as (j & -> & Hj & Hr).
    exists (S j). split_and!; [lia|done|simpl; lia|lia].
Qed.

End EventStoreRouting.

(** * The event store: the invariants are kept by every successful write *)

Section EventStoreInvariant.
Import EventStore.

Lemma EventIndex_save_rows index d :
  db_EventIndex (EventIndex_save index d) = replace_row index <$> db_EventIndex d.
Proof. reflexivity. Qed.

Lemma replace_row_id index r : idx_id (replace_row index r) = idx_id r.
Proof.
  unfold replace_row. destruct (idx_id r =? idx_id index) eqn:E; [|done].
  apply Z.eqb_eq in E. done.
Qed.

Lemma replace_row_ids index (l : list EventIndex) :
  idx_id <$> (replace_row index <$> l) = idx_id <$> l.
Proof.
  rewrite <- list_fmap_compose. apply list_fmap_ext.
  intros i x _. apply replace_row_id.
Qed.

(** In a list without two rows of the same id, saving the row at place
    [k] under its own id rewrites that place and no other. *)
Lemma replace_row_insert (l : list EventIndex) (k : nat) index index' :
  NoDup (idx_id <$> l) → l !! k = Some index → idx_id index' = idx_id index →
  replace_row index' <$> l = <[k := index']> l.
Proof.
  revert k. induction l as [|a l IH]; intros k Hnd Hk Hid; [done|].
  rewrite fmap_cons in Hnd. apply NoDup_cons in Hnd as [Hnot Hnd].
  destruct k as [|k]; simpl in *.
  - injection Hk as ->. f_equal.
    + unfold replace_row. rewrite Hid, Z.eqb_refl. done.
    + clear IH. induction l as [|b l IH]; [done|]. simpl in *.
      apply not_elem_of_cons in Hnot as [Hne Hnot].
      apply NoDup_cons in Hnd as [_ Hnd].
      f_equal; [|by apply IH].
      unfold replace_row. rewrite Hid.
      destruct (idx_id b =? idx_id index) eqn:E; [|done].
      apply Z.eqb_eq in E. congruence.
  - f_equal; [|by apply IH].
    unfold replace_row. rewrite Hid.
    destruct (idx_id a =? idx_id index) eqn:E; [|done].
    apply Z.eqb_eq in E. exfalso. apply Hnot. rewrite E.
    apply list_elem_of_fmap. exists index. split; [done|].
    by eapply list_elem_of_lookup_2.
Qed.

Lemma filter_fmap_commute {A} (P : A → Prop) `{∀ x, Decision (P x)}
      (f : A → A) (l : list A) :
  (∀ x, x ∈ l → P (f x) ↔ P x) → filter P (f <$> l) = f <$> filter P l.
Proof.
  induction l as [|a l IH]; intros HP; [done|].
  rewrite fmap_cons, !filter_cons.
  rewrite IH by (intros x Hx; apply HP; by right).
  destruct (decide (P (f a))) as [Hfa|Hfa], (decide (P a)) as [Ha|Ha]; try done.
  - exfalso. apply Ha, HP; [by left|done].
  - exfalso. apply Hfa, HP; [by left|done].
Qed.

(** Saving the index at place [k] of memory keeps memory and the rows
    of the chain equal. *)
Lemma save_coherent (c : Z) (R : list EventIndex) (k : nat) index index' :
  NoDup (idx_id <$> R) →
  filter (λ r, idx_chainId r = c) R !! k = Some index →
  idx_id index' = idx_id index → idx_chainId index' = idx_chainId index →
  filter (λ r, idx_chainId r = c) (replace_row index' <$> R)
  = <[k := index']> (filter (λ r, idx_chainId r = c) R).
Proof.
  intros Hnd Hk Hid Hc.
  assert (Hin : index ∈ R ∧ idx_chainId index = c).
  { apply list_elem_of_lookup_2 in Hk. apply list_elem_of_filter in Hk. tauto. }
  destruct Hin as [Hin Hchain].
  rewrite filter_fmap_commute.
  - apply (replace_row_insert _ k index); [|done|done].
    eapply sublist_NoDup; [exact Hnd|].
    apply fmap_sublist, sublist_filter.
  - intros r Hr. unfold replace_row. rewrite Hid.
    destruct (idx_id r =? idx_id index) eqn:E; [|done].
    apply Z.eqb_eq in E.
    assert (r = index) as ->; [|by rewrite Hc].
    apply list_elem_of_lookup in Hr as [i Hi], Hin as [j Hj].
    assert (i = j) as ->; [|congruence].
    eapply NoDup_lookup; [exact Hnd| |].
    + rewrite list_lookup_fmap, Hi. reflexivity.
    + rewrite list_lookup_fmap, Hj. simpl. by rewrite E.
Qed.

Lemma table_name_inj (w : World) (k k' : nat) index index' :
  store_ok w →
  indexes (mem w) !! k = Some index → indexes (mem w) !! k' = Some index' →
  table_name w index = table_name w index' → k = k'.
Proof.
  intros Hok Hk Hk' Hn. apply concatModelName_inj in Hn.
  rewrite (ok_index _ Hok _ _ Hk), (ok_index _ Hok _ _ Hk') in Hn. lia.
Qed.

Lemma conflicts_fresh (e : Event) (table : list Event) :
  existsb (conflicts e) table = false →
  (ev_id e ∉ ev_id <$> table) ∧ (event_key e ∉ event_key <$> table).
Proof.
  intros H. split; intros (r & Heq & Hr)%list_elem_of_fmap.
  - assert (existsb (conflicts e) table = true); [|congruence].
    apply existsb_exists. exists r. split; [by apply list_elem_of_In|].
    unfold conflicts. apply orb_true_iff. left.
    apply bool_decide_eq_true. by symmetry.
  - assert (existsb (conflicts e) table = true); [|congruence].
    apply existsb_exists. exists r. split; [by apply list_elem_of_In|].
    unfold conflicts.
    pose proof (f_equal fst Heq) as Hc. pose proof (f_equal snd Heq) as Hp.
    simpl in Hc, Hp.
    apply orb_true_iff. right. apply andb_true_iff. split.
    + apply Z.eqb_eq. by symmetry.
    + apply bool_decide_eq_true. by symmetry.
Qed.

(** [insert] at place [k], for an event above the range of the place
    before and either within the range of [k] or sent to the tail. *)
Lemma insert_keeps_ok (w w' : World) (e r : Event) (k : nat) index :
  store_ok w → indexes (mem w) !! k = Some index →
  previous_of (indexes (mem w)) k < ev_blockNumber e →
  (ev_blockNumber e ≤ idx_blockNumber index
   ∨ S k = length (indexes (mem w))) →
  insert e k index w = Ok r w' → store_ok w'.
Proof.
  intros Hok Hk Hprev Hcase Hins.
  destruct (insert_Ok _ _ _ _ _ _ Hins) as (table & Hmod & Htab & Hfresh & -> & ->).
  clear Hins.
  assert (Hprev' : ∀ j x, <[k := bump e index]> (indexes (mem w)) !! j = Some x →
            previous_of (<[k := bump e index]> (indexes (mem w))) j
            = previous_of (indexes (mem w)) j).
  { intros j x Hj. apply lookup_lt_Some in Hj. rewrite length_insert in Hj.
    unfold previous_of. destruct Hcase as [Hle|Htail].
    - apply (previous_at_insert_same _ _ _ _ _ index); [done|].
      simpl. lia.
    - apply previous_at_insert_le. lia. }
  assert (Hrows : ∀ k' x, indexes (mem w) !! k' = Some x → k' ≠ k →
            rows (mkDB (db_EventIndex (EventIndex_save (bump e index) (db w)))
                       (db_nextId (db w))
                       (<[table_name w index := table ++ [e]]> (db_tables (db w))))
                 (table_name w x)
            = table_of w x).
  { intros k' x Hx Hne. unfold rows, table_of, rows. simpl.
    rewrite lookup_insert_ne; [done|].
    intros Hn. apply Hne. symmetry. by eapply table_name_inj. }
  assert (Htable : table_of w index = table).
  { unfold table_of, rows. by rewrite Htab. }
  constructor; cbn [mem db indexes chainId db_EventIndex db_nextId db_tables].
  - rewrite EventIndex_save_rows.
    rewrite <- (ok_coherent _ Hok) in Hk |- *.
    apply (save_coherent _ _ _ index); [apply Hok|done|done|done].
  - rewrite EventIndex_save_rows, replace_row_ids. apply Hok.
  - rewrite EventIndex_save_rows. apply Forall_fmap.
    eapply Forall_impl; [apply (ok_nextId _ Hok)|].
    intros x Hx. simpl. rewrite replace_row_id. done.
  - intros k' x [(-> & <- & Hlt)|[Hne Hx]]%list_lookup_insert_Some; simpl.
    + by apply (ok_index _ Hok).
    + by apply (ok_index _ Hok).
  - intros k' x [(-> & <- & Hlt)|[Hne Hx]]%list_lookup_insert_Some.
    + unfold table_of, table_name, rows. simpl.
      rewrite lookup_insert_eq. simpl. rewrite length_app. simpl.
      rewrite (ok_size _ Hok _ _ Hk), Htable. lia.
    + change (table_of _ x) with
        (rows (mkDB (db_EventIndex (EventIndex_save (bump e index) (db w)))
                    (db_nextId (db w))
                    (<[table_name w index := table ++ [e]]> (db_tables (db w))))
              (table_name w x)).
      rewrite (Hrows k') by done. by apply (ok_size _ Hok k').
  - intros k' x e' Hx He'. rewrite (Hprev' _ _ Hx).
    apply list_lookup_insert_Some in Hx as [(-> & <- & Hlt)|[Hne Hx]].
    + unfold table_of, table_name, rows in He'. simpl in He'.
      rewrite lookup_insert_eq in He'. simpl in He'.
      apply elem_of_app in He' as [He'|He'].
      * rewrite <- Htable in He'.
        pose proof (ok_range _ Hok _ _ _ Hk He'). simpl. lia.
      * apply list_elem_of_singleton in He' as ->. simpl. lia.
    + change (table_of _ x) with
        (rows (mkDB (db_EventIndex (EventIndex_save (bump e index) (db w)))
                    (db_nextId (db w))
                    (<[table_name w index := table ++ [e]]> (db_tables (db w))))
              (table_name w x)) in He'.
      rewrite (Hrows k') in He' by done. by apply (ok_range _ Hok).
  - intros k' x Hx. rewrite (Hprev' _ _ Hx).
    apply list_lookup_insert_Some in Hx as [(-> & <- & Hlt)|[Hne Hx]].
    + pose proof (ok_mono _ Hok _ _ Hk). simpl. lia.
    + by apply (ok_mono _ Hok).
  - intros k' x [(-> & <- & Hlt)|[Hne Hx]]%list_lookup_insert_Some.
    + unfold table_of, table_name, rows. simpl.
      rewrite lookup_insert_eq. simpl. rewrite !fmap_app. simpl.
      destruct (conflicts_fresh _ _ Hfresh) as [Hid Hkey].
      destruct (ok_unique _ Hok _ _ Hk) as [H1 H2]. rewrite Htable in H1, H2.
      split; apply NoDup_app; split_and!; try done;
        try apply NoDup_singleton;
        intros y Hy ->%list_elem_of_singleton; done.
    + change (table_of _ x) with
        (rows (mkDB (db_EventIndex (EventIndex_save (bump e index) (db w)))
                    (db_nextId (db w))
                    (<[table_name w index := table ++ [e]]> (db_tables (db w))))
              (table_name w x)).
      rewrite (Hrows k') by done. by apply (ok_unique _ Hok k').
  - intros i Hi. rewrite length_insert in Hi. unfold rows. simpl.
    rewrite lookup_insert_ne; [by apply (ok_untracked _ Hok)|].
    unfold table_name. intros Hn%concatModelName_inj.
    rewrite (ok_index _ Hok _ _ Hk) in Hn. apply lookup_lt_Some in Hk. lia.
Qed.

Lemma previous_of_below (idxs : list EventIndex) (k : nat) (bn : Z) :
  -1 < bn → (∀ index, index ∈ idxs → idx_blockNumber index < bn) →
  previous_of idxs k < bn.
Proof.
  unfold previous_of. generalize (-1). intros p Hp Hall.
  revert p k Hp. induction idxs as [|a l IH]; intros p k Hp.
  - by destruct k.
  - destruct k as [|k]; [exact Hp|]. simpl. apply IH.
    + intros index Hin. apply Hall. by right.
    + apply Hall. by left.
Qed.

(** [allocate], for an event above every maximum. *)
Lemma allocate_keeps_ok (w w' : World) (e r : Event) :
  store_ok w → 0 ≤ ev_blockNumber e → ev_chainId e = chainId (mem w) →
  (∀ index, index ∈ indexes (mem w) → idx_blockNumber index < ev_blockNumber e) →
  allocate e w = Ok r w' → store_ok w'.
Proof.
  intros Hok Hbn Hchain Hall Halloc.
  destruct (allocate_Ok _ _ _ _ Halloc) as (table & Hmod & Htab & Hfresh & -> & ->).
  clear Halloc.
  set (n := length (indexes (mem w))) in *.
  set (row := mkIndex (db_nextId (db w)) (ev_chainId e) (ev_blockNumber e)
                      (Z.of_nat n) 1).
  assert (Hempty : table = []).
  { pose proof (ok_untracked _ Hok (Z.of_nat n)) as H. unfold rows in H.
    rewrite Htab in H. apply H. lia. }
  subst table.
  assert (Hold : ∀ k x, indexes (mem w) !! k = Some x →
            concatModelName (chainId (mem w)) (idx_index x)
            ≠ concatModelName (chainId (mem w)) (Z.of_nat n)).
  { intros k x Hx Hn%concatModelName_inj.
    rewrite (ok_index _ Hok _ _ Hx) in Hn. apply lookup_lt_Some in Hx.
    unfold n in Hn. lia. }
  assert (Hlook : ∀ k x, (indexes (mem w) ++ [row]) !! k = Some x →
            indexes (mem w) !! k = Some x ∨ k = n ∧ x = row).
  { intros k x Hx. apply lookup_app_Some in Hx as [Hx|[Hge Hx]]; [by left|].
    right. apply list_lookup_singleton_Some in Hx as [Hk <-].
    split; [unfold n; lia|done]. }
  assert (Hprev : ∀ k, (k ≤ n)%nat →
            previous_of (indexes (mem w) ++ [row]) k = previous_of (indexes (mem w)) k).
  { intros k Hk. by apply previous_at_app. }
  unfold allocated, set_db.
  constructor; cbn [mem db indexes chainId db_EventIndex db_nextId db_tables].
  - rewrite filter_app, (ok_coherent _ Hok). f_equal.
    rewrite filter_cons_True by done. done.
  - rewrite fmap_app. apply NoDup_app. split_and!.
    + apply Hok.
    + intros x Hx ->%list_elem_of_singleton.
      apply list_elem_of_fmap in Hx as (y & Hy & Hin).
      pose proof (ok_nextId _ Hok) as Hlt. rewrite Forall_forall in Hlt.
      specialize (Hlt _ Hin). simpl in Hy. lia.
    + apply NoDup_singleton.
  - apply Forall_app. split.
    + eapply Forall_impl; [apply (ok_nextId _ Hok)|]. intros x Hx. simpl in *. lia.
    + apply Forall_singleton. simpl. lia.
  - intros k x [Hx|[-> ->]]%Hlook; [by apply (ok_index _ Hok)|done].
  - intros k x [Hx|[-> ->]]%Hlook.
    + unfold table_of, table_name, rows. simpl.
      rewrite lookup_insert_ne by (symmetry; by eapply Hold).
      by apply (ok_size _ Hok k).
    + unfold table_of, table_name, rows. simpl.
      rewrite lookup_insert_eq. done.
  - intros k x e' Hx He'. pose proof (lookup_lt_Some _ _ _ Hx) as Hlt.
    rewrite length_app in Hlt. simpl in Hlt. rewrite Hprev by (unfold n; lia).
    apply Hlook in Hx as [Hx|[-> ->]].
    + unfold table_of, table_name, rows in He'. simpl in He'.
      rewrite lookup_insert_ne in He' by (symmetry; by eapply Hold).
      by apply (ok_range _ Hok).
    + unfold table_of, table_name, rows in He'. simpl in He'.
      rewrite lookup_insert_eq in He'. simpl in He'.
      apply list_elem_of_singleton in He' as ->. simpl.
      split; [|lia]. apply previous_of_below; [lia|done].
  - intros k x Hx. pose proof (lookup_lt_Some _ _ _ Hx) as Hlt.
    rewrite length_app in Hlt. simpl in Hlt. rewrite Hprev by (unfold n; lia).
    apply Hlook in Hx as [Hx|[-> ->]]; [by apply (ok_mono _ Hok)|].
    simpl. apply previous_of_below; [lia|done].
  - intros k x [Hx|[-> ->]]%Hlook.
    + unfold table_of, table_name, rows. simpl.
      rewrite lookup_insert_ne by (symmetry; by eapply Hold).
      by apply (ok_unique _ Hok k).
    + unfold table_of, table_name, rows. simpl.
      rewrite lookup_insert_eq. simpl. split; apply NoDup_singleton.
  - intros i Hi. rewrite length_app in Hi. simpl in Hi. unfold rows. simpl.
    rewrite lookup_insert_ne.
    + apply (ok_untracked _ Hok). lia.
    + intros Hn%concatModelName_inj. unfold n in Hn. lia.
Qed.

(** C5 and C3 rest on this: a successful [create] keeps the invariants. *)
Lemma create_keeps_ok (w w' : World) (e r : Event) :
  store_ok w → 0 ≤ ev_blockNumber e → ev_chainId e = chainId (mem w) →
  create e w = Ok r w' → store_ok w'.
Proof.
  intros Hok Hbn Hchain. unfold create.
  destruct (indexes (mem w)) as [|a l] eqn:Hidx.
  - apply allocate_keeps_ok; try done. rewrite Hidx. intros ? []%elem_of_nil.
  - rewrite <- Hidx.
    destruct (locate (-1) (ev_blockNumber e) (indexes (mem w)) 0)
      as [[k index]|] eqn:Hloc.
    + destruct (locate_Some _ _ _ _ _ _ Hloc) as (j & -> & Hj & Hrange).
      change (0 + j)%nat with j.
      apply insert_keeps_ok; try done.
      * unfold previous_of. lia.
      * left. lia.
    + rewrite locate_first_fit in Hloc by lia.
      pose proof (first_fit_None _ _ _ Hloc) as Hall.
      destruct (last (indexes (mem w))) as [latestIndex|] eqn:Hlast.
      2: { by apply allocate_keeps_ok. }
      destruct (idx_size latestIndex <? maxSizeForSingleTable (mem w)).
      2: { by apply allocate_keeps_ok. }
      apply insert_keeps_ok; try done.
      * rewrite last_lookup in Hlast. rewrite <- Hlast. f_equal.
        rewrite Hidx. simpl. lia.
      * apply previous_of_below; [lia|done].
      * right. rewrite Hidx. simpl. lia.
Qed.

Lemma length_filter_split {A} (P : A → Prop) `{∀ x, Decision (P x)} (l : list A) :
  length l = (length (filter P l) + length (filter (λ x, ¬ P x) l))%nat.
Proof.
  induction l as [|a l IH]; [done|].
  rewrite !filter_cons. destruct (decide (P a)), (decide (¬ P a)); simpl; try lia; tauto.
Qed.

Lemma replace_row_same (R : list EventIndex) (index : EventIndex) :
  NoDup (idx_id <$> R) → index ∈ R → replace_row index <$> R = R.
Proof.
  intros Hnd Hin. rewrite <- (list_fmap_id R) at 2.
  apply list_fmap_ext. intros i r Hr. unfold replace_row. simpl.
  destruct (idx_id r =? idx_id index) eqn:E; [|done].
  apply Z.eqb_eq in E. apply list_elem_of_lookup in Hin as [j Hj].
  assert (i = j) as ->; [|congruence].
  eapply NoDup_lookup; [exact Hnd| |].
  - rewrite list_lookup_fmap, Hr. reflexivity.
  - rewrite list_lookup_fmap, Hj. simpl. by rewrite E.
Qed.

(** The store after the matching rows of the table at place [k] are
    deleted and its size is decreased by their number. *)
Lemma destroy_keeps_ok (w : World) (c : FindOptions) (k : nat) index table :
  store_ok w → indexes (mem w) !! k = Some index →
  db_tables (db w) !! table_name w index = Some table →
  let n := Z.of_nat (length (filter (λ e, matches c e = true) table)) in
  store_ok
    (mkWorld
       (mkEvents (chainId (mem w)) (maxSizeForSingleTable (mem w))
                 (initializing (mem w)) (models (mem w))
                 (<[k := shrink n index]> (indexes (mem w))))
       (mkDB (db_EventIndex (EventIndex_save (shrink n index) (db w)))
             (db_nextId (db w))
             (<[table_name w index := filter (λ e, matches c e ≠ true) table]>
                (db_tables (db w))))).
Proof.
  intros Hok Hk Htab n.
  set (kept := filter (λ e, matches c e ≠ true) table).
  assert (Htable : table_of w index = table).
  { unfold table_of, rows. by rewrite Htab. }
  assert (Hprev' : ∀ j, previous_of (<[k := shrink n index]> (indexes (mem w))) j
                        = previous_of (indexes (mem w)) j).
  { intros j. by apply (previous_at_insert_same _ _ _ _ _ index). }
  assert (Hrows : ∀ k' x, indexes (mem w) !! k' = Some x → k' ≠ k →
            rows (mkDB (db_EventIndex (EventIndex_save (shrink n index) (db w)))
                       (db_nextId (db w))
                       (<[table_name w index := kept]> (db_tables (db w))))
                 (table_name w x)
            = table_of w x).
  { intros k' x Hx Hne. unfold rows, table_of, rows. simpl.
    rewrite lookup_insert_ne; [done|].
    intros Hn. apply Hne. symmetry. by eapply table_name_inj. }
  assert (Hsub : kept `sublist_of` table) by apply sublist_filter.
  constructor; cbn [mem db indexes chainId db_EventIndex db_nextId db_tables].
  - rewrite EventIndex_save_rows.
    rewrite <- (ok_coherent _ Hok) in Hk |- *.
    apply (save_coherent _ _ _ index); [apply Hok|done|done|done].
  - rewrite EventIndex_save_rows, replace_row_ids. apply Hok.
  - rewrite EventIndex_save_rows. apply Forall_fmap.
    eapply Forall_impl; [apply (ok_nextId _ Hok)|].
    intros x Hx. simpl. rewrite replace_row_id. done.
  - intros k' x [(-> & <- & Hlt)|[Hne Hx]]%list_lookup_insert_Some; simpl.
    + by apply (ok_index _ Hok).
    + by apply (ok_index _ Hok).
  - intros k' x [(-> & <- & Hlt)|[Hne Hx]]%list_lookup_insert_Some.
    + unfold table_of, table_name, rows. simpl.
      rewrite lookup_insert_eq. simpl.
      rewrite (ok_size _ Hok _ _ Hk), Htable.
      rewrite (length_filter_split (λ e, matches c e = true) table).
      fold kept. unfold n. lia.
    + change (table_of _ x) with
        (rows (mkDB (db_EventIndex (EventIndex_save (shrink n index) (db w)))
                    (db_nextId (db w))
                    (<[table_name w index := kept]> (db_tables (db w))))
              (table_name w x)).
      rewrite (Hrows k') by done. by apply (ok_size _ Hok k').
  - intros k' x e' Hx He'. rewrite Hprev'.
    apply list_lookup_insert_Some in Hx as [(-> & <- & Hlt)|[Hne Hx]].
    + unfold table_of, table_name, rows in He'. simpl in He'.
      rewrite lookup_insert_eq in He'. simpl in He'.
      apply list_elem_of_filter in He' as [_ He']. rewrite <- Htable in He'.
      simpl. by apply (ok_range _ Hok).
    + change (table_of _ x) with
        (rows (mkDB (db_EventIndex (EventIndex_save (shrink n index) (db w)))
                    (db_nextId (db w))
                    (<[table_name w index := kept]> (db_tables (db w))))
              (table_name w x)) in He'.
      rewrite (Hrows k') in He' by done. by apply (ok_range _ Hok).
  - intros k' x Hx. rewrite Hprev'.
    apply list_lookup_insert_Some in Hx as [(-> & <- & Hlt)|[Hne Hx]].
    + simpl. by apply (ok_mono _ Hok).
    + by apply (ok_mono _ Hok).
  - intros k' x [(-> & <- & Hlt)|[Hne Hx]]%list_lookup_insert_Some.
    + unfold table_of, table_name, rows. simpl.
      rewrite lookup_insert_eq. simpl.
      destruct (ok_unique _ Hok _ _ Hk) as [H1 H2]. rewrite Htable in H1, H2.
      split; (eapply sublist_NoDup; [eassumption|by apply fmap_sublist]).
    + change (table_of _ x) with
        (rows (mkDB (db_EventIndex (EventIndex_save (shrink n index) (db w)))
                    (db_nextId (db w))
                    (<[table_name w index := kept]> (db_tables (db w))))
              (table_name w x)).
      rewrite (Hrows k') by done. by apply (ok_unique _ Hok k').
  - intros i Hi. rewrite length_insert in Hi. unfold rows. simpl.
    rewrite lookup_insert_ne; [by apply (ok_untracked _ Hok)|].
    unfold table_name. intros Hn%concatModelName_inj.
    rewrite (ok_index _ Hok _ _ Hk) in Hn. apply lookup_lt_Some in Hk. lia.
Qed.

Lemma shrink_0 (index : EventIndex) : shrink 0 index = index.
Proof. destruct index. unfold shrink. simpl. f_equal. lia. Qed.

Lemma destroyOne_keeps_ok (w w' : World) (c : FindOptions) (b : option Z) (n : Z) :
  store_ok w → destroyOne c b w = Ok n w' → store_ok w'.
Proof.
  intros Hok Hd.
  destruct (destroyOne_Ok _ _ _ _ _ Hd) as (blockNumber & Hb & H). clear Hd.
  destruct (locate (-1) blockNumber (indexes (mem w)) 0) as [[k index]|] eqn:Hloc;
    [|by destruct H as [_ ->]].
  destruct (locate_Some _ _ _ _ _ _ Hloc) as (j & -> & Hj & _).
  change (0 + j)%nat with j in *.
  destruct H as (table & Htab & -> & H).
  pose proof (destroy_keeps_ok w c j index table Hok Hj Htab) as Hcore.
  cbv zeta in *.
  destruct (0 <? Z.of_nat (length (filter (λ e, matches c e = true) table))) eqn:Hpos.
  - by subst w'.
  - assert (Hz : Z.of_nat (length (filter (λ e, matches c e = true) table)) = 0).
    { apply Z.ltb_ge in Hpos. lia. }
    rewrite Hz, shrink_0 in Hcore.
    rewrite list_insert_id in Hcore by done.
    rewrite EventIndex_save_rows, replace_row_same in Hcore.
    + subst w'. unfold set_db. by destruct (mem w).
    + apply Hok.
    + rewrite <- (ok_coherent _ Hok) in Hj.
      apply list_elem_of_lookup_2, list_elem_of_filter in Hj. tauto.
Qed.

(** Every successful write keeps the invariants. *)
Lemma written_keeps_ok (w w' : World) : store_ok w → written w w' → store_ok w'.
Proof.
  intros Hok [e r Hbn Hc Hcreate|c b n Hd].
  - by eapply create_keeps_ok.
  - by eapply destroyOne_keeps_ok.
Qed.

End EventStoreInvariant.

(** * The event store: [init] *)

Section EventStoreInit.
Import EventStore.

Lemma forEach_app {S A} (l1 l2 : list A) (f : A → M S unit) (s : S) :
  forEach (l1 ++ l2) f s = (forEach l1 f ;; forEach l2 f)%js s.
Proof.
  revert s. induction l1 as [|a l1 IH]; intros s; simpl; [done|].
  unfold bind in *. destruct (f a s) as [[] s'|e s']; [|done]. apply IH.
Qed.

Lemma forEach_fmap {S A B} (g : A → B) (l : list A) (f : B → M S unit) (s : S) :
  forEach (g <$> l) f s = forEach l (λ x, f (g x)) s.
Proof.
  revert s. induction l as [|a l IH]; intros s; simpl; [done|].
  unfold bind. destruct (f (g a) s) as [[] s'|e s']; [|done]. apply IH.
Qed.

Lemma synced_nil (w : World) : synced [] w w.
Proof.
  constructor; try done.
  - intros name. split; [by left|]. intros [H|(i & []%elem_of_nil & _)]. done.
  - intros name _ _ (i & []%elem_of_nil & _).
Qed.

Lemma syncModel_synced (a : Z) (w : World) :
  ∃ w', syncModel a w = Ok tt w' ∧ synced [a] w w'.
Proof.
  unfold syncModel.
  destruct (decide (concatModelName (chainId (mem w)) a ∈ models (mem w))) as [Hin|Hin].
  - exists w. split; [done|]. constructor; try done.
    + intros name. split; [by left|].
      intros [H|(i & ->%list_elem_of_singleton & ->)]; done.
    + intros name _ Hn (i & ->%list_elem_of_singleton & ->). done.
  - eexists. split; [done|]. constructor; cbn [mem db chainId models indexes]; try done.
    + intros name. rewrite elem_of_union, elem_of_singleton. split.
      * intros [->|H]; [right; exists a; split; [by left|done]|by left].
      * intros [H|(i & ->%list_elem_of_singleton & ->)]; [by right|by left].
    + unfold sync_table. by destruct (db_tables (db w) !! _).
    + unfold sync_table. by destruct (db_tables (db w) !! _).
    + intros name table Hl. unfold sync_table.
      destruct (db_tables (db w) !! concatModelName _ a) eqn:E; [done|]. simpl.
      rewrite lookup_insert_ne; [done|]. intros <-. congruence.
    + intros name Hl _ (i & ->%list_elem_of_singleton & ->).
      unfold sync_table. rewrite Hl. simpl. by rewrite lookup_insert_eq.
    + intros name Hl [H|H].
      * unfold sync_table.
        destruct (db_tables (db w) !! concatModelName _ a) eqn:E; [done|]. simpl.
        rewrite lookup_insert_ne; [done|]. intros <-. done.
      * unfold sync_table.
        destruct (db_tables (db w) !! concatModelName _ a) eqn:E; [done|]. simpl.
        rewrite lookup_insert_ne; [done|]. intros <-. apply H.
        exists a. split; [by left|done].
Qed.

Lemma synced_cons (a : Z) (l : list Z) (w w1 w' : World) :
  synced [a] w w1 → synced l w1 w' → synced (a :: l) w w'.
Proof.
  intros H1 H2.
  pose proof (synced_chainId _ _ _ H1) as Hc.
  constructor.
  - by rewrite (synced_chainId _ _ _ H2).
  - by rewrite (synced_maxSize _ _ _ H2), (synced_maxSize _ _ _ H1).
  - by rewrite (synced_initializing _ _ _ H2), (synced_initializing _ _ _ H1).
  - by rewrite (synced_indexes _ _ _ H2), (synced_indexes _ _ _ H1).
  - intros name. rewrite (synced_models _ _ _ H2), (synced_models _ _ _ H1), Hc.
    split.
    + intros [[H|(i & ->%list_elem_of_singleton & ->)]|(i & Hi & ->)].
      * by left.
      * right. exists a. split; [by left|done].
      * right. exists i. split; [by right|done].
    + intros [H|(i & [->|Hi]%elem_of_cons & ->)].
      * by left; left.
      * left; right. exists a. split; [by left|done].
      * right. exists i. done.
  - by rewrite (synced_rows _ _ _ H2), (synced_rows _ _ _ H1).
  - by rewrite (synced_nextId _ _ _ H2), (synced_nextId _ _ _ H1).
  - intros name table Hl. apply (synced_kept _ _ _ H2), (synced_kept _ _ _ H1), Hl.
  - intros name Hl Hn (i & Hi & ->).
    destruct (decide (concatModelName (chainId (mem w)) i
                      = concatModelName (chainId (mem w)) a)) as [Heq|Hne].
    + apply (synced_kept _ _ _ H2). apply (synced_created _ _ _ H1); [done|done|].
      exists a. split; [by left|done].
    + apply elem_of_cons in Hi as [->|Hi]; [done|].
      apply (synced_created _ _ _ H2).
      * apply (synced_absent _ _ _ H1); [done|]. right.
        intros (j & ->%list_elem_of_singleton & Hj). done.
      * rewrite (synced_models _ _ _ H1).
        intros [H|(j & ->%list_elem_of_singleton & Hj)]; done.
      * exists i. rewrite Hc. done.
  - intros name Hl H. apply (synced_absent _ _ _ H2).
    + apply (synced_absent _ _ _ H1); [done|]. destruct H as [H|H]; [by left|].
      right. intros (j & ->%list_elem_of_singleton & Hj). apply H.
      exists a. split; [by left|done].
    + destruct H as [H|H].
      * left. rewrite (synced_models _ _ _ H1). by left.
      * right. rewrite Hc. intros (j & Hj & ->). apply H.
        exists j. split; [by right|done].
Qed.

Lemma forEach_syncModel (l : list Z) (w : World) :
  ∃ w', forEach l syncModel w = Ok tt w' ∧ synced l w w'.
Proof.
  revert w. induction l as [|a l IH]; intros w.
  - exists w. split; [done|apply synced_nil].
  - destruct (syncModel_synced a w) as (w1 & Hs & H1).
    destruct (IH w1) as (w' & Hf & H2).
    exists w'. split; [|by eapply synced_cons].
    simpl. unfold bind. by rewrite Hs.
Qed.

Lemma init_synced (w : World) :
  initializing (mem w) = false →
  ∃ w', init w = Ok tt w'
        ∧ synced (init_places (EventIndex_findAll (chainId (mem w)) (db w)))
                 (loading w) w'.
Proof.
  intros Hi. unfold init. rewrite Hi.
  set (loaded := EventIndex_findAll (chainId (mem w)) (db w)).
  destruct (forEach_syncModel (init_places loaded) (loading w)) as (w' & Hf & Hs).
  exists w'. split; [|done].
  unfold init_places in Hf. rewrite forEach_app in Hf.
  unfold bind in Hf |- *. rewrite forEach_fmap in Hf.
  exact Hf.
Qed.

End EventStoreInit.

(** * The event store: what no call changes *)

Section EventStoreFrame.
Import EventStore.

Lemma model_create_frame name e w :
  same_instance w (outcome_state (model_create name e w)).
Proof.
  unfold model_create. repeat case_match; simpl; done.
Qed.

Lemma insert_frame e k index w :
  same_instance w (outcome_state (insert e k index w)).
Proof.
  unfold insert, bind, getModel, modify, model_create.
  repeat case_match; simplify_eq/=; done.
Qed.

Lemma allocate_frame e w : same_instance w (outcome_state (allocate e w)).
Proof.
  rewrite allocate_unfold. unfold bind, getModel, model_create.
  repeat case_match; simplify_eq/=; done.
Qed.

Lemma create_frame e w : same_instance w (outcome_state (create e w)).
Proof.
  unfold create. repeat case_match; auto using insert_frame, allocate_frame.
Qed.

Lemma destroyOne_frame c b w : same_instance w (outcome_state (destroyOne c b w)).
Proof.
  unfold destroyOne, bind, getModel, model_destroy, modify, ret.
  repeat case_match; simplify_eq/=; done.
Qed.

Lemma findOne_loop_state c b previous idxs w :
  outcome_state (findOne_loop c b previous idxs w) = w.
Proof.
  revert previous. induction idxs as [|a l IH]; intros previous; simpl; [done|].
  destruct (match b with
            | Some (Some n) => (previous <? n) && (n <=? idx_blockNumber a)
            | Some None => false
            | None => true
            end); [|apply IH].
  unfold bind, getModel, get.
  destruct (decide (_ ∈ models (mem w))); [|done].
  destruct (model_findOne c _); [done|apply IH].
Qed.

Lemma findOne_state c b w : outcome_state (findOne c b w) = w.
Proof. apply findOne_loop_state. Qed.

Lemma init_frame w :
  initializing (mem w) = true → outcome_state (init w) = w.
Proof. intros H. unfold init. by rewrite H. Qed.

(** Once [init] has run, the models are those it synced. *)
Lemma calls_keep_models (w w' : World) :
  initializing (mem w) = true → rtc call w w' →
  initializing (mem w') = true ∧ models (mem w') = models (mem w)
  ∧ chainId (mem w') = chainId (mem w).
Proof.
  intros Hi Hr. induction Hr as [w|w w1 w2 Hstep Hr IH]; [done|].
  assert (H1 : same_instance w w1).
  { destruct Hstep as [<-|e <-|c b <-|c b <-].
    - rewrite init_frame by done. by repeat split.
    - apply create_frame.
    - apply destroyOne_frame.
    - rewrite findOne_state. by repeat split. }
  destruct H1 as (Hc & _ & Hi1 & Hm).
  destruct IH as (? & ? & ?); [congruence|].
  split_and!; congruence.
Qed.

End EventStoreFrame.

(** * The event store: the properties of the specification *)

Section EventStoreClaims.
Import EventStore.

#[local] Instance id_le_total : Total id_le.
Proof. intros a b. unfold id_le. lia. Qed.

Lemma elem_of_init_places (loaded : list EventIndex) (i : Z) :
  i ∈ init_places loaded ↔
  (∃ index, index ∈ loaded ∧ idx_index index = i) ∨ runway_start loaded ≤ i ≤ 29.
Proof.
  unfold init_places. rewrite elem_of_app, list_elem_of_fmap, elem_of_seqZ.
  split; intros [H|H]; [left|right; lia|left|right; lia].
  - destruct H as (index & -> & Hin). by exists index.
  - destruct H as (index & Hin & <-). by exists index.
Qed.

Lemma init_models (w w' : World) :
  initializing (mem w) = false → models (mem w) = ∅ → init w = Ok tt w' →
  let loaded := EventIndex_findAll (chainId (mem w)) (db w) in
  synced (init_places loaded) (loading w) w'
  ∧ ∀ name, name ∈ models (mem w') ↔
            ∃ i, i ∈ init_places loaded ∧ name = concatModelName (chainId (mem w)) i.
Proof.
  intros Hi Hm Hinit. destruct (init_synced w Hi) as (w'' & Hinit' & Hs).
  assert (w'' = w') as -> by congruence.
  split; [done|].
  intros name. rewrite (synced_models _ _ _ Hs). simpl. rewrite Hm.
  split; [intros [[]%elem_of_empty|H]; done|by right].
Qed.

(** C2, as the code has it.  [init] on a new instance loads the rows of
    the chain ordered by id, and syncs a model, creating its table when
    missing, for the place of every loaded row and for every place from
    the [index] of the last loaded row (0 when there is none) up to 29:
    the runway ends at place 29, not 30 places past the last row. *)
Theorem init_syncs_loaded_and_up_to_29 (w : World) :
  initializing (mem w) = false → models (mem w) = ∅ →
  ∃ w' loaded,
    init w = Ok tt w'
    ∧ indexes (mem w') = loaded
    ∧ loaded ≡ₚ filter (λ r, idx_chainId r = chainId (mem w)) (db_EventIndex (db w))
    ∧ Sorted id_le loaded
    ∧ (∀ name, name ∈ models (mem w') ↔
         ∃ i, name = concatModelName (chainId (mem w)) i
              ∧ ((∃ index, index ∈ loaded ∧ idx_index index = i)
                 ∨ runway_start loaded ≤ i ≤ 29))
    ∧ (∀ name, name ∈ models (mem w') → is_Some (db_tables (db w') !! name)).
Proof.
  intros Hi Hm. destruct (init_synced w Hi) as (w' & Hinit & _).
  destruct (init_models w w' Hi Hm Hinit) as [Hs Hmodels].
  exists w', (EventIndex_findAll (chainId (mem w)) (db w)).
  split_and!.
  - done.
  - by rewrite (synced_indexes _ _ _ Hs).
  - apply merge_sort_Permutation.
  - apply Sorted_merge_sort. apply _.
  - intros name. rewrite Hmodels. split.
    + intros (i & Hin%elem_of_init_places & ->). by exists i.
    + intros (i & -> & Hin%elem_of_init_places). by exists i.
  - intros name Hin. pose proof Hin as Hin'. apply Hmodels in Hin'.
    destruct (db_tables (db w) !! name) as [table|] eqn:E.
    + exists table. by apply (synced_kept _ _ _ Hs).
    + exists []. apply (synced_created _ _ _ Hs); simpl; [done| |done].
      rewrite Hm. apply not_elem_of_empty.
Qed.

Lemma init_syncs_loaded_and_up_to_29_witness :
  ∃ w' loaded,
    init (fresh 100 1000000) = Ok tt w'
    ∧ indexes (mem w') = loaded
    ∧ loaded ≡ₚ filter (λ r, idx_chainId r = chainId (mem (fresh 100 1000000)))
                       (db_EventIndex (db (fresh 100 1000000)))
    ∧ Sorted id_le loaded
    ∧ (∀ name, name ∈ models (mem w') ↔
         ∃ i, name = concatModelName (chainId (mem (fresh 100 1000000))) i
              ∧ ((∃ index, index ∈ loaded ∧ idx_index index = i)
                 ∨ runway_start loaded ≤ i ≤ 29))
    ∧ (∀ name, name ∈ models (mem w') → is_Some (db_tables (db w') !! name)).
Proof.
  apply (init_syncs_loaded_and_up_to_29 (fresh 100 1000000)); reflexivity.
Defined.

(** C2 as stated fails.  On a database whose last sub-table is 5, a
    new instance ends [init] with no table for place 35 (nor for any
    place from 30 on), although 35 = 5 + 30. *)
Lemma init_runway_stops_at_29 :
  runway_start (EventIndex_findAll 100 (db restarted)) = 5
  ∧ ¬ (∀ i, 0 ≤ i ≤ 5 + 30 →
            is_Some (db_tables (db (run init restarted)) !! concatModelName 100 i)).
Proof.
  split; [by vm_compute|].
  intros H. specialize (H 35 ltac:(lia)).
  vm_compute in H. by destruct H.
Qed.

(** ** Routing of [create] *)

Lemma first_fit_intro (bn : Z) (idxs : list EventIndex) (k0 k : nat) index :
  idxs !! k = Some index → bn ≤ idx_blockNumber index →
  (∀ j index', (j < k)%nat → idxs !! j = Some index' → idx_blockNumber index' < bn) →
  first_fit bn idxs k0 = Some ((k0 + k)%nat, index).
Proof.
  revert k0 k. induction idxs as [|a l IH]; intros k0 k Hk Hle Hlt; [done|].
  simpl. destruct k as [|k]; simpl in Hk.
  - injection Hk as ->.
    replace (bn <=? idx_blockNumber index) with true by (symmetry; by apply Z.leb_le).
    do 2 f_equal. lia.
  - pose proof (Hlt O a ltac:(lia) eq_refl) as Ha.
    replace (bn <=? idx_blockNumber a) with false by (symmetry; apply Z.leb_gt; lia).
    rewrite (IH (S k0) k); [do 2 f_equal; lia|done|done|].
    intros j index' Hj Hl. apply (Hlt (S j)); [lia|done].
Qed.

Lemma first_fit_None_intro (bn : Z) (idxs : list EventIndex) (k0 : nat) :
  (∀ index, index ∈ idxs → idx_blockNumber index < bn) →
  first_fit bn idxs k0 = None.
Proof.
  revert k0. induction idxs as [|a l IH]; intros k0 Hall; [done|].
  simpl. pose proof (Hall a ltac:(by left)) as Ha.
  replace (bn <=? idx_blockNumber a) with false by (symmetry; apply Z.leb_gt; lia).
  apply IH. intros index Hin. apply Hall. by right.
Qed.

Lemma create_allocates (e : Event) (w : World) :
  allocates e w → create e w = allocate e w.
Proof.
  unfold allocates, create. intros [H|(Hloc & latest & Hlast & Hfull)].
  - by rewrite H.
  - destruct (indexes (mem w)) as [|a l] eqn:E; [done|].
    rewrite Hloc, Hlast.
    replace (idx_size latest <? maxSizeForSingleTable (mem w)) with false
      by (symmetry; apply Z.ltb_ge; lia).
    done.
Qed.

Lemma allocate_indexes (e : Event) (w : World) :
  indexes (mem (outcome_state (allocate e w))) = indexes (mem (allocated e w))
  ∧ db_EventIndex (db (outcome_state (allocate e w)))
    = db_EventIndex (db (allocated e w)).
Proof.
  rewrite allocate_unfold. unfold bind, getModel, model_create.
  repeat case_match; simplify_eq/=; done.
Qed.



(** ** The invariants on a store that starts empty *)

Lemma started_ok (c maxSize : Z) : store_ok (run init (fresh c maxSize)).
Proof.
  destruct (init_synced (fresh c maxSize) eq_refl) as (w' & Hinit & Hs).
  unfold run. rewrite Hinit. simpl.
  assert (Hidx : indexes (mem w') = []) by (by rewrite (synced_indexes _ _ _ Hs)).
  assert (Hrows : db_EventIndex (db w') = []) by (by rewrite (synced_rows _ _ _ Hs)).
  constructor; rewrite ?Hidx, ?Hrows; try done.
  - constructor.
  - intros i _. unfold rows.
    destruct (db_tables (db w') !! concatModelName (chainId (mem w')) i)
      as [table|] eqn:E; [|done].
    destruct (decide (Exists (λ j, concatModelName (chainId (mem w')) i
                                   = concatModelName c j)
                             (init_places (EventIndex_findAll c (db (fresh c maxSize))))))
      as [Hj|Hj]; rewrite Exists_exists in Hj.
    + rewrite (synced_created _ _ _ Hs) in E; [by injection E as <-|done| |done].
      simpl. apply not_elem_of_empty.
    + rewrite (synced_absent _ _ _ Hs) in E; [done|done|by right].
Qed.

Lemma increasing_maxima (w : World) (k k' : nat) index index' :
  store_ok w → (k < k')%nat →
  indexes (mem w) !! k = Some index → indexes (mem w) !! k' = Some index' →
  idx_blockNumber index < idx_blockNumber index'.
Proof.
  intros Hok Hlt Hk. revert index'.
  induction k' as [|j IH]; intros index' Hk'; [lia|].
  pose proof (ok_mono _ Hok _ _ Hk') as Hm. unfold previous_of in Hm.
  destruct (indexes (mem w) !! j) as [ij|] eqn:Hj.
  2: { apply lookup_ge_None in Hj. apply lookup_lt_Some in Hk'. lia. }
  rewrite (previous_at_lookup _ _ _ _ Hj) in Hm.
  destruct (decide (k = j)) as [->|Hne].
  - by simplify_eq.
  - specialize (IH ltac:(lia) _ eq_refl). lia.
Qed.

Lemma foldl_sum_ext {A} (f g : A → Z) (l : list A) (acc : Z) :
  (∀ x, x ∈ l → f x = g x) →
  foldl (λ p c, p + f c) acc l = foldl (λ p c, p + g c) acc l.
Proof.
  revert acc. induction l as [|a l IH]; intros acc H; [done|].
  simpl. rewrite (H a) by (by left). apply IH. intros x Hx. apply H. by right.
Qed.

Lemma ok_totals (w : World) : store_ok w → size_total w = row_total w.
Proof.
  intros Hok. unfold size_total, row_total. rewrite (ok_coherent _ Hok).
  apply foldl_sum_ext. intros x [k Hk]%list_elem_of_lookup.
  by apply (ok_size _ Hok k).
Qed.



Lemma writes_keep_ok (w w' : World) : store_ok w → rtc written w w' → store_ok w'.
Proof.
  intros Hok Hr. induction Hr as [w|w w1 w2 Hstep Hr IH]; [done|].
  apply IH. by eapply written_keeps_ok.
Qed.

(** C3, as the code has it.  After any sequence of successful calls of
    [create] and [destroyOne] on a store that satisfies the invariants,
    the size of every index is the number of rows of its sub-table, and
    its [blockNumber_max] is at least the block number of every row:
    [destroyOne] decreases the size and leaves the maximum as it is. *)
Theorem sizes_exact_maxima_bound (w w' : World) :
  store_ok w → rtc written w w' →
  ∀ k index,
    indexes (mem w') !! k = Some index →
    idx_size index = Z.of_nat (length (table_of w' index))
    ∧ ∀ e, e ∈ table_of w' index → ev_blockNumber e ≤ idx_blockNumber index.
Proof.
  intros Hok Hr k index Hk. pose proof (writes_keep_ok _ _ Hok Hr) as Hok'.
  split; [by apply (ok_size _ Hok' k)|].
  intros e He. by apply (ok_range _ Hok' k).
Qed.

Lemma destroyed_written :
  rtc written (started 1000000) afterDestroy.
Proof.
  eapply rtc_l;
    [apply (written_create _ _ (eventAt 10) (eventAt 10));
     [simpl; lia|reflexivity|vm_compute; reflexivity]|].
  eapply rtc_l;
    [apply (written_create _ _ (eventAt 20) (eventAt 20));
     [simpl; lia|reflexivity|vm_compute; reflexivity]|].
  eapply rtc_l; [|apply rtc_refl].
  apply (written_destroy _ _ (byId "20" 20) None 1). vm_compute. reflexivity.
Defined.

Lemma sizes_exact_maxima_bound_witness :
  idx_size (mkIndex 1 100 20 0 1)
  = Z.of_nat (length (table_of afterDestroy (mkIndex 1 100 20 0 1)))
  ∧ ∀ e, e ∈ table_of afterDestroy (mkIndex 1 100 20 0 1) →
         ev_blockNumber e ≤ idx_blockNumber (mkIndex 1 100 20 0 1).
Proof.
  apply (sizes_exact_maxima_bound (started 1000000) afterDestroy) with (k := O).
  - apply started_ok.
  - apply destroyed_written.
  - vm_compute. reflexivity.
Defined.

(** C3 as stated fails.  Two events, at blocks 10 and 20, are created
    in one sub-table and the one at block 20 is destroyed: the size is
    1, the number of rows, and [blockNumber_max] is still 20 while the
    largest block number in the sub-table is 10. *)
Lemma destroyOne_leaves_stale_maximum :
  destroyOne (byId "20" 20) None twoEvents = Ok 1 afterDestroy
  ∧ indexes (mem afterDestroy) = [mkIndex 1 100 20 0 1]
  ∧ table_of afterDestroy (mkIndex 1 100 20 0 1) = [eventAt 10]
  ∧ Some (idx_blockNumber (mkIndex 1 100 20 0 1))
    ≠ max_blockNumber (table_of afterDestroy (mkIndex 1 100 20 0 1)).
Proof. vm_compute. split_and!; try reflexivity. discriminate. Qed.

(** ** Past the runway *)

Lemma allocate_past_runway (w0 w1 w : World) (e : Event) :
  initializing (mem w0) = false → models (mem w0) = ∅ →
  init w0 = Ok tt w1 → rtc call w1 w →
  allocates e w →
  29 < Z.of_nat (length (indexes (mem w))) →
  (∀ index, index ∈ indexes (mem w1) →
            idx_index index < Z.of_nat (length (indexes (mem w)))) →
  create e w = Throw (JsError "unknown model") (allocated e w).
Proof.
  intros Hi Hm Hinit Hr Ha Hn Hloaded.
  destruct (init_models _ _ Hi Hm Hinit) as [Hs Hmodels].
  destruct (calls_keep_models w1 w) as (_ & Hsame & Hc); [|done|].
  { by rewrite (synced_initializing _ _ _ Hs). }
  rewrite (create_allocates _ _ Ha). apply allocate_unknown_model.
  rewrite Hsame, Hmodels, Hc, (synced_chainId _ _ _ Hs). simpl.
  intros (i & Hin & Heq). apply concatModelName_inj in Heq. subst i.
  apply elem_of_init_places in Hin as [(index & Hin & Hidx)|Hrun]; [|lia].
  specialize (Hloaded index). rewrite (synced_indexes _ _ _ Hs) in Hloaded.
  specialize (Hloaded Hin). lia.
Qed.

(** C10.  After [init] on a new instance, whatever calls follow, a
    [create] that has to allocate a sub-table whose place is above 29 and
    above the [index] of every row loaded by [init] throws
    'unknown model'; when it throws, the new row is already in table
    [EventIndex] and at the end of [indexes].  In particular a store
    that started empty fails on the allocation of its 31st sub-table. *)
Theorem create_past_runway_throws :
  (∀ (w0 w1 w : World) (e : Event),
     initializing (mem w0) = false → models (mem w0) = ∅ →
     init w0 = Ok tt w1 → rtc call w1 w →
     allocates e w →
     29 < Z.of_nat (length (indexes (mem w))) →
     (∀ index, index ∈ indexes (mem w1) →
               idx_index index < Z.of_nat (length (indexes (mem w)))) →
     ∃ w', create e w = Throw (JsError "unknown model") w'
           ∧ db_EventIndex (db w')
             = db_EventIndex (db w)
               ++ [mkIndex (db_nextId (db w)) (ev_chainId e) (ev_blockNumber e)
                           (Z.of_nat (length (indexes (mem w)))) 1]
           ∧ indexes (mem w')
             = indexes (mem w)
               ++ [mkIndex (db_nextId (db w)) (ev_chainId e) (ev_blockNumber e)
                           (Z.of_nat (length (indexes (mem w)))) 1])
  ∧ (∀ (c maxSize : Z) (w : World) (e : Event),
       rtc call (run init (fresh c maxSize)) w →
       allocates e w →
       (30 ≤ length (indexes (mem w)))%nat →
       ∃ w', create e w = Throw (JsError "unknown model") w').
Proof.
  split.
  - intros w0 w1 w e Hi Hm Hinit Hr Ha Hn Hloaded.
    exists (allocated e w). split; [|done].
    by eapply allocate_past_runway.
  - intros c maxSize w e Hr Ha Hn.
    exists (allocated e w).
    destruct (init_synced (fresh c maxSize) eq_refl) as (w1 & Hinit & Hs).
    apply (allocate_past_runway (fresh c maxSize) w1); try done.
    + unfold run in Hr. by rewrite Hinit in Hr.
    + lia.
    + rewrite (synced_indexes _ _ _ Hs). simpl. intros index []%elem_of_nil.
Qed.

Lemma creates_are_calls (w : World) (l : list Z) :
  rtc call w (foldl (λ w n, run (create (eventAt n)) w) w l).
Proof.
  revert w. induction l as [|n l IH]; intros w; [apply rtc_refl|].
  simpl. eapply rtc_l; [|apply IH]. by apply (call_create _ _ (eventAt n)).
Defined.

Lemma create_past_runway_throws_witness :
  ∃ w', create (eventAt 30) thirtyTables = Throw (JsError "unknown model") w'
        ∧ db_EventIndex (db w')
          = db_EventIndex (db thirtyTables)
            ++ [mkIndex (db_nextId (db thirtyTables)) (ev_chainId (eventAt 30))
                        (ev_blockNumber (eventAt 30))
                        (Z.of_nat (length (indexes (mem thirtyTables)))) 1]
        ∧ indexes (mem w')
          = indexes (mem thirtyTables)
            ++ [mkIndex (db_nextId (db thirtyTables)) (ev_chainId (eventAt 30))
                        (ev_blockNumber (eventAt 30))
                        (Z.of_nat (length (indexes (mem thirtyTables)))) 1].
Proof.
  apply (proj1 create_past_runway_throws (fresh 100 1) (started 1) thirtyTables
               (eventAt 30)).
  - reflexivity.
  - reflexivity.
  - vm_compute. reflexivity.
  - apply creates_are_calls.
  - right. split; [vm_compute; reflexivity|].
    exists (mkIndex 30 100 29 29 1). split; [vm_compute; reflexivity|].
    vm_compute. discriminate.
  - vm_compute. reflexivity.
  - intros index Hin. vm_compute in Hin. by apply elem_of_nil in Hin.
Defined.

End EventStoreClaims.

(** * The order on positions and lists sorted by position *)

Section PositionOrder.
Import EventStore.

Lemma pos_ltb_lt (a b : EventPosition) :
  pos_ltb a b = true ↔
  pos_blockNumber a < pos_blockNumber b
  ∨ (pos_blockNumber a = pos_blockNumber b
     ∧ (pos_transactionIndex a < pos_transactionIndex b
        ∨ (pos_transactionIndex a = pos_transactionIndex b
           ∧ pos_logIndex a < pos_logIndex b))).
Proof.
  unfold pos_ltb.
  rewrite !orb_true_iff, !andb_true_iff, !Z.ltb_lt, !Z.eqb_eq. tauto.
Qed.

Lemma pos_leb_le (a b : EventPosition) :
  pos_leb a b = true ↔
  pos_blockNumber a < pos_blockNumber b
  ∨ (pos_blockNumber a = pos_blockNumber b
     ∧ (pos_transactionIndex a < pos_transactionIndex b
        ∨ (pos_transactionIndex a = pos_transactionIndex b
           ∧ pos_logIndex a ≤ pos_logIndex b))).
Proof.
  unfold pos_leb.
  rewrite !orb_true_iff, !andb_true_iff, !Z.ltb_lt, !Z.eqb_eq, !Z.leb_le. tauto.
Qed.

Lemma pos_eq (a b : EventPosition) :
  a = b ↔ pos_blockNumber a = pos_blockNumber b
          ∧ pos_transactionIndex a = pos_transactionIndex b
          ∧ pos_logIndex a = pos_logIndex b.
Proof.
  split; [by intros ->|]. destruct a, b. simpl. intros (-> & -> & ->). done.
Qed.

Lemma pos_leb_ltb (a b : EventPosition) :
  pos_leb a b = true ↔ pos_ltb a b = true ∨ a = b.
Proof. rewrite pos_leb_le, pos_ltb_lt, pos_eq. lia. Qed.

Lemma pos_ltb_irrefl (a : EventPosition) : pos_ltb a a = false.
Proof.
  destruct (pos_ltb a a) eqn:E; [|done]. apply pos_ltb_lt in E. lia.
Qed.

Lemma pos_ltb_trans (a b c : EventPosition) :
  pos_ltb a b = true → pos_ltb b c = true → pos_ltb a c = true.
Proof. rewrite !pos_ltb_lt. lia. Qed.

Lemma pos_ltb_leb_trans (a b c : EventPosition) :
  pos_ltb a b = true → pos_leb b c = true → pos_ltb a c = true.
Proof. rewrite !pos_ltb_lt, pos_leb_le. lia. Qed.

Lemma pos_leb_ltb_trans (a b c : EventPosition) :
  pos_leb a b = true → pos_ltb b c = true → pos_ltb a c = true.
Proof. rewrite !pos_ltb_lt, pos_leb_le. lia. Qed.

Lemma pos_leb_trans (a b c : EventPosition) :
  pos_leb a b = true → pos_leb b c = true → pos_leb a c = true.
Proof. rewrite !pos_leb_le. lia. Qed.

Lemma pos_leb_total (a b : EventPosition) :
  pos_leb a b = true ∨ pos_leb b a = true.
Proof. rewrite !pos_leb_le. lia. Qed.

Lemma pos_ltb_negb_leb (a b : EventPosition) : pos_ltb a b = negb (pos_leb b a).
Proof.
  destruct (pos_ltb a b) eqn:E1, (pos_leb b a) eqn:E2; try done.
  - apply pos_ltb_lt in E1. apply pos_leb_le in E2. lia.
  - assert (¬ pos_ltb a b = true) as H1 by congruence.
    assert (¬ pos_leb b a = true) as H2 by congruence.
    rewrite pos_ltb_lt in H1. rewrite pos_leb_le in H2. lia.
Qed.

Lemma pos_leb_antisym (a b : EventPosition) :
  pos_leb a b = true → pos_leb b a = true → a = b.
Proof. rewrite !pos_leb_le, pos_eq. lia. Qed.

Lemma pos_ltb_block (a b : EventPosition) :
  pos_ltb a b = true → pos_blockNumber a ≤ pos_blockNumber b.
Proof. rewrite pos_ltb_lt. lia. Qed.

Lemma pos_leb_block (a b : EventPosition) :
  pos_leb a b = true → pos_blockNumber a ≤ pos_blockNumber b.
Proof. rewrite pos_leb_le. lia. Qed.

Lemma pos_block_ltb (a b : EventPosition) :
  pos_blockNumber a < pos_blockNumber b → pos_ltb a b = true.
Proof. rewrite pos_ltb_lt. lia. Qed.

#[global] Instance position_le_trans : Transitive position_le.
Proof. intros a b c. unfold position_le. apply pos_leb_trans. Qed.

#[global] Instance position_le_total : Total position_le.
Proof. intros a b. unfold position_le. apply pos_leb_total. Qed.

Lemma StronglySorted_filter {A} (R : relation A) (P : A → Prop)
      `{∀ x, Decision (P x)} (l : list A) :
  StronglySorted R l → StronglySorted R (filter P l).
Proof.
  induction 1 as [|x l Hl IH Hx]; [constructor|].
  rewrite filter_cons. destruct (decide (P x)); [|done].
  constructor; [done|]. rewrite Forall_forall in Hx |- *.
  intros y [_ Hy]%list_elem_of_filter. by apply Hx.
Qed.

Lemma StronglySorted_take {A} (R : relation A) (n : nat) (l : list A) :
  StronglySorted R l → StronglySorted R (take n l).
Proof.
  intros H. rewrite <- (take_drop n l) in H. by apply StronglySorted_app_1_l in H.
Qed.

Lemma StronglySorted_drop {A} (R : relation A) (n : nat) (l : list A) :
  StronglySorted R l → StronglySorted R (drop n l).
Proof.
  intros H. rewrite <- (take_drop n l) in H. by apply StronglySorted_app_1_r in H.
Qed.

Lemma sorted_strictly (l : list Event) :
  NoDup l → distinct_positions l →
  StronglySorted position_le l → StronglySorted position_lt l.
Proof.
  intros Hnd Hd Hs. induction Hs as [|x l Hl IH Hx]; [constructor|].
  apply NoDup_cons in Hnd as [Hnot Hnd].
  constructor.
  - apply IH; [done|]. intros a b Ha Hb. apply Hd; by right.
  - rewrite Forall_forall in Hx |- *. intros y Hy.
    specialize (Hx y Hy). unfold position_le, position_lt in *.
    apply pos_leb_ltb in Hx as [Hx|Hx]; [done|].
    exfalso. apply Hnot.
    rewrite (Hd x y); [done|by left|by right|done].
Qed.

Lemma sorted_by_position_unique (l1 l2 : list Event) :
  distinct_positions l1 →
  StronglySorted position_le l1 → StronglySorted position_le l2 →
  l1 ≡ₚ l2 → l1 = l2.
Proof.
  intros Hd H1 H2 Hp. apply (StronglySorted_unique_strong position_le); try done.
  intros x y Hx Hy Hxy Hyx. apply Hd; [done|by rewrite Hp|].
  by apply pos_leb_antisym.
Qed.

(** In a list sorted strictly, the events after the last of the first
    [n] are the rest of the list. *)
Lemma after_last_of_take (l : list Event) (n : nat) (x : Event) :
  StronglySorted position_lt l → last (take n l) = Some x →
  filter (λ e, pos_ltb (ev_position x) (ev_position e) = true) l = drop n l.
Proof.
  intros Hs Hlast. rewrite <- (take_drop n l) at 1.
  rewrite <- (take_drop n l) in Hs.
  apply last_Some in Hlast as [front Hfront].
  rewrite filter_app.
  assert (Hnone : filter (λ e, pos_ltb (ev_position x) (ev_position e) = true)
                         (take n l) = []).
  { rewrite Hfront. rewrite Hfront in Hs. apply StronglySorted_app_1_l in Hs.
    rewrite filter_app, filter_cons_False, filter_nil, app_nil_r
      by (by rewrite pos_ltb_irrefl).
    clear Hfront. induction front as [|a front IH]; [done|].
    rewrite filter_cons_False.
    - apply IH. pose proof Hs as Hs'. simpl in Hs'.
      by apply StronglySorted_cons in Hs' as [_ Hs'].
    - assert (position_lt a x) as Hax.
      { apply (StronglySorted_app_1_elem_of _ [a] (front ++ [x])).
        - exact Hs.
        - by left.
        - apply elem_of_app. right. by left. }
      unfold position_lt in Hax. intros Hxa.
      pose proof (pos_ltb_trans _ _ _ Hax Hxa) as Hbad.
      by rewrite pos_ltb_irrefl in Hbad. }
  rewrite Hnone. simpl.
  assert (Hall : ∀ e, e ∈ drop n l →
                      pos_ltb (ev_position x) (ev_position e) = true).
  { intros e He. apply (StronglySorted_app_1_elem_of _ _ _ x e Hs); [|done].
    rewrite Hfront. apply elem_of_app. right. by left. }
  revert Hall. generalize (drop n l). intros k Hall.
  induction k as [|a k IH]; [done|].
  rewrite filter_cons_True by (apply Hall; by left).
  f_equal. apply IH. intros e He. apply Hall. by right.
Qed.

End PositionOrder.

(** * Pages of an ordered query *)

Section Pages.
Import EventStore.

Lemma NoDup_fmap_eq {A B} (f : A → B) (l : list A) (x y : A) :
  NoDup (f <$> l) → x ∈ l → y ∈ l → f x = f y → x = y.
Proof.
  intros Hnd [i Hi]%list_elem_of_lookup [j Hj]%list_elem_of_lookup Hf.
  assert (i = j) as ->; [|congruence].
  eapply NoDup_lookup; [exact Hnd| |].
  - by rewrite list_lookup_fmap, Hi.
  - rewrite list_lookup_fmap, Hj. simpl. by rewrite Hf.
Qed.

(** Rows of one chain in a table are at distinct positions. *)
Lemma chain_rows_distinct (c : Z) (table l : list Event) :
  NoDup (event_key <$> table) →
  (∀ e, e ∈ l → e ∈ table ∧ ev_chainId e = c) →
  distinct_positions l.
Proof.
  intros Hnd Hl x y Hx Hy Hpos.
  destruct (Hl x Hx) as [Hxt Hxc], (Hl y Hy) as [Hyt Hyc].
  apply (NoDup_fmap_eq event_key table); try done.
  unfold event_key. congruence.
Qed.

Lemma chain_sorted_elem (c : Z) (table : list Event) (e : Event) :
  e ∈ chain_sorted c table ↔ e ∈ table ∧ ev_chainId e = c.
Proof.
  unfold chain_sorted. rewrite merge_sort_Permutation, list_elem_of_filter. tauto.
Qed.

Lemma chain_sorted_strict (c : Z) (table : list Event) :
  NoDup (ev_id <$> table) → NoDup (event_key <$> table) →
  StronglySorted position_lt (chain_sorted c table).
Proof.
  intros Hid Hkey. apply sorted_strictly.
  - unfold chain_sorted. rewrite merge_sort_Permutation.
    apply NoDup_filter. by apply NoDup_fmap_1 in Hid.
  - apply (chain_rows_distinct c table); [done|].
    intros e. by rewrite chain_sorted_elem.
  - apply StronglySorted_merge_sort; apply _.
Qed.

(** An ordered query whose condition tests the chain and [R] returns the
    rows of the chain that satisfy [R], by position. *)
Lemma ordered_rows (c : Z) (table : list Event) (P R : Event → bool) :
  NoDup (event_key <$> table) →
  (∀ e, P e = (ev_chainId e =? c) && R e) →
  merge_sort position_le (filter (λ e, P e = true) table)
  = filter (λ e, R e = true) (chain_sorted c table).
Proof.
  intros Hkey HP. apply sorted_by_position_unique.
  - apply (chain_rows_distinct c table); [done|].
    intros e. rewrite merge_sort_Permutation, list_elem_of_filter, HP.
    rewrite andb_true_iff, Z.eqb_eq. tauto.
  - apply StronglySorted_merge_sort; apply _.
  - apply StronglySorted_filter. apply StronglySorted_merge_sort; apply _.
  - rewrite merge_sort_Permutation. unfold chain_sorted.
    rewrite merge_sort_Permutation, list_filter_filter.
    apply reflexive_eq, list_filter_iff. intros e.
    rewrite HP, andb_true_iff, Z.eqb_eq. tauto.
Qed.

Lemma ordered_query (c : Z) (table : list Event) (P R : Event → bool)
      (n : nat) (off : option nat) :
  NoDup (event_key <$> table) →
  (∀ e, P e = (ev_chainId e =? c) && R e) →
  model_findAll (mkFind None P true (Some n) off) table
  = take n (drop (default O off) (filter (λ e, R e = true) (chain_sorted c table))).
Proof.
  intros Hkey HP. unfold model_findAll, matches. simpl.
  by rewrite (ordered_rows c table P R).
Qed.

(** A full page ends at [x]: the rows after [x] are the rest.  [lower] is
    a test that holds of every row after a row of which it holds. *)
Lemma page_split (S : list Event) (lower rest : Event → bool) (n : nat) (x : Event) :
  StronglySorted position_lt S →
  (∀ a b, lower a = true → pos_ltb (ev_position a) (ev_position b) = true →
          lower b = true) →
  last (take n (filter (λ e, lower e && rest e = true) S)) = Some x →
  filter (λ e, pos_ltb (ev_position x) (ev_position e) && rest e = true) S
  = drop n (filter (λ e, lower e && rest e = true) S)
  ∧ lower x = true.
Proof.
  intros Hs Hup Hlast.
  assert (Hx : x ∈ filter (λ e, lower e && rest e = true) S).
  { apply last_Some_elem_of in Hlast.
    rewrite <- (take_drop n (filter _ S)). apply elem_of_app. by left. }
  apply list_elem_of_filter in Hx as [Hx _]. apply andb_true_iff in Hx as [Hlow _].
  split; [|done].
  rewrite <- (after_last_of_take _ n x); [|by apply StronglySorted_filter|done].
  rewrite list_filter_filter. apply list_filter_iff. intros e.
  rewrite !andb_true_iff. split.
  - intros [Hlt Hr]. split; [done|]. split; [|done]. by apply (Hup x).
  - intros [Hlt [_ Hr]]. done.
Qed.

End Pages.

(** * The generators yield, batch after batch, what is pending *)

Section Scan.
Import EventStore.

Variable w : World.
Variable from : Bound.
Variable to : option Bound.
Variable additional : Event → bool.
Variable lim : nat.
Hypothesis Hok : store_ok w.
Hypothesis Hmodels : models_synced w.
Hypothesis Hlim : (0 < lim)%nat.

Local Abbreviation c := (chainId (mem w)).
Local Abbreviation cond := (btl_condition (chainId (mem w)) from to additional lim).
Local Abbreviation fromB := (bound_blockNumber from).
Local Abbreviation toB := (match to with
                       | Some b => bound_blockNumber b
                       | None => latestBlockNumber w
                       end).
Local Abbreviation first := (first_test from to additional).
Local Abbreviation rest := (λ e, toCondition to e && additional e).
Local Abbreviation sorted_of index :=
  (chain_sorted (chainId (mem w))
     (rows (db w) (concatModelName (chainId (mem w)) (idx_index index)))).

Lemma truthy_cond : truthy_limit cond = Some lim.
Proof. unfold truthy_limit. simpl. destruct lim; [lia|done]. Qed.

Lemma fromCondition_upward (a b : Event) :
  fromCondition from a = true →
  pos_ltb (ev_position a) (ev_position b) = true →
  fromCondition from b = true.
Proof.
  destruct from as [n|p]; simpl.
  - intros Ha Hab%pos_ltb_block. simpl in Hab.
    apply Z.ltb_lt in Ha. apply Z.ltb_lt. lia.
  - apply pos_ltb_trans.
Qed.

Lemma table_unique (i : nat) index :
  indexes (mem w) !! i = Some index →
  NoDup (ev_id <$> rows (db w) (concatModelName c (idx_index index)))
  ∧ NoDup (event_key <$> rows (db w) (concatModelName c (idx_index index))).
Proof. intros Hi. apply (ok_unique _ Hok i index Hi). Qed.

Lemma first_query (i : nat) index :
  indexes (mem w) !! i = Some index →
  model_findAll (with_page cond (Some O) (limit cond))
                (rows (db w) (concatModelName c (idx_index index)))
  = take lim (filter (λ e, first e = true) (sorted_of index)).
Proof.
  intros Hi. unfold with_page. simpl.
  rewrite (ordered_query c _ _ first); [done|by apply (table_unique i)|].
  intros e. unfold first_test. by rewrite !andb_assoc.
Qed.

Lemma anchored_query (i off : nat) index (latestEvent : Event) :
  indexes (mem w) !! i = Some index →
  model_findAll (under_page (Some off) (Some lim)
                   (default cond (Some (btl_anchored c latestEvent to additional))))
                (rows (db w) (concatModelName c (idx_index index)))
  = take lim (filter (λ e, anchored_test latestEvent to additional e = true)
                     (sorted_of index)).
Proof.
  intros Hi. unfold under_page. simpl.
  rewrite (ordered_query c _ _ (anchored_test latestEvent to additional));
    [done|by apply (table_unique i)|].
  intros e. unfold anchored_test. by rewrite !andb_assoc.
Qed.

(** The three cases of a page of [L], the sorted rows of a sub-table that
    satisfy [R], a test of the shape [lower && rest]. *)
Lemma page_cases (i : nat) index (R lower : Event → bool) :
  indexes (mem w) !! i = Some index →
  (∀ e, R e = lower e && rest e) →
  (∀ a b, lower a = true → pos_ltb (ev_position a) (ev_position b) = true →
          lower b = true) →
  let L := filter (λ e, R e = true) (sorted_of index) in
  let events := take lim L in
  (length events = lim
   ∧ ∃ x, last events = Some x ∧ lower x = true ∧ ev_chainId x = c
          ∧ L = events ++ filter (λ e, anchored_test x to additional e = true)
                                 (sorted_of index))
  ∨ (length events ≠ lim ∧ (0 < length events)%nat ∧ events = L
     ∧ ∃ x, last events = Some x ∧ lower x = true ∧ ev_chainId x = c)
  ∨ (length events ≠ lim ∧ length events = O ∧ L = []).
Proof.
  intros Hi HR Hup L events.
  assert (HL : L = filter (λ e, lower e && rest e = true) (sorted_of index)).
  { apply list_filter_iff. intros e. by rewrite HR. }
  assert (Hin : ∀ x, x ∈ events → lower x = true ∧ ev_chainId x = c).
  { intros x Hx.
    assert (x ∈ L) as HxL.
    { rewrite <- (take_drop lim L). apply elem_of_app. by left. }
    rewrite HL in HxL. apply list_elem_of_filter in HxL as [Hlow HxS].
    apply andb_true_iff in Hlow as [Hlow _].
    apply chain_sorted_elem in HxS. tauto. }
  assert (Hlast : (0 < length events)%nat →
                  ∃ x, last events = Some x ∧ lower x = true ∧ ev_chainId x = c).
  { intros Hpos. destruct (last events) as [x|] eqn:Hlast.
    2: { apply last_None in Hlast. rewrite Hlast in Hpos. simpl in Hpos. lia. }
    exists x. split; [done|]. apply Hin. by apply last_Some_elem_of. }
  destruct (decide (length events = lim)) as [Hfull|Hshort].
  - left. split; [done|].
    destruct Hlast as (x & Hx & Hlow & Hchain); [lia|].
    exists x. split_and!; [done|done|done|].
    destruct (table_unique i index Hi) as [Hid Hkey].
    destruct (page_split (sorted_of index) lower rest lim x) as [Hsplit _];
      [by apply chain_sorted_strict|done|by rewrite <- HL|].
    rewrite <- (take_drop lim L) at 1. fold events. f_equal.
    rewrite HL, <- Hsplit. by apply list_filter_iff.
  - right.
    assert (Hlen : (length L < lim)%nat).
    { unfold events in Hshort. rewrite length_take in Hshort. lia. }
    assert (Heq : events = L) by (apply take_ge; lia).
    destruct (decide (length events = O)) as [Hz|Hnz].
    + right. split_and!; [done|done|].
      rewrite <- Heq. by apply nil_length_inv.
    + left. split_and!; [done|lia|done|apply Hlast; lia].
Qed.

Lemma yield_or_full (i off : nat) (events : list Event) cont :
  length events = lim →
  yield_or cond i off events cont = inr (Some events, FA_Page i off).
Proof.
  intros H. unfold yield_or. rewrite truthy_cond.
  by rewrite (proj2 (Nat.eqb_eq _ _) H).
Qed.

Lemma yield_or_short (i off : nat) (events : list Event) cont :
  length events ≠ lim → (0 < length events)%nat →
  yield_or cond i off events cont = inr (Some events, FA_Last i).
Proof.
  intros H1 H2. unfold yield_or. rewrite truthy_cond.
  rewrite (proj2 (Nat.eqb_neq _ _) H1). by rewrite (proj2 (Nat.ltb_lt _ _) H2).
Qed.

Lemma yield_or_empty (i off : nat) (events : list Event) cont :
  length events ≠ lim → length events = O →
  yield_or cond i off events cont = cont.
Proof.
  intros H1 H2. unfold yield_or. rewrite truthy_cond.
  rewrite (proj2 (Nat.eqb_neq _ _) H1). by rewrite H2.
Qed.

Lemma drop_cons_inv {A} (l : list A) (i : nat) (x : A) (k : list A) :
  drop i l = x :: k → l !! i = Some x ∧ drop (S i) l = k.
Proof.
  intros H. split.
  - replace i with (i + 0)%nat by lia. by rewrite <- lookup_drop, H.
  - replace (S i) with (i + 1)%nat by lia. by rewrite <- drop_drop, H.
Qed.

Lemma getModel_synced (i : nat) index :
  indexes (mem w) !! i = Some index →
  getModel index w = Ok (concatModelName c (idx_index index)) w.
Proof.
  intros Hi. unfold getModel.
  destruct (decide (_ ∈ models (mem w))) as [|Hn]; [done|].
  exfalso. apply Hn, Hmodels. by eapply list_elem_of_lookup_2.
Qed.

(** The loop of [findAll] from place [i]: it ends when nothing is
    pending, and otherwise yields a first batch of what is pending and
    stops in a state where the rest is. *)
Lemma scan_sound (idxs : list EventIndex) (i : nat) (previous : Z) :
  drop i (indexes (mem w)) = idxs →
  match btl_yield toB (findAll_scan w cond fromB (Some toB) idxs i previous) with
  | inl _ => False
  | inr (None, _) => pending w first fromB (Some toB) idxs previous = []
  | inr (Some batch, st') =>
      batch ≠ []
      ∧ pending w first fromB (Some toB) idxs previous
        = batch ++ remaining w from to additional st'
      ∧ scanning w from to st'
  end.
Proof.
  revert i previous. induction idxs as [|index rest' IH]; intros i previous Hdrop.
  { done. }
  destruct (drop_cons_inv _ _ _ _ Hdrop) as [Hi Hrest].
  cbn [findAll_scan pending].
  destruct (selected fromB (Some toB) previous index); [|apply IH, Hrest].
  rewrite (getModel_synced i index Hi), truthy_cond, (first_query i index Hi).
  destruct (page_cases i index first (fromCondition from) Hi
                       (λ e, eq_refl) fromCondition_upward)
    as [(Hfull & x & Hlast & Hlow & Hchain & Hsplit)
       |[(Hshort & Hpos & Heq & x & Hlast & Hlow & Hchain)
        |(Hshort & Hzero & Hnil)]].
  - rewrite yield_or_full by done. cbn [btl_yield].
    set (events := take lim _) in *. split_and!.
    + intros Hn. rewrite Hn in Hfull. simpl in Hfull. lia.
    + rewrite Hsplit, <- app_assoc. f_equal.
      unfold remaining. by rewrite Hlast, Hi, Hrest.
    + unfold scanning. rewrite Hlast. split_and!; [done| |by rewrite Hi].
      by exists x.
  - rewrite yield_or_short by done. cbn [btl_yield].
    set (events := take lim _) in *. split_and!.
    + intros Hn. rewrite Hn in Hpos. simpl in Hpos. lia.
    + rewrite <- Heq. f_equal. unfold remaining. by rewrite Hi, Hrest.
    + unfold scanning. rewrite Hlast. split_and!; [done| |by rewrite Hi].
      by exists x.
  - rewrite yield_or_empty by done. rewrite Hnil. simpl. apply IH, Hrest.
Qed.

(** One step of [findAllOrderByBTLASC]. *)
Lemma btl_next_sound (st : BTLState) :
  scanning w from to st →
  match findAllOrderByBTLASC_next from to additional lim st w with
  | inl _ => False
  | inr (None, _) => remaining w from to additional st = []
  | inr (Some batch, st') =>
      batch ≠ []
      ∧ remaining w from to additional st = batch ++ remaining w from to additional st'
      ∧ scanning w from to st'
  end.
Proof.
  assert (Hf : from_of cond (Some fromB) = fromB) by reflexivity.
  assert (Ht : to_of cond (Some toB) = Some toB) by reflexivity.
  destruct st as [|tb inner latest|]; [| |done].
  - intros Hle. simpl in Hle. unfold findAllOrderByBTLASC_next.
    replace (toB <? fromB) with false by (symmetry; apply Z.ltb_ge; lia).
    unfold findAll_next. rewrite Hf, Ht.
    apply (scan_sound (indexes (mem w)) O (-1)). done.
  - intros (-> & (latestEvent & -> & Hchain & Hfrom) & Hinner).
    unfold findAllOrderByBTLASC_next, findAll_next. rewrite Hf, Ht.
    destruct inner as [|i off|i|]; [done| | |done].
    + destruct Hinner as [index Hi]. rewrite Hi, truthy_cond.
      rewrite (anchored_query i _ index latestEvent Hi).
      assert (Hrem : remaining w from to additional
                       (BTL_Running toB (FA_Page i off) (Some latestEvent))
                     = filter (λ e, anchored_test latestEvent to additional e = true)
                              (sorted_of index)
                       ++ pending w first fromB (Some toB)
                                  (drop (S i) (indexes (mem w)))
                                  (idx_blockNumber index)).
      { unfold remaining. by rewrite Hi. }
      rewrite Hrem. clear Hrem.
      destruct (page_cases i index (anchored_test latestEvent to additional)
                  (λ e, pos_ltb (ev_position latestEvent) (ev_position e)) Hi
                  (λ e, eq_refl))
        as [(Hfull & x & Hlast & Hlow & Hcx & Hsplit)
           |[(Hshort & Hpos & Heq & x & Hlast & Hlow & Hcx)
            |(Hshort & Hzero & Hnil)]].
      { intros a b. apply pos_ltb_trans. }
      * rewrite yield_or_full by done. cbn [btl_yield].
        set (events := take lim _) in *. split_and!.
        -- intros Hn. rewrite Hn in Hfull. simpl in Hfull. lia.
        -- rewrite Hsplit, <- app_assoc. f_equal.
           unfold remaining. by rewrite Hi, Hlast.
        -- unfold scanning. rewrite Hlast. split_and!; [done| |by rewrite Hi].
           exists x. split_and!; [done|done|].
           by apply (fromCondition_upward latestEvent).
      * rewrite yield_or_short by done. cbn [btl_yield].
        set (events := take lim _) in *. split_and!.
        -- intros Hn. rewrite Hn in Hpos. simpl in Hpos. lia.
        -- rewrite <- Heq. f_equal. unfold remaining. by rewrite Hi.
        -- unfold scanning. rewrite Hlast. split_and!; [done| |by rewrite Hi].
           exists x. split_and!; [done|done|].
           by apply (fromCondition_upward latestEvent).
      * rewrite yield_or_empty by done. rewrite Hnil. cbn [app].
        by apply scan_sound.
    + destruct Hinner as [index Hi]. rewrite Hi.
      assert (Hrem : remaining w from to additional
                       (BTL_Running toB (FA_Last i) (Some latestEvent))
                     = pending w first fromB (Some toB)
                               (drop (S i) (indexes (mem w)))
                               (idx_blockNumber index)).
      { unfold remaining. by rewrite Hi. }
      rewrite Hrem. by apply scan_sound.
Qed.

End Scan.

(** * What is pending is the stored events in range, by position *)

Section Global.
Import EventStore.

Variable w : World.
Hypothesis Hok : store_ok w.

Local Abbreviation c := (chainId (mem w)).

Lemma ranged_of_lookup (p : Z) (idxs : list EventIndex) :
  (∀ k index, idxs !! k = Some index →
     previous_at p idxs k < idx_blockNumber index
     ∧ (∀ e, e ∈ rows_of w index →
             previous_at p idxs k < ev_blockNumber e ≤ idx_blockNumber index)
     ∧ NoDup (ev_id <$> rows_of w index)
     ∧ NoDup (event_key <$> rows_of w index)) →
  ranged w p idxs.
Proof.
  revert p. induction idxs as [|a l IH]; intros p H; [done|].
  destruct (H O a eq_refl) as (H1 & H2 & H3 & H4).
  simpl. split_and!; try done.
  apply IH. intros k index Hk. apply (H (S k) index Hk).
Qed.

Lemma store_ranged : ranged w (-1) (indexes (mem w)).
Proof.
  apply ranged_of_lookup. intros k index Hk. split_and!.
  - apply (ok_mono _ Hok _ _ Hk).
  - intros e He. by apply (ok_range _ Hok k).
  - apply (ok_unique _ Hok k index Hk).
  - apply (ok_unique _ Hok k index Hk).
Qed.

Lemma ranged_above (p : Z) (idxs : list EventIndex) (e : Event) :
  ranged w p idxs → e ∈ concat (rows_of w <$> idxs) → p < ev_blockNumber e.
Proof.
  revert p. induction idxs as [|a l IH]; intros p Hr He; simpl in *.
  - by apply elem_of_nil in He.
  - destruct Hr as (H1 & H2 & _ & _ & Hr).
    apply elem_of_app in He as [He|He].
    + apply H2 in He. lia.
    + specialize (IH _ Hr He). lia.
Qed.

(** Rows of the chain in the sub-tables are at distinct positions. *)
Lemma ranged_distinct (p : Z) (idxs : list EventIndex) :
  ranged w p idxs →
  distinct_positions (filter (λ e, ev_chainId e = c) (concat (rows_of w <$> idxs))).
Proof.
  revert p. induction idxs as [|a l IH]; intros p Hr; simpl in *.
  - intros x y []%elem_of_nil.
  - destruct Hr as (H1 & H2 & Hid & Hkey & Hr).
    intros x y [Hcx Hx]%list_elem_of_filter [Hcy Hy]%list_elem_of_filter Hpos.
    assert (Hbn : ev_blockNumber x = ev_blockNumber y).
    { by apply (f_equal pos_blockNumber) in Hpos. }
    apply elem_of_app in Hx as [Hx|Hx], Hy as [Hy|Hy].
    + apply (NoDup_fmap_eq event_key (rows_of w a)); try done.
      unfold event_key. congruence.
    + apply H2 in Hx. apply (ranged_above _ _ _ Hr) in Hy. lia.
    + apply H2 in Hy. apply (ranged_above _ _ _ Hr) in Hx. lia.
    + apply (IH _ Hr); [by apply list_elem_of_filter..|done].
Qed.

Section Range.
Variable R : Event → bool.
Variable fromB toB : Z.
(** The test keeps a row only within the blocks of the scan. *)
Hypothesis HR : ∀ e, R e = true → fromB ≤ ev_blockNumber e ≤ toB.

Lemma pending_elem (p : Z) (idxs : list EventIndex) (e : Event) :
  e ∈ pending w R fromB (Some toB) idxs p →
  e ∈ concat (rows_of w <$> idxs) ∧ ev_chainId e = c ∧ R e = true.
Proof.
  revert p. induction idxs as [|a l IH]; intros p He; cbn [pending ranged concat fmap list_fmap] in *.
  - by apply elem_of_nil in He.
  - apply elem_of_app in He as [He|He].
    + destruct (selected fromB (Some toB) p a); [|by apply elem_of_nil in He].
      apply list_elem_of_filter in He as [HRe He].
      apply chain_sorted_elem in He as [He Hc].
      split_and!; [|done|done]. apply elem_of_app. by left.
    + destruct (IH _ He) as (H1 & H2 & H3).
      split_and!; [|done|done]. apply elem_of_app. by right.
Qed.

Lemma pending_sorted (p : Z) (idxs : list EventIndex) :
  ranged w p idxs → StronglySorted position_le (pending w R fromB (Some toB) idxs p).
Proof.
  revert p. induction idxs as [|a l IH]; intros p Hr; cbn [pending ranged concat fmap list_fmap] in *; [constructor|].
  destruct Hr as (H1 & H2 & Hid & Hkey & Hr).
  apply StronglySorted_app. split_and!.
  - intros x y Hx Hy.
    destruct (selected fromB (Some toB) p a); [|by apply elem_of_nil in Hx].
    apply list_elem_of_filter in Hx as [_ Hx].
    apply chain_sorted_elem in Hx as [Hx _].
    apply pending_elem in Hy as [Hy _].
    apply H2 in Hx. apply (ranged_above _ _ _ Hr) in Hy.
    unfold position_le. apply pos_leb_ltb. left. apply pos_block_ltb. simpl. lia.
  - destruct (selected fromB (Some toB) p a); [|constructor].
    apply StronglySorted_filter. apply StronglySorted_merge_sort; apply _.
  - by apply IH.
Qed.

Lemma unselected_empty (p : Z) (a : EventIndex) :
  (∀ e, e ∈ rows_of w a → p < ev_blockNumber e ≤ idx_blockNumber a) →
  selected fromB (Some toB) p a = false →
  filter (λ e, ev_chainId e = c ∧ R e = true) (rows_of w a) = [].
Proof.
  intros H2 Hsel.
  destruct (filter _ (rows_of w a)) as [|e l] eqn:E; [done|exfalso].
  assert (He : e ∈ filter (λ e, ev_chainId e = c ∧ R e = true) (rows_of w a)).
  { rewrite E. by left. }
  apply list_elem_of_filter in He as [[_ HRe] He].
  apply H2 in He. apply HR in HRe.
  unfold selected in Hsel.
  apply orb_false_iff in Hsel as [Hs1 Hs2].
  apply andb_false_iff in Hs1. apply andb_false_iff in Hs2.
  rewrite !Z.leb_gt in Hs1. rewrite Z.ltb_ge, Z.leb_gt in Hs2. lia.
Qed.

Lemma pending_perm (p : Z) (idxs : list EventIndex) :
  ranged w p idxs →
  pending w R fromB (Some toB) idxs p
  ≡ₚ filter (λ e, ev_chainId e = c ∧ R e = true) (concat (rows_of w <$> idxs)).
Proof.
  revert p. induction idxs as [|a l IH]; intros p Hr; cbn [pending ranged concat fmap list_fmap] in *; [done|].
  destruct Hr as (H1 & H2 & Hid & Hkey & Hr).
  rewrite filter_app, (IH _ Hr). apply Permutation_app_tail.
  destruct (selected fromB (Some toB) p a) eqn:Hsel.
  - unfold chain_sorted. fold (rows_of w a).
    rewrite merge_sort_Permutation, list_filter_filter.
    apply reflexive_eq, list_filter_iff. intros e. tauto.
  - by rewrite (unselected_empty p a).
Qed.

(** The whole of a scan. *)
Lemma pending_stored :
  pending w R fromB (Some toB) (indexes (mem w)) (-1) = stored_events w R.
Proof.
  pose proof store_ranged as Hr.
  apply sorted_by_position_unique.
  - intros x y Hx Hy. apply (ranged_distinct _ _ Hr).
    + apply pending_elem in Hx as (Hx & Hc & _). by apply list_elem_of_filter.
    + apply pending_elem in Hy as (Hy & Hc & _). by apply list_elem_of_filter.
  - by apply pending_sorted.
  - apply StronglySorted_merge_sort; apply _.
  - unfold stored_events. rewrite merge_sort_Permutation. by apply pending_perm.
Qed.

End Range.
End Global.

(** * Replay *)

Section ReplayFacts.
Import EventStore Replay.

Variable Snapshot : Type.
Variable Serialized : Type.
Variable empty : Snapshot.
Variable processParsedLog : Snapshot → Log → LogDescription → Snapshot.
Variable deserialize : Serialized → Snapshot.

Variable w : World.
Hypothesis Hok : store_ok w.
Hypothesis Hmodels : models_synced w.

Local Abbreviation c := (chainId (mem w)).
Local Abbreviation apply := (apply_event Snapshot processParsedLog).
Local Abbreviation always := (λ _ : Event, true).

Lemma last_app_default {A B} (f : A → B) (d : B) (x : A) (l1 l2 : list A) :
  last l1 = Some x →
  default (f x) (f <$> last l2) = default d (f <$> last (l1 ++ l2)).
Proof.
  intros H. rewrite last_app. destruct (last l2); [done|]. by rewrite H.
Qed.

(** With fuel above the number of events still to come, the loop of
    [replay] applies them all, in order, and returns the position of the
    last one. *)
Lemma replay_loop_sound (fuel : nat) (from : EventPosition) (to : option Bound)
      (st : BTLState) (snapshot : Snapshot) (latest : EventPosition) :
  scanning w (AtPosition from) to st →
  (length (remaining w (AtPosition from) to always st) < fuel)%nat →
  replay_loop Snapshot processParsedLog fuel w from to st snapshot latest
  = Some (inr (foldl apply snapshot (remaining w (AtPosition from) to always st),
               default latest
                 (ev_position <$> last (remaining w (AtPosition from) to always st)))).
Proof.
  revert st snapshot latest.
  induction fuel as [|fuel IH]; intros st snapshot latest Hscan Hlen; [lia|].
  cbn [replay_loop].
  pose proof (btl_next_sound w (AtPosition from) to always defaultLimit Hok Hmodels
                             ltac:(unfold defaultLimit; lia) st Hscan) as Hstep.
  destruct (findAllOrderByBTLASC_next (AtPosition from) to always defaultLimit st w)
    as [e|[[batch|] st']]; [done| |].
  - destruct Hstep as (Hne & Hrem & Hscan').
    destruct (last batch) as [x|] eqn:Hlast.
    2: { by apply last_None in Hlast. }
    rewrite Hrem in Hlen. rewrite length_app in Hlen.
    assert (0 < length batch)%nat by (destruct batch; [done|simpl; lia]).
    rewrite IH; [|done|lia].
    rewrite Hrem, foldl_app. do 3 f_equal.
    by apply last_app_default.
  - by rewrite Hstep.
Qed.

Lemma first_test_bounds (from : EventPosition) (to : Bound) (e : Event) :
  first_test (AtPosition from) (Some to) always e = true →
  pos_blockNumber from ≤ ev_blockNumber e ≤ bound_blockNumber to.
Proof.
  unfold first_test. rewrite !andb_true_iff. intros (Hf & Ht & _).
  simpl in Hf. apply pos_ltb_block in Hf. simpl in Hf.
  destruct to as [n|q]; simpl in *.
  - apply Z.leb_le in Ht. lia.
  - apply pos_leb_block in Ht. simpl in Ht. lia.
Qed.

Lemma stored_events_length (R : Event → bool) :
  (length (stored_events w R) ≤ length (all_rows w))%nat.
Proof.
  unfold stored_events. rewrite merge_sort_Permutation. apply length_filter.
Qed.

(** [replay] from a position to a bound not before it. *)
Lemma replay_sound (fuel : nat) (snapshot : Snapshot) (from : EventPosition)
      (to : Bound) :
  pos_blockNumber from ≤ bound_blockNumber to →
  (length (all_rows w) < fuel)%nat →
  replay Snapshot processParsedLog fuel w snapshot from (Some to)
  = Some (inr (foldl apply snapshot
                     (stored_events w (first_test (AtPosition from) (Some to) always)),
               default from
                 (ev_position <$>
                  last (stored_events w (first_test (AtPosition from) (Some to) always))))).
Proof.
  intros Hle Hfuel. unfold replay.
  rewrite replay_loop_sound.
  - unfold remaining.
    by rewrite (pending_stored w Hok _ (bound_blockNumber (AtPosition from))
                               (bound_blockNumber to) (first_test_bounds from to)).
  - done.
  - unfold remaining.
    rewrite (pending_stored w Hok _ (bound_blockNumber (AtPosition from))
                            (bound_blockNumber to) (first_test_bounds from to)).
    pose proof (stored_events_length (first_test (AtPosition from) (Some to) always)).
    lia.
Qed.

Lemma stored_events_elem (R : Event → bool) (e : Event) :
  e ∈ stored_events w R ↔ e ∈ all_rows w ∧ ev_chainId e = c ∧ R e = true.
Proof.
  unfold stored_events. rewrite merge_sort_Permutation, list_elem_of_filter. tauto.
Qed.

Lemma before_bound (e : Event) (b : EventPosition) (to : Bound) :
  pos_leb (ev_position e) b = true → at_or_before to b = true →
  toCondition (Some to) e = true.
Proof.
  destruct to as [n|q]; simpl.
  - intros H1%pos_leb_block H2%Z.leb_le. simpl in H1. apply Z.leb_le. lia.
  - apply pos_leb_trans.
Qed.

(** The events up to a base, then those after it up to the bound, are the
    events up to the bound. *)
Lemma upto_split (b : EventPosition) (to : Bound) :
  at_or_before to b = true →
  events_upto w (AtPosition b)
  ++ stored_events w (first_test (AtPosition b) (Some to) always)
  = events_upto w to.
Proof.
  intros Hb. unfold events_upto.
  apply sorted_by_position_unique.
  - intros x y Hx Hy. apply (ranged_distinct w _ _ (store_ranged w Hok)).
    + apply list_elem_of_filter.
      apply elem_of_app in Hx as [Hx|Hx]; apply stored_events_elem in Hx; tauto.
    + apply list_elem_of_filter.
      apply elem_of_app in Hy as [Hy|Hy]; apply stored_events_elem in Hy; tauto.
  - apply StronglySorted_app. split_and!.
    + intros x y (_ & _ & Hx)%stored_events_elem (_ & _ & Hy)%stored_events_elem.
      simpl in Hx. unfold first_test in Hy. apply andb_true_iff in Hy as [Hy _].
      simpl in Hy. unfold position_le. apply pos_leb_ltb. left.
      by eapply pos_leb_ltb_trans.
    + apply StronglySorted_merge_sort; apply _.
    + apply StronglySorted_merge_sort; apply _.
  - apply StronglySorted_merge_sort; apply _.
  - unfold stored_events. rewrite !merge_sort_Permutation.
    rewrite <- (filter_app_complement
                  (λ e, pos_leb (ev_position e) b = true)
                  (filter (λ e, ev_chainId e = c ∧ toCondition (Some to) e = true)
                          (all_rows w))).
    rewrite !list_filter_filter.
    apply Permutation_app; apply reflexive_eq, list_filter_iff; intros e.
    + simpl. split; [|intros (H1 & H2 & H3); done].
      intros [H1 H2]. split_and!; [done|done|]. by apply (before_bound e b).
    + unfold first_test. cbn beta. simpl fromCondition.
      rewrite andb_true_r, pos_ltb_negb_leb, !andb_true_iff, negb_true_iff.
      rewrite not_true_iff_false. tauto.
Qed.

Lemma nearest_spec (table : list (StoredSnapshot Serialized)) (to : Bound) row :
  nearest Serialized table c to = Some row →
  row ∈ table ∧ ss_chainId row = c ∧ at_or_before to (ss_position row) = true.
Proof.
  unfold nearest.
  assert (H : ∀ best,
            (∀ r, best = Some r →
                  r ∈ table ∧ ss_chainId r = c ∧ at_or_before to (ss_position r) = true) →
            ∀ l, (∀ r, r ∈ l → r ∈ table) →
            ∀ r, foldl (λ best row,
                          if (ss_chainId row =? c) && at_or_before to (ss_position row)
                          then match best with
                               | Some b => if pos_ltb (ss_position b) (ss_position row)
                                           then Some row else best
                               | None => Some row
                               end
                          else best) best l = Some r →
                 r ∈ table ∧ ss_chainId r = c ∧ at_or_before to (ss_position r) = true).
  { intros best Hbest l. revert best Hbest.
    induction l as [|a l IH]; intros best Hbest Hl r; simpl; [apply Hbest|].
    apply IH; [|intros; apply Hl; by right].
    intros r'.
    destruct ((ss_chainId a =? c) && at_or_before to (ss_position a)) eqn:E;
      [|apply Hbest].
    apply andb_true_iff in E as [E1%Z.eqb_eq E2].
    assert (Ha : a ∈ table) by (apply Hl; by left).
    destruct best as [b|]; [|by intros [= <-]].
    destruct (pos_ltb (ss_position b) (ss_position a)); [by intros [= <-]|].
    apply Hbest. }
  apply (H None); [done|done].
Qed.

(** C7.  On a store that satisfies the invariants and whose indexes have
    their models, take a target [to] and any two bases at or before it,
    each holding the fold of [snapshot.apply] over all the stored events
    up to its position in Position order.  With fuel above the number of
    stored rows, [getSnapshot] returns from either base the fold over all
    the stored events up to [to]: replay applies exactly the stored events
    after the base and up to [to], in Position order.  The same snapshot
    comes out when no base is passed, every stored snapshot being such a
    fold and the empty snapshot at position (0,0,0) also (no event is
    stored at that position or before). *)
Theorem getSnapshot_base_independent
        (table : list (StoredSnapshot Serialized)) (to : Bound)
        (base1 base2 : Snapshot * EventPosition) (fuel : nat) :
  valid_base Snapshot empty processParsedLog w base1 →
  valid_base Snapshot empty processParsedLog w base2 →
  at_or_before to base1.2 = true → at_or_before to base2.2 = true →
  valid_table Snapshot Serialized empty processParsedLog deserialize w table →
  valid_base Snapshot empty processParsedLog w (empty, mkPos 0 0 0) →
  at_or_before to (mkPos 0 0 0) = true →
  (length (all_rows w) < fuel)%nat →
  (∃ p1, getSnapshot Snapshot Serialized empty processParsedLog deserialize
                     fuel w table to (Some base1)
         = Some (inr (snapshot_at Snapshot empty processParsedLog w to, p1)))
  ∧ (∃ p2, getSnapshot Snapshot Serialized empty processParsedLog deserialize
                       fuel w table to (Some base2)
           = Some (inr (snapshot_at Snapshot empty processParsedLog w to, p2)))
  ∧ (∃ p, getSnapshot Snapshot Serialized empty processParsedLog deserialize
                      fuel w table to None
          = Some (inr (snapshot_at Snapshot empty processParsedLog w to, p))).
Proof.
  intros Hv1 Hv2 Hb1 Hb2 Htable Hempty Hzero Hfuel.
  assert (Hfrom : ∀ base, valid_base Snapshot empty processParsedLog w base →
            at_or_before to base.2 = true →
            ∃ p, replay Snapshot processParsedLog fuel w base.1 base.2 (Some to)
                 = Some (inr (snapshot_at Snapshot empty processParsedLog w to, p))).
  { intros [s b] Hv Hb. simpl in *. eexists.
    rewrite replay_sound; [|by destruct to; simpl in *;
                             [apply Z.leb_le in Hb|apply pos_leb_block in Hb]|done].
    do 3 f_equal. unfold valid_base in Hv. simpl in Hv. rewrite Hv.
    unfold snapshot_at. rewrite <- foldl_app.
    by rewrite (upto_split b to Hb). }
  split_and!.
  - destruct base1 as [s1 b1]. apply (Hfrom (s1, b1) Hv1 Hb1).
  - destruct base2 as [s2 b2]. apply (Hfrom (s2, b2) Hv2 Hb2).
  - unfold getSnapshot.
    destruct (nearest Serialized table c to) as [row|] eqn:Hn.
    + apply nearest_spec in Hn as (Hin & Hc & Hb).
      apply (Hfrom (deserialize (ss_snapshot row), ss_position row)); [|done].
      by apply Htable.
    + apply (Hfrom (empty, mkPos 0 0 0)); done.
Qed.

End ReplayFacts.

Section ReplayExample.
Import EventStore Replay.

Lemma threeTables_ok : store_ok threeTables.
Proof.
  apply (writes_keep_ok (started 1)); [apply started_ok|].
  unfold threeTables. simpl foldl.
  eapply rtc_l;
    [apply (written_create _ _ (eventAt 10) (eventAt 10));
     [simpl; lia|reflexivity|vm_compute; reflexivity]|].
  eapply rtc_l;
    [apply (written_create _ _ (eventAt 20) (eventAt 20));
     [simpl; lia|reflexivity|vm_compute; reflexivity]|].
  eapply rtc_l;
    [apply (written_create _ _ (eventAt 30) (eventAt 30));
     [simpl; lia|reflexivity|vm_compute; reflexivity]|].
  vm_compute. apply rtc_refl.
Qed.

Lemma threeTables_models : models_synced threeTables.
Proof.
  intros index Hin.
  assert (H : Forall (λ index, concatModelName (chainId (mem threeTables)) (idx_index index)
                               ∈ models (mem threeTables))
                     (indexes (mem threeTables))).
  { apply (bool_decide_unpack _). vm_compute. reflexivity. }
  by apply (proj1 (Forall_forall _ _) H).
Qed.

Lemma getSnapshot_base_independent_witness :
  (∃ p1, getSnapshot (list string) (list string) [] nameLog id
                     4 threeTables oneStored (AtBlock 30) (Some ([], mkPos 0 0 0))
         = Some (inr (snapshot_at (list string) [] nameLog threeTables (AtBlock 30), p1)))
  ∧ (∃ p2, getSnapshot (list string) (list string) [] nameLog id
                       4 threeTables oneStored (AtBlock 30)
                       (Some (["Trade"; "Trade"], mkPos 20 0 0))
           = Some (inr (snapshot_at (list string) [] nameLog threeTables (AtBlock 30), p2)))
  ∧ (∃ p, getSnapshot (list string) (list string) [] nameLog id
                      4 threeTables oneStored (AtBlock 30) None
          = Some (inr (snapshot_at (list string) [] nameLog threeTables (AtBlock 30), p))).
Proof.
  apply (getSnapshot_base_independent (list string) (list string) [] nameLog id
           threeTables threeTables_ok threeTables_models oneStored (AtBlock 30)
           ([], mkPos 0 0 0) (["Trade"; "Trade"], mkPos 20 0 0) 4%nat).
  - vm_compute. reflexivity.
  - vm_compute. reflexivity.
  - reflexivity.
  - reflexivity.
  - intros row ->%list_elem_of_singleton _. vm_compute. reflexivity.
  - vm_compute. reflexivity.
  - reflexivity.
  - vm_compute. lia.
Defined.

End ReplayExample.
(** * Scans without an upper bound *)

Section OpenScan.
Import EventStore.

Variable w : World.
Hypothesis Hok : store_ok w.

Lemma filter_ext_in {A} (P Q : A → Prop) `{!∀ x, Decision (P x)}
      `{!∀ x, Decision (Q x)} (l : list A) :
  (∀ x, x ∈ l → P x ↔ Q x) → filter P l = filter Q l.
Proof.
  induction l as [|a l IH]; intros Hl; [done|].
  rewrite !filter_cons.
  rewrite IH by (intros x Hx; apply Hl; by right).
  pose proof (Hl a ltac:(by left)) as Ha.
  destruct (decide (P a)), (decide (Q a)); tauto || done.
Qed.

Lemma elem_of_concat {A} (x : A) (ls : list (list A)) :
  x ∈ concat ls → ∃ l, l ∈ ls ∧ x ∈ l.
Proof.
  induction ls as [|l ls IH]; simpl; [by intros ?%elem_of_nil|].
  intros [Hx|Hx]%elem_of_app.
  - exists l. split; [by left|done].
  - destruct (IH Hx) as (l' & Hl' & Hx'). exists l'. split; [by right|done].
Qed.

(** No stored row is above the latest block number. *)
Lemma rows_below_latest (e : Event) :
  e ∈ all_rows w → ev_blockNumber e ≤ latestBlockNumber w.
Proof.
  unfold all_rows. intros (l & Hl & He)%elem_of_concat.
  apply list_elem_of_fmap in Hl as (index & -> & Hin).
  apply list_elem_of_lookup in Hin as [k Hk].
  pose proof (ok_range _ Hok k index e Hk He) as [_ Hle].
  unfold latestBlockNumber.
  destruct (last (indexes (mem w))) as [latestIndex|] eqn:Hlast.
  2: { apply last_None in Hlast. by rewrite Hlast in Hk. }
  rewrite last_lookup in Hlast.
  pose proof (lookup_lt_Some _ _ _ Hk) as Hlt.
  destruct (decide (k = pred (length (indexes (mem w))))) as [->|Hne].
  - rewrite Hk in Hlast. injection Hlast as <-. lia.
  - assert (Hkl : (k < pred (length (indexes (mem w))))%nat) by lia.
    pose proof (increasing_maxima w k _ index latestIndex Hok Hkl Hk Hlast).
    lia.
Qed.

Lemma pending_ext (R R' : Event → bool) (fromB : Z) (to : option Z)
      (idxs : list EventIndex) (p : Z) :
  (∀ e, e ∈ concat (rows_of w <$> idxs) → R e = R' e) →
  pending w R fromB to idxs p = pending w R' fromB to idxs p.
Proof.
  revert p. induction idxs as [|a l IH]; intros p H; [done|].
  cbn [pending]. rewrite IH.
  2: { intros e He. apply H. simpl. apply elem_of_app. by right. }
  f_equal. destruct (selected fromB to p a); [|done].
  apply filter_ext_in. intros e [He _]%chain_sorted_elem.
  rewrite H; [done|]. simpl. apply elem_of_app. by left.
Qed.

Lemma stored_events_ext (R R' : Event → bool) :
  (∀ e, e ∈ all_rows w → R e = R' e) → stored_events w R = stored_events w R'.
Proof.
  intros H. unfold stored_events. f_equal.
  apply filter_ext_in. intros e He. by rewrite (H e He).
Qed.

(** The whole of a scan that has no upper bound: it runs up to the latest
    block number, above which nothing is stored. *)
Lemma pending_stored_open (from : Bound) (additional : Event → bool) :
  pending w (first_test from None additional) (bound_blockNumber from)
          (Some (latestBlockNumber w)) (indexes (mem w)) (-1)
  = stored_events w (first_test from None additional).
Proof.
  set (R' := λ e, first_test from None additional e
                  && (ev_blockNumber e <=? latestBlockNumber w)).
  assert (Hext : ∀ e, e ∈ all_rows w → first_test from None additional e = R' e).
  { intros e He%rows_below_latest. unfold R'.
    replace (ev_blockNumber e <=? latestBlockNumber w) with true
      by (symmetry; apply Z.leb_le; lia).
    by rewrite andb_true_r. }
  rewrite (pending_ext _ R'), (stored_events_ext _ R') by done.
  apply (pending_stored w Hok R' (bound_blockNumber from) (latestBlockNumber w)).
  intros e. unfold R', first_test. rewrite !andb_true_iff.
  intros [(Hf & _) Hle%Z.leb_le]. split; [|done].
  destruct from as [n|q]; simpl in *.
  - apply Z.ltb_lt in Hf. lia.
  - apply pos_ltb_block in Hf. simpl in Hf. lia.
Qed.

End OpenScan.
(** * Storage *)

Section StorageFacts.
Import EventStore Utils Storage.

Variable sha256 : string → string.
Variable PROCESSED : Z.
Variable gate : string.
Variable config : string.
Variable gateInterface : Log → option LogDescription.
Variable configInterface : Log → option LogDescription.
Variable instrumentInterface : Log → option LogDescription.
Variable handler :
  string → option (string → Log → LogDescription → bool → M t unit).

Local Abbreviation processLogs :=
  (Storage.processLogs sha256 PROCESSED gate config gateInterface configInterface
                       instrumentInterface handler).
Local Abbreviation reorg_loop :=
  (Storage.reorg_loop sha256 PROCESSED gate config gateInterface configInterface
                      instrumentInterface handler).

(** The id of a log that comes from [fromDBEvent] cannot be computed. *)
Lemma calcEventId_fromDBEvent (c : Z) (e : Event) :
  let log := (fromDBEvent e).1 in
  calcEventId sha256 c (log_address log) (log_blockHash log)
              (log_transactionHash log) (log_logIndex log)
  = inl (TypeError "Cannot read properties of undefined (reading 'startsWith')").
Proof. reflexivity. Qed.

Lemma rollback_same (s : t) : rollback s s = s.
Proof. by destruct s as [[m d] cb sb em]. Qed.

(** [processLogs] on a batch of stored events: the first turn throws,
    the transaction is rolled back, nothing has changed. *)
Lemma processLogs_fromDBEvent (events : list Event) (s : t) :
  events ≠ [] →
  processLogs ((fromDBEvent <$> events).*1) (Some ((fromDBEvent <$> events).*2)) s
  = Ok false s.
Proof.
  destruct events as [|e rest]; [done|]. intros _.
  unfold Storage.processLogs. cbn [fmap list_fmap process_logs].
  unfold bind at 1 2. unfold process_log. unfold bind at 1 2. unfold get at 1.
  rewrite calcEventId_fromDBEvent. simpl.
  by rewrite rollback_same.
Qed.

(** The loop of [reorg]: every batch the generator yields is rolled
    back, and the generator goes on to the end over an unchanged store. *)
Lemma reorg_loop_sound (fuel : nat) (from : Bound) (st : BTLState) (s : t) :
  store_ok (common_events s) → models_synced (common_events s) →
  scanning (common_events s) from None st →
  (length (remaining (common_events s) from None (λ _, true) st) < fuel)%nat →
  reorg_loop fuel from st s = Some (Ok tt s).
Proof.
  intros Hok Hmodels. revert st.
  induction fuel as [|fuel IH]; intros st Hscan Hlen; [lia|].
  cbn [Storage.reorg_loop].
  pose proof (btl_next_sound (common_events s) from None (λ _, true) defaultLimit
                             Hok Hmodels ltac:(unfold defaultLimit; lia) st Hscan)
    as Hstep.
  destruct (findAllOrderByBTLASC_next from None (λ _, true) defaultLimit st
                                      (common_events s))
    as [e|[[batch|] st']]; [done| |done].
  destruct Hstep as (Hne & Hrem & Hscan').
  rewrite (processLogs_fromDBEvent batch s Hne).
  apply IH; [done|].
  rewrite Hrem, length_app in Hlen.
  assert (0 < length batch)%nat by (destruct batch; [done|simpl; lia]).
  lia.
Qed.

(** C6, as the code has it.  On a store that satisfies the invariants
    and whose indexes have their models, [reorg(reorgBlockNumber)] with
    [reorgBlockNumber - 1] not above the latest block number of the store
    ends (fuel above the number of stored rows is enough) and leaves the
    plugin and the database as they were: nothing is emitted, whatever
    events are stored.  A log made by [fromDBEvent] has no
    [transactionHash], [calcEventId] throws on it in the first turn of
    [processLogs], which rolls back and returns false, and [reorg] does
    not look at that result. *)
Theorem reorg_emits_nothing (s : t) (reorgBlockNumber : Z) (fuel : nat) :
  store_ok (common_events s) → models_synced (common_events s) →
  reorgBlockNumber - 1 ≤ latestBlockNumber (common_events s) →
  (length (all_rows (common_events s)) < fuel)%nat →
  Storage.reorg sha256 PROCESSED gate config gateInterface configInterface
                instrumentInterface handler fuel reorgBlockNumber s
  = Some (Ok tt s).
Proof.
  intros Hok Hmodels Hle Hfuel. unfold Storage.reorg.
  apply reorg_loop_sound; [done|done|done|].
  unfold remaining.
  rewrite (pending_stored_open (common_events s) Hok).
  pose proof (stored_events_length (common_events s)
                (first_test (AtBlock (reorgBlockNumber - 1)) None (λ _, true))).
  lia.
Qed.

End StorageFacts.

Lemma reorg_emits_nothing_witness :
  EventStore.stored_events Replay.threeTables (λ e, 20 <=? EventStore.ev_blockNumber e)
  = [EventStore.eventAt 20; EventStore.eventAt 30]
  ∧ Storage.reorg (λ s, s) 1 "gate" "config" (λ _, None) (λ _, None) (λ _, None)
                  (λ _, None) 4 20 Storage.upToDate
    = Some (Ok tt Storage.upToDate).
Proof.
  split; [vm_compute; reflexivity|].
  apply (reorg_emits_nothing (λ s, s) 1 "gate" "config" (λ _, None) (λ _, None)
                             (λ _, None) (λ _, None) Storage.upToDate 20 4%nat).
  - apply threeTables_ok.
  - apply threeTables_models.
  - apply Z.leb_le. vm_compute. reflexivity.
  - vm_compute. lia.
Defined.
(** * The snapshot API handler *)

Section HandlerFacts.
Import EventStore Replay Handler.

Variable Snapshot : Type.
Variable Serialized : Type.
Variable empty : Snapshot.
Variable processParsedLog : Snapshot → Log → LogDescription → Snapshot.
Variable deserialize : Serialized → Snapshot.

Local Abbreviation handleGenerateSnapshot :=
  (Handler.handleGenerateSnapshot Snapshot Serialized empty processParsedLog deserialize).

(** The id of the API document. *)
Lemma snapshotId_documented :
  snapshotId 81457 (AtPosition (mkPos 2737538 10 23)) = "81457-2737538-10-23".
Proof. vm_compute. reflexivity. Qed.

Lemma target_documented :
  target documented = inr (AtPosition (mkPos 2737538 10 23)).
Proof. reflexivity. Qed.

(** The params that pass: an object (or an array) whose [blockNumber]
    is a number and whose [transactionIndex] and [logIndex] are both
    numbers or both missing. *)
Lemma target_accepts (params : Value) (to : Bound) :
  target params = inr to →
  ∃ b, property params "blockNumber" = inr (VNumber b)
       ∧ ((property params "transactionIndex" = inr VUndefined
           ∧ property params "logIndex" = inr VUndefined ∧ to = AtBlock b)
          ∨ (∃ t l, property params "transactionIndex" = inr (VNumber t)
                    ∧ property params "logIndex" = inr (VNumber l)
                    ∧ to = AtPosition (mkPos b t l))).
Proof.
  unfold target, rejected.
  destruct params as [| |?|?|?|?|fields]; try (simpl; congruence).
  simpl.
  destruct (field "blockNumber" fields) as [| |?|b|?|?|?]; simpl; try congruence.
  destruct (field "transactionIndex" fields) as [| |?|tx|?|?|?],
           (field "logIndex" fields) as [| |?|li|?|?|?];
    simpl; try congruence; intros [= <-]; exists b; split; eauto 10.
Qed.

(** Every params other than [null] that does not pass is answered by
    the error -32600. *)
Lemma target_rejects (params : Value) (e : Exception) :
  params ≠ VNull → target params = inl e → e = invalid_params.
Proof.
  unfold target, rejected.
  destruct params as [| |?|?|?|?|fields]; try (simpl; congruence).
  intros _. simpl.
  destruct (field "blockNumber" fields) as [| |?|b|?|?|?]; simpl; try congruence.
  destruct (field "transactionIndex" fields) as [| |?|tx|?|?|?],
           (field "logIndex" fields) as [| |?|li|?|?|?];
    simpl; congruence.
Qed.

(** A request that passes, for an id neither being generated nor
    generated, returns the id of its target once the snapshot is there. *)
Lemma handleGenerateSnapshot_returns (fuel : nat) (params : Value) (to : Bound)
      (h : t Snapshot Serialized) snapshot position :
  target params = inr to →
  snapshotId (chainId (mem (events h))) to ∉ generating h →
  generated h !! snapshotId (chainId (mem (events h))) to = None →
  getSnapshot Snapshot Serialized empty processParsedLog deserialize
              fuel (events h) (snapshots h) to None
  = Some (inr (snapshot, position)) →
  ∃ h', handleGenerateSnapshot fuel params h
        = Some (Ok (snapshotId (chainId (mem (events h))) to) h').
Proof.
  intros Ht Hg Hd Hs. unfold Handler.handleGenerateSnapshot.
  rewrite Ht. rewrite bool_decide_eq_false_2 by done.
  rewrite bool_decide_eq_false_2 by (rewrite Hd; by intros [? ?]).
  rewrite Hs. eauto.
Qed.

(** C8, as the code has it.  The params [null] is of type 'object', so
    the first test lets it through and the read of [params.blockNumber]
    throws a TypeError: the handler does not answer [null] by the
    JSON-RPC error -32600, whatever its state. *)
Theorem handleGenerateSnapshot_null (fuel : nat) (h : t Snapshot Serialized) :
  handleGenerateSnapshot fuel VNull h
  = Some (Throw (TypeError "Cannot read properties of null (reading 'blockNumber')") h).
Proof. reflexivity. Qed.

End HandlerFacts.

(** A request for block 30 on the store of three sub-tables. *)
Lemma handleGenerateSnapshot_block :
  outcome_value
    <$> Handler.handleGenerateSnapshot (list string) (list string) [] Replay.nameLog id
          4 (Handler.VObject [("blockNumber", Handler.VNumber 30)]) Handler.idle
  = Some (inr "100-30").
Proof. vm_compute. reflexivity. Qed.
(** * Reorg *)

Section ReorgRows.
Import EventStore Reorg.

#[local] Instance keeps_rows_refl : Reflexive keeps_rows.
Proof. by intros d name row. Qed.

#[local] Instance keeps_rows_trans : Transitive keeps_rows.
Proof. intros d1 d2 d3 H1 H2 name row Hr. by apply H2, H1. Qed.

Lemma model_create_rows name e w :
  keeps_rows (db w) (db (outcome_state (model_create name e w))).
Proof.
  unfold model_create.
  destruct (db_tables (db w) !! name) as [table|] eqn:Ht; [|by intros ? ?].
  destruct (existsb (conflicts e) table); [by intros ? ?|]. simpl.
  intros name' row. unfold rows. simpl.
  destruct (decide (name' = name)) as [->|Hne].
  - rewrite lookup_insert_eq, Ht. simpl. intros Hr. apply elem_of_app. by left.
  - by rewrite lookup_insert_ne.
Qed.

Lemma insert_rows e k index w :
  keeps_rows (db w) (db (outcome_state (insert e k index w))).
Proof.
  unfold insert, bind, getModel, modify.
  destruct (decide (_ ∈ models (mem w))); [|by intros ? ?].
  etrans; [|apply model_create_rows]. by intros ? ?.
Qed.

Lemma allocate_rows e w :
  keeps_rows (db w) (db (outcome_state (allocate e w))).
Proof.
  rewrite allocate_unfold. unfold bind, getModel.
  destruct (decide (_ ∈ models (mem (allocated e w)))); [|by intros ? ?].
  etrans; [|apply model_create_rows]. by intros ? ?.
Qed.

Lemma create_rows e w : keeps_rows (db w) (db (outcome_state (create e w))).
Proof.
  unfold create. repeat case_match; auto using insert_rows, allocate_rows.
Qed.

Lemma forEach_create_rows (l : list Event) (w : World) :
  keeps_rows (db w)
    (db (outcome_state (forEach l (λ event, let* _ := create event in ret tt)%js w))).
Proof.
  revert w. induction l as [|e l IH]; intros w; [by intros ? ?|].
  cbn [forEach]. unfold bind at 1. unfold bind at 1.
  pose proof (create_rows e w) as He.
  destruct (create e w) as [r w1|x w1]; simpl in *; [|done].
  unfold ret at 1. etrans; [exact He|apply IH].
Qed.

(** [commit] with nothing to destroy keeps every row, whether the
    transaction is committed or rolled back. *)
Lemma commit_rows (needSave : list Event) (w : World) :
  keeps_rows (db w) (db (outcome_state (commit needSave [] w))).
Proof.
  unfold commit. cbn [forEach]. unfold bind at 1. unfold ret at 1.
  pose proof (forEach_create_rows needSave w) as H.
  destruct (forEach needSave _ w) as [r w1|x w1]; simpl in *; done.
Qed.

End ReorgRows.

Section ReorgFacts.
Import EventStore Utils Reorg.

Variable sha256 : string → string.
Variable gate : string.
Variable config : string.
Variable gateInterface : Log → option LogDescription.
Variable configInterface : Log → option LogDescription.
Variable instrumentInterface : Log → option LogDescription.
Variable fetch : Z → Z → Exception + list Log.
Variable getBlock : Z → option Z.

Local Abbreviation check_log :=
  (Reorg.check_log sha256 gate config gateInterface configInterface
                   instrumentInterface getBlock).
Local Abbreviation check_logs :=
  (Reorg.check_logs sha256 gate config gateInterface configInterface
                    instrumentInterface getBlock).
Local Abbreviation check_batches :=
  (Reorg.check_batches sha256 gate config gateInterface configInterface
                       instrumentInterface fetch getBlock).
Local Abbreviation sound :=
  (Reorg.sound sha256 gate config gateInterface configInterface
               instrumentInterface fetch getBlock).
Local Abbreviation supplemented :=
  (Reorg.supplemented sha256 gate config gateInterface configInterface
                      instrumentInterface getBlock).

Lemma js_insert_elem {A} (cmp : A → A → Z) (x y : A) (l : list A) :
  y ∈ js_insert cmp x l → y = x ∨ y ∈ l.
Proof.
  induction l as [|z l IH]; simpl.
  - intros ->%list_elem_of_singleton. by left.
  - destruct (cmp z x <=? 0).
    + intros [->|Hy]%elem_of_cons; [right; by left|].
      destruct (IH Hy) as [->|Hl]; [by left|right; by right].
    + intros [->|Hy]%elem_of_cons; [by left|by right].
Qed.

Lemma js_sort_elem {A} (cmp : A → A → Z) (y : A) (l : list A) :
  y ∈ js_sort cmp l → y ∈ l.
Proof.
  unfold js_sort.
  assert (H : ∀ acc, y ∈ foldl (λ acc x, js_insert cmp x acc) acc l → y ∈ acc ∨ y ∈ l).
  { induction l as [|x l IH]; intros acc; simpl; [by left|].
    intros [Hy|Hy]%IH; [|right; by right].
    apply js_insert_elem in Hy as [->|Hy]; [right; by left|by left]. }
  intros Hy. apply H in Hy as [Hy|Hy]; [by apply elem_of_nil in Hy|done].
Qed.

Lemma sound_start (c : Z) : sound c (mkCheck ∅ [] None).
Proof.
  constructor; simpl; [done|done|]. by intros e []%elem_of_nil.
Qed.

(** One turn keeps the locals sound, for a log that [fetch] returned. *)
Lemma check_log_sound (c a b : Z) (logs : list Log) (log : Log) (k k' : Check) :
  fetch a b = inr logs → log ∈ logs →
  sound c k → check_log c log k = inr k' → sound c k'.
Proof.
  intros Hfetch Hlog [Hnone Hmin Hfetched]. unfold Reorg.check_log.
  destruct (calcEventId _ _ _ _ _ _) as [x|id] eqn:Hid; [done|].
  destruct (existed k !! id); [intros [= <-]; by constructor|].
  destruct (Storage.interface_of _ _ _ _ _ _ _) as [parsed|] eqn:Hparsed;
    [|intros [= <-]; by constructor].
  destruct (getBlock _) as [timestamp|] eqn:Hblock; [|intros [= <-]; by constructor].
  destruct (log_transactionHash log) as [txHash|] eqn:Htx; [|done].
  simpl. intros [= <-].
  set (row := supplement c id (formatHexString txHash) log parsed timestamp).
  assert (Hrow : supplemented c log row).
  { exists txHash, parsed, timestamp. by rewrite Htx. }
  constructor; simpl.
  - split; [done|]. by intros []%app_eq_nil.
  - intros n [= <-]. split.
    + destruct (reorgedBlockNumber k) as [m|] eqn:Hm.
      * destruct (Hmin m eq_refl) as [(e & He & Hbn) _].
        destruct (Z.min_spec m (log_blockNumber log)) as [[_ ->]|[_ ->]].
        -- exists e. split; [|done]. apply elem_of_app. by left.
        -- exists row. split; [|done]. apply elem_of_app. right. by left.
      * exists row. split; [|done]. apply elem_of_app. right. by left.
    + intros e [He|He%list_elem_of_singleton]%elem_of_app; [|subst e].
      * destruct (reorgedBlockNumber k) as [m|] eqn:Hm.
        -- destruct (Hmin m eq_refl) as [_ Hall]. specialize (Hall e He). lia.
        -- apply proj1 in Hnone. rewrite Hnone in He by done.
           by apply elem_of_nil in He.
      * simpl. destruct (reorgedBlockNumber k); lia.
  - intros e [He|He%list_elem_of_singleton]%elem_of_app; [by apply Hfetched|].
    subst e. by exists a, b, logs, log.
Qed.

Lemma check_logs_sound (c a b : Z) (logs batch : list Log) (k k' : Check) :
  fetch a b = inr logs → (∀ log, log ∈ batch → log ∈ logs) →
  sound c k → check_logs c batch k = inr k' → sound c k'.
Proof.
  intros Hfetch. revert k.
  induction batch as [|log batch IH]; intros k Hsub Hk; simpl; [by intros [= <-]|].
  destruct (check_log c log k) as [x|k1] eqn:H1; [done|].
  apply IH; [intros l Hl; apply Hsub; by right|].
  apply (check_log_sound c a b logs log k k1); [done|apply Hsub; by left|done|done].
Qed.

End ReorgFacts.
(** * Reorg: the check ends, destroys nothing and stays sound *)

Section ReorgClaims.
Import EventStore Utils Reorg.

Variable sha256 : string → string.
Variable gate : string.
Variable config : string.
Variable gateInterface : Log → option LogDescription.
Variable configInterface : Log → option LogDescription.
Variable instrumentInterface : Log → option LogDescription.
Variable fetch : Z → Z → Exception + list Log.
Variable getBlock : Z → option Z.

Local Abbreviation check_batches :=
  (Reorg.check_batches sha256 gate config gateInterface configInterface
                       instrumentInterface fetch getBlock).
Local Abbreviation checkEvents :=
  (Reorg.checkEvents sha256 gate config gateInterface configInterface
                     instrumentInterface fetch getBlock).
Local Abbreviation sound :=
  (Reorg.sound sha256 gate config gateInterface configInterface
               instrumentInterface fetch getBlock).
Local Abbreviation supplemented :=
  (Reorg.supplemented sha256 gate config gateInterface configInterface
                      instrumentInterface getBlock).

(** Without a limit, the scan of [findAll] stops at the [yield] after the
    loop of a place further on, or ends. *)
Lemma findAll_scan_unlimited (w : World) (c : FindOptions) (from : Z)
      (to : option Z) (idxs : list EventIndex) (i : nat) (previous : Z) :
  truthy_limit c = None →
  match findAll_scan w c from to idxs i previous with
  | inl _ => True
  | inr (None, st) => st = FA_Done
  | inr (Some _, st) => ∃ j, st = FA_Last j ∧ (i ≤ j < i + length idxs)%nat
  end.
Proof.
  intros Hlim. revert i previous.
  induction idxs as [|index rest IH]; intros i previous; simpl; [done|].
  assert (Hrest : match findAll_scan w c from to rest (S i) (idx_blockNumber index) with
                  | inl _ => True
                  | inr (None, st) => st = FA_Done
                  | inr (Some _, st) =>
                      ∃ j, st = FA_Last j ∧ (i ≤ j < i + S (length rest))%nat
                  end).
  { specialize (IH (S i) (idx_blockNumber index)).
    destruct (findAll_scan w c from to rest (S i) (idx_blockNumber index))
      as [|[[events|] st]]; [done| |done].
    destruct IH as (j & -> & Hj). exists j. split; [done|lia]. }
  destruct (selected from to previous index); [|done].
  destruct (getModel index w) as [model w1|]; [|done].
  unfold yield_or. rewrite Hlim.
  destruct (Nat.ltb 0 _); [|done].
  exists i. split; [done|lia].
Qed.

(** The loop over [findAll] ends within the turns that are left. *)
Lemma collect_total (w : World) (c : FindOptions) (fuel : nat)
      (st : FindAllState) (existed : gmap string Event) :
  truthy_limit c = None → (turns w st < fuel)%nat →
  is_Some (collect fuel c st w existed).
Proof.
  intros Hlim. revert st existed.
  induction fuel as [|fuel IH]; intros st existed Hfuel; [lia|].
  cbn [collect].
  assert (Hnext : match findAll_next c None None st None w with
                  | inl _ => True
                  | inr (None, _) => True
                  | inr (Some _, st') => (turns w st' < turns w st)%nat
                  end).
  { destruct st as [|i off|i|]; unfold findAll_next.
    - pose proof (findAll_scan_unlimited w c (from_of c None) (to_of c None)
                    (indexes (mem w)) O (-1) Hlim) as H.
      destruct (findAll_scan _ _ _ _ _ _ _) as [|[[events|] st']]; [done| |done].
      destruct H as (j & -> & Hj). simpl in *. lia.
    - rewrite Hlim. by destruct (indexes (mem w) !! i).
    - destruct (indexes (mem w) !! i) as [index|] eqn:Hi; [|done].
      pose proof (findAll_scan_unlimited w c (from_of c None) (to_of c None)
                    (drop (S i) (indexes (mem w))) (S i) (idx_blockNumber index) Hlim)
        as H.
      destruct (findAll_scan _ _ _ _ _ _ _) as [|[[events|] st']]; [done| |done].
      destruct H as (j & -> & Hj). rewrite length_drop in Hj.
      apply lookup_lt_Some in Hi. simpl. lia.
    - done. }
  destruct (findAll_next c None None st None w) as [|[[events|] st']]; [done| |done].
  apply IH. lia.
Qed.

(** With enough fuel the loop of the batches ends, and when it returns
    the locals are sound. *)
Lemma check_batches_sound (fuel : nat) (w : World) (from to : Z) (k : Check) :
  (S (length (indexes (mem w)) + Z.to_nat (to - from)) < fuel)%nat →
  sound (chainId (mem w)) k →
  ∃ r, check_batches fuel w from to k = Some r
       ∧ ∀ k', r = inr k' → sound (chainId (mem w)) k'.
Proof.
  revert from k. induction fuel as [|fuel IH]; intros from k Hfuel Hk; [lia|].
  cbn [Reorg.check_batches].
  destruct (from <=? to) eqn:Hle; [|exists (inr k); split; [done|by intros ? [= <-]]].
  apply Z.leb_le in Hle.
  destruct (collect_total w (window (chainId (mem w)) from (Z.min (from + 1000) to))
              (S fuel) FA_Start (existed k) eq_refl ltac:(simpl; lia))
    as [r Hr].
  rewrite Hr. destruct r as [x|existed']; [exists (inl x); split; [done|done]|].
  destruct (fetch from (Z.min (from + 1000) to)) as [x|logs] eqn:Hfetch;
    [exists (inl x); split; [done|done]|].
  destruct (Reorg.check_logs _ _ _ _ _ _ _ _ _ _) as [x|k1] eqn:Hlogs;
    [exists (inl x); split; [done|done]|].
  assert (Hk1 : sound (chainId (mem w)) k1).
  { eapply (check_logs_sound sha256 gate config gateInterface configInterface
              instrumentInterface fetch getBlock);
      [exact Hfetch|intros log; apply js_sort_elem| |exact Hlogs].
    destruct Hk as [H1 H2 H3]. by constructor. }
  destruct (Z.min (from + 1000) to =? to) eqn:Hend.
  - exists (inr k1). split; [done|by intros ? [= <-]].
  - apply Z.eqb_neq in Hend. apply IH; [lia|done].
Qed.


End ReorgClaims.

(** * The event store: lookups *)

Section StoreLookup.
Import EventStore.

(** Past the sub-table whose range holds the block number, no sub-table
    is probed. *)
Lemma findOne_loop_past (c : FindOptions) (n previous : Z) (idxs : list EventIndex)
      (w : World) :
  n ≤ previous → ranged w previous idxs →
  findOne_loop c (Some (Some n)) previous idxs w = Ok None w.
Proof.
  revert previous. induction idxs as [|index rest IH]; intros previous Hn Hr; [done|].
  destruct Hr as (Hlt & _ & _ & _ & Hr). cbn [findOne_loop].
  replace (previous <? n) with false by (symmetry; apply Z.ltb_ge; lia).
  simpl. apply IH; [lia|done].
Qed.

(** With a block number, [findOne] asks the one sub-table that [locate]
    gives, the one [create] inserts into. *)
Lemma findOne_loop_routes (c : FindOptions) (n previous : Z)
      (idxs : list EventIndex) (k0 : nat) (w : World) :
  ranged w previous idxs →
  findOne_loop c (Some (Some n)) previous idxs w
  = match locate previous n idxs k0 with
    | None => Ok None w
    | Some (_, index) =>
        match getModel index w with
        | Ok name _ => Ok (model_findOne c (rows (db w) name)) w
        | Throw e _ => Throw e w
        end
    end.
Proof.
  revert previous k0. induction idxs as [|index rest IH]; intros previous k0 Hr; [done|].
  destruct Hr as (Hlt & _ & _ & _ & Hr). cbn [findOne_loop locate].
  destruct ((previous <? n) && (n <=? idx_blockNumber index)) eqn:Hprobe.
  - unfold bind, getModel, get.
    destruct (decide (_ ∈ models (mem w))) as [Hin|]; [|done].
    destruct (model_findOne c _) as [found|]; [done|].
    apply andb_true_iff in Hprobe as [_ Hle%Z.leb_le].
    by apply findOne_loop_past.
  - by apply IH.
Qed.

Lemma head_filter_unique {A} (P : A → Prop) `{!∀ x, Decision (P x)}
      (l : list A) (x : A) :
  x ∈ l → P x → (∀ y, y ∈ l → P y → y = x) → head (filter P l) = Some x.
Proof.
  intros Hx HP Huniq.
  destruct (filter P l) as [|y l'] eqn:E.
  - assert (Hin : x ∈ filter P l) by (by apply list_elem_of_filter).
    rewrite E in Hin. by apply elem_of_nil in Hin.
  - assert (Hin : y ∈ filter P l) by (rewrite E; by left).
    apply list_elem_of_filter in Hin as [HPy Hy]. simpl. f_equal. by apply Huniq.
Qed.

(** In a table without two rows of one id, the query by id and block
    number finds the row. *)
Lemma model_findOne_byId (table : list Event) (e : Event) :
  NoDup (ev_id <$> table) → e ∈ table →
  model_findOne (byId (ev_id e) (ev_blockNumber e)) table = Some e.
Proof.
  intros Hnd He. unfold model_findOne, model_findAll. simpl.
  assert (Hh : ∀ l : list Event, head (take 1 l) = head l) by (by intros [|? ?]).
  rewrite Hh.
  apply head_filter_unique; [done| |].
  - unfold matches. simpl. rewrite Z.eqb_refl. simpl. by apply bool_decide_eq_true.
  - intros y Hy Hm. unfold matches in Hm. simpl in Hm.
    apply andb_true_iff in Hm as [_ Hid%bool_decide_eq_true].
    by apply (NoDup_fmap_eq ev_id table).
Qed.

Variable w : World.
Hypothesis Hok : store_ok w.

(** The maxima before place [k] are below every block number that the
    range of place [k] holds. *)
Lemma maxima_before (k j : nat) (a : EventIndex) :
  (j < k)%nat → indexes (mem w) !! j = Some a →
  idx_blockNumber a ≤ previous_of (indexes (mem w)) k.
Proof.
  intros Hjk Hj. destruct k as [|k]; [lia|].
  destruct (indexes (mem w) !! k) as [b|] eqn:Hk.
  - unfold previous_of. rewrite (previous_at_lookup _ _ _ _ Hk).
    destruct (decide (j = k)) as [->|Hne]; [simplify_eq; lia|].
    assert (Hlt : (j < k)%nat) by lia.
    pose proof (increasing_maxima w j k a b Hok Hlt Hj Hk). lia.
  - apply lookup_ge_None in Hk.
    assert (Hlast : ∀ p l n, (length l ≤ n)%nat →
              previous_at p l n = default p (idx_blockNumber <$> last l)).
    { intros p l. revert p. induction l as [|x l IH]; intros p n Hn.
      - by destruct n.
      - destruct n as [|n]; [simpl in Hn; lia|]. simpl.
        rewrite IH by (simpl in Hn; lia).
        destruct l as [|y l]; [done|].
        change (last (x :: y :: l)) with (last (y :: l)).
        destruct (last (y :: l)) eqn:E; [done|]. by apply last_None in E. }
    unfold previous_of. rewrite Hlast by lia.
    destruct (last (indexes (mem w))) as [b|] eqn:Hb.
    2: { apply last_None in Hb. rewrite Hb in Hj. done. }
    simpl. rewrite last_lookup in Hb.
    pose proof (lookup_lt_Some _ _ _ Hj) as Hlen.
    destruct (decide (j = pred (length (indexes (mem w))))) as [->|Hne].
    + rewrite Hj in Hb. simplify_eq. lia.
    + assert (Hlt : (j < pred (length (indexes (mem w))))%nat) by lia.
      pose proof (increasing_maxima w j _ a b Hok Hlt Hj Hb). lia.
Qed.

(** A stored event is where [locate] looks for its block number. *)
Lemma locate_at (p bn : Z) (idxs : list EventIndex) (k0 k : nat) index :
  idxs !! k = Some index → previous_at p idxs k < bn ≤ idx_blockNumber index →
  (∀ j a, (j < k)%nat → idxs !! j = Some a → idx_blockNumber a < bn) →
  locate p bn idxs k0 = Some ((k0 + k)%nat, index).
Proof.
  revert p k0 k. induction idxs as [|a l IH]; intros p k0 k Hk Hbn Hlt; [done|].
  destruct k as [|k]; simpl in *.
  - injection Hk as ->.
    replace (p <? bn) with true by (symmetry; apply Z.ltb_lt; lia).
    replace (bn <=? idx_blockNumber index) with true by (symmetry; apply Z.leb_le; lia).
    simpl. do 2 f_equal. lia.
  - pose proof (Hlt O a ltac:(lia) eq_refl) as Ha.
    replace (bn <=? idx_blockNumber a) with false by (symmetry; apply Z.leb_gt; lia).
    rewrite andb_false_r.
    rewrite (IH _ (S k0) k Hk Hbn); [do 2 f_equal; lia|].
    intros j b Hj Hb. apply (Hlt (S j)); [lia|done].
Qed.

Lemma locate_stored (k : nat) (index : EventIndex) (e : Event) :
  indexes (mem w) !! k = Some index → e ∈ table_of w index →
  locate (-1) (ev_blockNumber e) (indexes (mem w)) O = Some (k, index).
Proof.
  intros Hk He.
  pose proof (ok_range _ Hok k index e Hk He) as Hrange.
  apply (locate_at _ _ _ O k index Hk Hrange).
  intros j a Hjk Hj. pose proof (maxima_before k j a Hjk Hj). lia.
Qed.

(** [findOne] by id and block number returns the stored event of that
    id. *)
Lemma findOne_stored (k : nat) (index : EventIndex) (e : Event) :
  models_synced w →
  indexes (mem w) !! k = Some index → e ∈ table_of w index →
  findOne (byId (ev_id e) (ev_blockNumber e)) None w = Ok (Some e) w.
Proof.
  intros Hmodels Hk He. unfold findOne.
  change (blockNumber_of (byId (ev_id e) (ev_blockNumber e)) None)
    with (Some (Some (ev_blockNumber e))).
  rewrite (findOne_loop_routes _ _ _ _ O w (store_ranged w Hok)).
  rewrite (locate_stored k index e Hk He).
  rewrite (getModel_synced w Hmodels k index Hk).
  f_equal. apply model_findOne_byId; [|done].
  apply (ok_unique _ Hok k index Hk).
Qed.

End StoreLookup.
(** * The event store: what is created can be found *)

Section StoreRoundTrip.
Import EventStore.

(** Where a successful [create] has put the event. *)
Lemma create_Ok_place (w w' : World) (e r : Event) :
  create e w = Ok r w' →
  ∃ k index, indexes (mem w') !! k = Some index ∧ e ∈ table_of w' index
             ∧ (models_synced w → models_synced w').
Proof.
  intros Hc.
  assert (Hins : ∀ k index, indexes (mem w) !! k = Some index →
            insert e k index w = Ok r w' →
            ∃ k index, indexes (mem w') !! k = Some index ∧ e ∈ table_of w' index
                       ∧ (models_synced w → models_synced w')).
  { intros k index Hk Hi.
    destruct (insert_Ok _ _ _ _ _ _ Hi) as (table & Hm & Htab & _ & -> & ->).
    exists k, (bump e index). split_and!.
    - cbn [mem indexes]. apply list_lookup_insert_eq. by apply lookup_lt_Some in Hk.
    - unfold table_of, table_name, rows. cbn [mem db chainId db_tables bump idx_index].
      change (concatModelName (chainId (mem w)) (idx_index index))
        with (table_name w index).
      rewrite lookup_insert_eq. simpl. apply elem_of_app. right. by left.
    - intros Hs index' Hin. cbn [mem indexes chainId models] in *.
      apply list_elem_of_lookup in Hin as [j Hj].
      destruct (decide (j = k)) as [->|Hne].
      + rewrite list_lookup_insert_eq in Hj by (by apply lookup_lt_Some in Hk).
        injection Hj as <-. exact Hm.
      + rewrite list_lookup_insert_ne in Hj by done.
        apply Hs. by apply list_elem_of_lookup_2 in Hj. }
  assert (Hall : allocate e w = Ok r w' →
            ∃ k index, indexes (mem w') !! k = Some index ∧ e ∈ table_of w' index
                       ∧ (models_synced w → models_synced w')).
  { intros Ha.
    destruct (allocate_Ok _ _ _ _ Ha) as (table & Hm & Htab & _ & -> & ->).
    exists (length (indexes (mem w))),
           (mkIndex (db_nextId (db w)) (ev_chainId e) (ev_blockNumber e)
                    (Z.of_nat (length (indexes (mem w)))) 1).
    split_and!.
    - cbn [mem indexes set_db allocated]. by rewrite lookup_app_r, Nat.sub_diag.
    - unfold table_of, table_name, rows.
      cbn [mem db chainId db_tables set_db allocated idx_index].
      rewrite lookup_insert_eq. simpl. apply elem_of_app. right. by left.
    - intros Hs index' Hin. cbn [mem indexes chainId models set_db allocated] in *.
      apply elem_of_app in Hin as [Hin|Hin%list_elem_of_singleton].
      + by apply Hs.
      + subst index'. exact Hm. }
  revert Hc. unfold create.
  destruct (indexes (mem w)) as [|a l] eqn:E; [exact Hall|]. rewrite <- E in *.
  destruct (locate (-1) (ev_blockNumber e) (indexes (mem w)) 0) as [[k index]|] eqn:Hloc.
  - apply locate_Some in Hloc as (j & -> & Hj & _). by apply Hins.
  - destruct (last (indexes (mem w))) as [latestIndex|] eqn:Hlast; [|exact Hall].
    destruct (idx_size latestIndex <? maxSizeForSingleTable (mem w)); [|exact Hall].
    apply Hins. rewrite last_lookup in Hlast.
    by replace (length (indexes (mem w)) - 1)%nat with (pred (length (indexes (mem w))))
      by lia.
Qed.

(** An event that [create] has stored is what [findOne] returns for its
    id and block number. *)
Theorem create_then_findOne (w w' : World) (e r : Event) :
  store_ok w → models_synced w →
  0 ≤ ev_blockNumber e → ev_chainId e = chainId (mem w) →
  create e w = Ok r w' →
  findOne (byId (ev_id e) (ev_blockNumber e)) None w' = Ok (Some e) w'.
Proof.
  intros Hok Hmodels Hbn Hchain Hc.
  pose proof (create_keeps_ok w w' e r Hok Hbn Hchain Hc) as Hok'.
  destruct (create_Ok_place w w' e r Hc) as (k & index & Hk & He & Hm).
  by apply (findOne_stored w' Hok' k index e (Hm Hmodels)).
Qed.

End StoreRoundTrip.

Lemma create_then_findOne_witness :
  EventStore.findOne
    (EventStore.byId (EventStore.ev_id (EventStore.eventAt 25))
                     (EventStore.ev_blockNumber (EventStore.eventAt 25)))
    None (EventStore.run (EventStore.create (EventStore.eventAt 25)) Replay.threeTables)
  = Ok (Some (EventStore.eventAt 25))
       (EventStore.run (EventStore.create (EventStore.eventAt 25)) Replay.threeTables).
Proof.
  apply (create_then_findOne Replay.threeTables _ (EventStore.eventAt 25)
           (EventStore.eventAt 25) threeTables_ok threeTables_models).
  - simpl. lia.
  - reflexivity.
  - vm_compute. reflexivity.
Defined.
(** * The event store: what is destroyed cannot be found *)

Section StoreDestroy.
Import EventStore.

(** [locate] reads the maxima of the indexes only. *)
Lemma locate_maxima (p bn : Z) (idxs idxs' : list EventIndex) (k0 : nat) :
  idx_blockNumber <$> idxs' = idx_blockNumber <$> idxs →
  locate p bn idxs' k0
  = match locate p bn idxs k0 with
    | Some (k, _) => (λ index, (k, index)) <$> idxs' !! (k - k0)%nat
    | None => None
    end.
Proof.
  revert idxs' p k0. induction idxs as [|a l IH]; intros [|a' l'] p k0 Heq;
    try done.
  injection Heq as Ha Hl. simpl. rewrite Ha.
  destruct ((p <? bn) && (bn <=? idx_blockNumber a)).
  - by rewrite Nat.sub_diag.
  - rewrite (IH l' _ (S k0) Hl).
    destruct (locate (idx_blockNumber a) bn l (S k0)) as [[k index]|] eqn:Hloc; [|done].
    apply locate_Some in Hloc as (j & -> & _).
    by replace (S k0 + j - k0)%nat with (S (S k0 + j - S k0)) by lia.
Qed.

(** No row of a table matches a condition once the rows that match it
    are gone. *)
Lemma model_findOne_kept (c : FindOptions) (table : list Event) :
  model_findOne c (filter (λ e, matches c e ≠ true) table) = None.
Proof.
  unfold model_findOne, model_findAll.
  set (c' := mkFind _ _ _ _ _).
  assert (Hm : ∀ e, matches c' e = matches c e) by done.
  assert (Hnil : filter (λ e, matches c' e = true)
                        (filter (λ e, matches c e ≠ true) table) = []).
  { destruct (filter _ (filter _ table)) as [|e l] eqn:E; [done|exfalso].
    assert (He : e ∈ e :: l) by (by left). rewrite <- E in He.
    apply list_elem_of_filter in He as [H1 [H2 _]%list_elem_of_filter].
    by rewrite Hm in H1. }
  rewrite Hnil. cbn [order_BTL offset limit c'].
  destruct (order_BTL c); cbn; by rewrite drop_nil.
Qed.


End StoreDestroy.

(** * The event store: a create that the table refuses *)

Section StoreConflict.
Import EventStore.

(** When the sub-table that takes the event holds a row of the same id,
    or of the same chain and position, [create] throws after [insert]
    has counted the event: the table is as it was, and the index, in
    memory, has a size one above the number of its rows. *)
Theorem create_conflict_counts (w : World) (e r : Event) (k : nat)
        (index : EventIndex) :
  store_ok w →
  locate (-1) (ev_blockNumber e) (indexes (mem w)) O = Some (k, index) →
  table_name w index ∈ models (mem w) →
  r ∈ table_of w index → conflicts e r = true →
  ∃ w', create e w = Throw (DatabaseError "unique constraint") w'
        ∧ db_tables (db w') = db_tables (db w)
        ∧ indexes (mem w') !! k = Some (bump e index)
        ∧ idx_size (bump e index)
          = Z.of_nat (length (table_of w' (bump e index))) + 1.
Proof.
  intros Hok Hloc Hm Hr Hc.
  destruct (locate_Some _ _ _ _ _ _ Hloc) as (j & -> & Hj & _).
  change (0 + j)%nat with j in *.
  unfold table_of, rows in Hr.
  destruct (db_tables (db w) !! table_name w index) as [table|] eqn:Htab;
    [|by apply elem_of_nil in Hr].
  simpl in Hr.
  assert (Hex : existsb (conflicts e) table = true).
  { apply existsb_exists. exists r. split; [by apply list_elem_of_In|done]. }
  eexists. split_and!.
  - unfold create. destruct (indexes (mem w)) as [|a l] eqn:E; [done|].
    rewrite <- E in *. rewrite Hloc.
    unfold insert, bind, getModel, modify, model_create.
    fold (table_name w index). rewrite decide_True by exact Hm.
    cbn [db set_db set_indexes EventIndex_save db_tables].
    fold (table_name w index). rewrite Htab, Hex. reflexivity.
  - reflexivity.
  - cbn [mem set_db set_indexes indexes].
    apply list_lookup_insert_eq. by apply lookup_lt_Some in Hj.
  - cbn [bump idx_size]. rewrite (ok_size _ Hok j index Hj).
    unfold table_of, table_name, rows.
    cbn [mem db set_db set_indexes chainId db_tables EventIndex_save idx_index].
    reflexivity.
Qed.

End StoreConflict.

Lemma create_conflict_counts_witness :
  ∃ w', EventStore.create (EventStore.eventAt 20) Replay.threeTables
        = Throw (DatabaseError "unique constraint") w'
        ∧ EventStore.db_tables (EventStore.db w')
          = EventStore.db_tables (EventStore.db Replay.threeTables)
        ∧ EventStore.indexes (EventStore.mem w') !! 1%nat
          = Some (EventStore.bump (EventStore.eventAt 20)
                                  (EventStore.mkIndex 2 100 20 1 1))
        ∧ EventStore.idx_size (EventStore.bump (EventStore.eventAt 20)
                                               (EventStore.mkIndex 2 100 20 1 1))
          = Z.of_nat (length (EventStore.table_of w'
                                (EventStore.bump (EventStore.eventAt 20)
                                                 (EventStore.mkIndex 2 100 20 1 1))))
            + 1.
Proof.
  apply (create_conflict_counts Replay.threeTables (EventStore.eventAt 20)
           (EventStore.eventAt 20) 1 (EventStore.mkIndex 2 100 20 1 1)
           threeTables_ok).
  - vm_compute. reflexivity.
  - apply (bool_decide_unpack _). vm_compute. reflexivity.
  - apply (bool_decide_unpack _). vm_compute. reflexivity.
  - vm_compute. reflexivity.
Defined.
(** * Snapshot ids are read back *)

Section SnapshotIds.
Import EventStore Replay Handler SnapshotId.

(** The digits of a number are read with their value. *)
Lemma digits_acc (d : Decimal.uint) (acc : positive) :
  digits 10 (NilEmpty.string_of_uint d) (Some (Z.pos acc))
  = Some (Z.pos (Pos.of_uint_acc d acc)).
Proof.
  revert acc. induction d; intros acc; [done|..];
    cbn [NilEmpty.string_of_uint digits];
    match goal with
    | |- context [digit_of 10 ?a] =>
        let v := eval vm_compute in (digit_of 10 a) in
        change (digit_of 10 a) with v
    end;
    cbn [default id]; cbn [Pos.of_uint_acc];
    match goal with
    | |- digits 10 _ (Some ?z) = _ =>
        match goal with
        | |- _ = Some (Z.pos (Pos.of_uint_acc _ ?p)) =>
            replace z with (Z.pos p) by lia
        end
    end; apply IHd.
Qed.

Lemma digits_uint (d : Decimal.uint) (acc0 : option Z) :
  default 0 acc0 = 0 →
  digits 10 (NilEmpty.string_of_uint d) acc0
  = match d with
    | Decimal.Nil => acc0
    | _ => Some (Z.of_N (Pos.of_uint d))
    end.
Proof.
  revert acc0. induction d; intros acc0 H0; [done|..];
    cbn [NilEmpty.string_of_uint digits];
    match goal with
    | |- context [digit_of 10 ?a] =>
        let v := eval vm_compute in (digit_of 10 a) in
        change (digit_of 10 a) with v
    end;
    rewrite H0; cbn [Pos.of_uint Z.of_N];
    try (change (0 * 10 + 0) with 0; rewrite (IHd (Some 0) eq_refl);
         destruct d; done);
    match goal with
    | |- digits 10 _ (Some ?z) = Some (Z.pos (Pos.of_uint_acc _ ?p)) =>
        change z with (Z.pos p)
    end; apply digits_acc.
Qed.

(** A number that is not negative is printed as its digits. *)
Lemma string_of_Z_digits (n : Z) :
  0 ≤ n →
  ∃ d, d ≠ Decimal.Nil ∧ string_of_Z n = NilEmpty.string_of_uint d
       ∧ Z.of_N (Pos.of_uint d) = n.
Proof.
  intros Hn. destruct n as [|p|p]; [| |lia].
  - exists (Decimal.D0 Decimal.Nil). done.
  - exists (Pos.to_uint p). split_and!.
    + apply DecimalPos.Unsigned.to_uint_nonnil.
    + unfold string_of_Z. simpl. unfold NilZero.string_of_uint.
      pose proof (DecimalPos.Unsigned.to_uint_nonnil p).
      by destruct (Pos.to_uint p).
    + by rewrite DecimalPos.Unsigned.of_to.
Qed.

(** [parseInt] reads a printed number back. *)
Lemma parseInt_uint (d : Decimal.uint) :
  d ≠ Decimal.Nil →
  parseInt (NilEmpty.string_of_uint d) = Int (Z.of_N (Pos.of_uint d)).
Proof.
  intros Hd.
  assert (Hdigits : digits 10 (NilEmpty.string_of_uint d) None
                    = Some (Z.of_N (Pos.of_uint d))).
  { rewrite digits_uint by done. by destruct d. }
  destruct d as [|d|d|d|d|d|d|d|d|d|d]; [done|..];
    try (unfold parseInt; cbn [NilEmpty.string_of_uint trimStart] in *;
         match goal with
         | |- context [isWhiteSpace ?a] =>
             let v := eval vm_compute in (isWhiteSpace a) in
             change (isWhiteSpace a) with v
         end;
         cbv iota beta zeta; rewrite Hdigits; f_equal; lia).
  destruct d as [|d|d|d|d|d|d|d|d|d|d];
    unfold parseInt; cbn [NilEmpty.string_of_uint trimStart] in *;
    match goal with
    | |- context [isWhiteSpace ?a] =>
        let v := eval vm_compute in (isWhiteSpace a) in
        change (isWhiteSpace a) with v
    end;
    cbv iota beta zeta; rewrite Hdigits; f_equal; lia.
Qed.

Lemma parseInt_string_of_Z (n : Z) : 0 ≤ n → parseInt (string_of_Z n) = Int n.
Proof.
  intros (d & Hd & -> & <-)%string_of_Z_digits. by apply parseInt_uint.
Qed.

(** A printed number has no separator in it. *)
Lemma split_uint (d : Decimal.uint) (rest : string) :
  split "-" (NilEmpty.string_of_uint d +:+ String "-" rest)
  = NilEmpty.string_of_uint d :: split "-" rest.
Proof.
  induction d; [done|..]; simpl; simpl in IHd; by rewrite IHd.
Qed.

Lemma split_uint_last (d : Decimal.uint) :
  split "-" (NilEmpty.string_of_uint d) = [NilEmpty.string_of_uint d].
Proof.
  induction d; [done|..]; simpl; simpl in IHd; by rewrite IHd.
Qed.

Lemma split_string_of_Z (n : Z) (rest : string) :
  0 ≤ n →
  split "-" (string_of_Z n +:+ "-" +:+ rest) = string_of_Z n :: split "-" rest.
Proof.
  intros (d & Hd & -> & _)%string_of_Z_digits. apply split_uint.
Qed.

Lemma split_string_of_Z_last (n : Z) :
  0 ≤ n → split "-" (string_of_Z n) = [string_of_Z n].
Proof.
  intros (d & Hd & -> & _)%string_of_Z_digits. apply split_uint_last.
Qed.

(** The numbers of a target are not negative. *)
Local Abbreviation natural to :=
  (match to with
   | AtBlock n => 0 ≤ n
   | AtPosition p =>
       0 ≤ pos_blockNumber p ∧ 0 ≤ pos_transactionIndex p ∧ 0 ≤ pos_logIndex p
   end).

Lemma parse_printed (c : Z) (to : Bound) :
  0 ≤ c → natural to →
  parseSnapshotId (snapshotId c to)
  = match to with
    | AtBlock n => mkParsedId (Int c) (Int n) None None
    | AtPosition p =>
        mkParsedId (Int c) (Int (pos_blockNumber p))
                   (Some (Int (pos_transactionIndex p)))
                   (Some (Int (pos_logIndex p)))
    end.
Proof.
  intros Hc Hto. unfold parseSnapshotId, snapshotId.
  destruct to as [n|[b t l]]; simpl in Hto.
  - rewrite split_string_of_Z, split_string_of_Z_last by done.
    unfold element. simpl. by rewrite !parseInt_string_of_Z.
  - destruct Hto as (Hb & Ht & Hl). cbn [pos_blockNumber pos_transactionIndex pos_logIndex].
    rewrite !split_string_of_Z, split_string_of_Z_last by done.
    unfold element. simpl. by rewrite !parseInt_string_of_Z.
Qed.

Lemma reorged_printed (n c : Z) (to : Bound) :
  0 ≤ c → natural to →
  reorged n (snapshotId c to) = (n <=? bound_blockNumber to).
Proof.
  intros Hc Hto. unfold reorged. rewrite parse_printed by done. by destruct to.
Qed.




End SnapshotIds.



(** * The snapshot API handler: a snapshot is generated once *)

Section HandlerAgain.
Import EventStore Replay Handler.

Variable Snapshot : Type.
Variable Serialized : Type.
Variable empty : Snapshot.
Variable processParsedLog : Snapshot → Log → LogDescription → Snapshot.
Variable deserialize : Serialized → Snapshot.

Local Abbreviation handleGenerateSnapshot :=
  (Handler.handleGenerateSnapshot Snapshot Serialized empty processParsedLog deserialize).

(** Once a request has returned an id, the same request returns it
    again whatever the fuel, and leaves the handler as it is: the
    snapshot is in [generated] and nothing is replayed. *)
Theorem handleGenerateSnapshot_again (fuel fuel' : nat) (params : Value)
        (h h' : t Snapshot Serialized) (id : string) :
  handleGenerateSnapshot fuel params h = Some (Ok id h') →
  handleGenerateSnapshot fuel' params h' = Some (Ok id h').
Proof.
  unfold Handler.handleGenerateSnapshot.
  destruct (target params) as [x|to]; [done|].
  destruct (bool_decide (_ ∈ generating h)) eqn:Hg; [done|].
  destruct (bool_decide (is_Some (generated h !! _))) eqn:Hd.
  - intros [= <- <-]. by rewrite Hg, Hd.
  - destruct (getSnapshot _ _ _ _ _ _ _ _ _ _) as [[x|[snapshot position]]|];
      [done| |done].
    intros [= <- <-]. cbn [events generating generated].
    rewrite bool_decide_eq_false_2
      by (intros [_ Hn]%elem_of_difference; apply Hn; by apply elem_of_singleton).
    rewrite bool_decide_eq_true_2; [done|].
    destruct (bool_decide (_ = _)) eqn:Hu.
    + rewrite lookup_insert_eq. by eexists.
    + apply bool_decide_eq_false in Hu.
      rewrite lookup_insert_ne by done. rewrite lookup_insert_eq. by eexists.
Qed.

End HandlerAgain.

Lemma handleGenerateSnapshot_again_witness :
  ∃ snapId h',
    Handler.handleGenerateSnapshot (list string) (list string) [] Replay.nameLog
      (λ s, s) 4 (Handler.VObject [("blockNumber", Handler.VNumber 30)]) Handler.idle
    = Some (Ok snapId h')
    ∧ Handler.handleGenerateSnapshot (list string) (list string) [] Replay.nameLog
        (λ s, s) 0 (Handler.VObject [("blockNumber", Handler.VNumber 30)]) h'
      = Some (Ok snapId h').
Proof.
  eexists _, _. split; [vm_compute; reflexivity|].
  apply (handleGenerateSnapshot_again (list string) (list string) [] Replay.nameLog
           (λ s, s) 4 0 (Handler.VObject [("blockNumber", Handler.VNumber 30)])
           Handler.idle).
  vm_compute. reflexivity.
Defined.
(** * Replay and the stored snapshots *)

Section SnapshotsFacts.
Import EventStore Replay Snapshots.

Variable Snapshot : Type.
Variable Serialized : Type.
Variable empty : Snapshot.
Variable processParsedLog : Snapshot → Log → LogDescription → Snapshot.
Variable serialize : Snapshot → Serialized.
Variable deserialize : Serialized → Snapshot.

Local Abbreviation saveSnapshot := (Snapshots.saveSnapshot Snapshot Serialized serialize).
Local Abbreviation valid_base := (Replay.valid_base Snapshot empty processParsedLog).
Local Abbreviation valid_table :=
  (Replay.valid_table Snapshot Serialized empty processParsedLog deserialize).
Local Abbreviation getSnapshot :=
  (Replay.getSnapshot Snapshot Serialized empty processParsedLog deserialize).

(** [replay] applies to the snapshot, in the order of their positions,
    the stored events of the chain after [from] and up to [to], and
    returns the position of the last one, or [from] when there is
    none. *)
Theorem replay_applies_stored_events (w : World) (fuel : nat)
        (snapshot : Snapshot) (from : EventPosition) (to : Bound) :
  store_ok w → models_synced w →
  pos_blockNumber from ≤ bound_blockNumber to →
  (length (all_rows w) < fuel)%nat →
  let applied := stored_events w (first_test (AtPosition from) (Some to) (λ _, true)) in
  replay Snapshot processParsedLog fuel w snapshot from (Some to)
  = Some (inr (foldl (apply_event Snapshot processParsedLog) snapshot applied,
               default from (ev_position <$> last applied))).
Proof. intros Hok Hmodels Hle Hfuel. by apply replay_sound. Qed.

(** A second [saveSnapshot] at a position changes nothing: the row that
    is there stays, with its snapshot. *)
Theorem saveSnapshot_once (c : Z) (s s' : Snapshot) (p : EventPosition)
        (table : list (StoredSnapshot Serialized)) :
  saveSnapshot c s' p (saveSnapshot c s p table) = saveSnapshot c s p table.
Proof.
  unfold Snapshots.saveSnapshot at 2 3.
  destruct (existsb (at_position Serialized c p) table) eqn:E.
  - unfold Snapshots.saveSnapshot. by rewrite E.
  - unfold Snapshots.saveSnapshot. rewrite existsb_app. simpl.
    unfold at_position at 2. simpl.
    rewrite Z.eqb_refl, bool_decide_eq_true_2 by done. simpl.
    by rewrite orb_true_r.
Qed.

(** [saveSnapshot] keeps the table one of valid bases, when the
    snapshot saved is the fold of the events up to its position and
    serializing loses nothing of it. *)
Theorem saveSnapshot_keeps_valid (w : World) (s : Snapshot) (p : EventPosition)
        (table : list (StoredSnapshot Serialized)) :
  valid_table w table → valid_base w (s, p) →
  deserialize (serialize s) = s →
  (∃ row, row ∈ saveSnapshot (chainId (mem w)) s p table
          ∧ ss_chainId row = chainId (mem w) ∧ ss_position row = p)
  ∧ valid_table w (saveSnapshot (chainId (mem w)) s p table).
Proof.
  intros Htable Hbase Hser. unfold Snapshots.saveSnapshot.
  destruct (existsb (at_position Serialized (chainId (mem w)) p) table) eqn:E.
  - split; [|done].
    apply existsb_exists in E as (row & Hin%list_elem_of_In & Hat).
    apply andb_true_iff in Hat as [Hc%Z.eqb_eq Hp%bool_decide_eq_true].
    by exists row.
  - split.
    + eexists. split; [apply elem_of_app; right; by left|done].
    + intros row [Hin|Hin%list_elem_of_singleton]%elem_of_app Hc;
        [by apply Htable|].
      subst row. simpl. unfold Replay.valid_base in *. simpl in *.
      by rewrite Hser.
Qed.

(** The row that [nearest] gives is a row of the chain at or before the
    target. *)
Lemma nearest_in (table : list (StoredSnapshot Serialized)) (c : Z) (to : Bound)
      (row : StoredSnapshot Serialized) :
  nearest Serialized table c to = Some row →
  row ∈ table ∧ ss_chainId row = c ∧ at_or_before to (ss_position row) = true.
Proof.
  unfold nearest.
  assert (Hinv : ∀ l best,
            (∀ r, best = Some r →
                  r ∈ table ∧ ss_chainId r = c ∧ at_or_before to (ss_position r) = true) →
            (∀ r, r ∈ l → r ∈ table) →
            ∀ r, foldl (λ best row,
                          if (ss_chainId row =? c) && at_or_before to (ss_position row)
                          then match best with
                               | Some b => if pos_ltb (ss_position b) (ss_position row)
                                           then Some row else best
                               | None => Some row
                               end
                          else best) best l = Some r →
                 r ∈ table ∧ ss_chainId r = c ∧ at_or_before to (ss_position r) = true).
  { induction l as [|a l IH]; intros best Hbest Hl r; simpl; [apply Hbest|].
    apply IH; [|intros; apply Hl; by right].
    intros r'.
    destruct ((ss_chainId a =? c) && at_or_before to (ss_position a)) eqn:E;
      [|apply Hbest].
    apply andb_true_iff in E as [E1%Z.eqb_eq E2].
    assert (Ha : a ∈ table) by (apply Hl; by left).
    destruct best as [b|]; [|by intros [= <-]].
    destruct (pos_ltb (ss_position b) (ss_position a)); [by intros [= <-]|].
    apply Hbest. }
  apply (Hinv table None); done.
Qed.

(** Among former rows all strictly before it, the row appended is the
    nearest. *)
Lemma nearest_appended (table : list (StoredSnapshot Serialized)) (c : Z)
      (to : Bound) (row : StoredSnapshot Serialized) :
  ss_chainId row = c → at_or_before to (ss_position row) = true →
  (∀ r, r ∈ table → ss_chainId r = c → at_or_before to (ss_position r) = true →
        pos_ltb (ss_position r) (ss_position row) = true) →
  nearest Serialized (table ++ [row]) c to = Some row.
Proof.
  intros Hc Hto Hlt.
  pose proof (nearest_in table c to) as Hspec.
  unfold nearest in *. rewrite foldl_app. simpl.
  rewrite Hc, Z.eqb_refl, Hto. simpl.
  destruct (foldl _ None table) as [best|]; [|done].
  destruct (Hspec best eq_refl) as (Hin & Hbc & Hbt).
  by rewrite (Hlt best Hin Hbc Hbt).
Qed.

(** What [saveSnapshot] has stored at a position where nothing was,
    [getSnapshot] for that position gives back, without an event
    applied. *)
Theorem saveSnapshot_then_getSnapshot (w : World) (fuel : nat) (s : Snapshot)
        (p : EventPosition) (table : list (StoredSnapshot Serialized)) :
  store_ok w → models_synced w → (length (all_rows w) < fuel)%nat →
  existsb (at_position Serialized (chainId (mem w)) p) table = false →
  getSnapshot fuel w (saveSnapshot (chainId (mem w)) s p table) (AtPosition p) None
  = Some (inr (deserialize (serialize s), p)).
Proof.
  intros Hok Hmodels Hfuel Hnone.
  unfold Replay.getSnapshot, Snapshots.saveSnapshot. rewrite Hnone.
  rewrite nearest_appended; [|done|apply pos_leb_ltb; by right|].
  2: { intros r Hin Hc Hle. simpl in *.
       apply pos_leb_ltb in Hle as [Hlt|Heq]; [done|exfalso].
       assert (Hex : existsb (at_position Serialized (chainId (mem w)) p) table = true).
       { apply existsb_exists. exists r. split; [by apply list_elem_of_In|].
         unfold at_position. rewrite Hc, Z.eqb_refl. simpl.
         by apply bool_decide_eq_true. }
       congruence. }
  cbn [ss_snapshot ss_position].
  rewrite (replay_sound Snapshot processParsedLog w Hok Hmodels); [|simpl; lia|done].
  assert (Hempty : stored_events w (first_test (AtPosition p) (Some (AtPosition p))
                                              (λ _, true)) = []).
  { destruct (stored_events w _) as [|e l] eqn:E; [done|exfalso].
    assert (He : e ∈ e :: l) by (by left). rewrite <- E in He.
    unfold stored_events in He.
    rewrite merge_sort_Permutation, list_elem_of_filter in He.
    destruct He as [[_ He] _].
    unfold first_test in He. rewrite !andb_true_iff in He.
    destruct He as (H1 & H2 & _). simpl in *.
    rewrite pos_ltb_negb_leb in H1. by rewrite H2 in H1. }
  by rewrite Hempty.
Qed.

End SnapshotsFacts.

Section SnapshotsExamples.
Import EventStore Replay Snapshots.

Lemma replay_applies_stored_events_witness :
  replay (list string) nameLog 4 threeTables [] (mkPos 10 0 0) (Some (AtBlock 30))
  = Some (inr (foldl (apply_event (list string) nameLog) []
                     (stored_events threeTables
                        (first_test (AtPosition (mkPos 10 0 0)) (Some (AtBlock 30))
                                    (λ _, true))),
               default (mkPos 10 0 0)
                 (ev_position <$>
                  last (stored_events threeTables
                          (first_test (AtPosition (mkPos 10 0 0)) (Some (AtBlock 30))
                                      (λ _, true)))))).
Proof.
  apply (replay_applies_stored_events (list string) nameLog threeTables 4 []
           (mkPos 10 0 0) (AtBlock 30) threeTables_ok threeTables_models).
  - simpl. lia.
  - vm_compute. lia.
Defined.

Lemma oneStored_valid :
  valid_table (list string) (list string) [] nameLog (λ s, s) threeTables oneStored.
Proof. intros row ->%list_elem_of_singleton _. vm_compute. reflexivity. Qed.

Lemma saveSnapshot_keeps_valid_witness :
  (∃ row, row ∈ saveSnapshot (list string) (list string) (λ s, s)
                  (chainId (mem threeTables)) ["Trade"; "Trade"] (mkPos 20 0 0) oneStored
          ∧ ss_chainId row = chainId (mem threeTables)
          ∧ ss_position row = mkPos 20 0 0)
  ∧ valid_table (list string) (list string) [] nameLog (λ s, s) threeTables
      (saveSnapshot (list string) (list string) (λ s, s)
         (chainId (mem threeTables)) ["Trade"; "Trade"] (mkPos 20 0 0) oneStored).
Proof.
  apply (saveSnapshot_keeps_valid (list string) (list string) [] nameLog (λ s, s)
           (λ s, s) threeTables ["Trade"; "Trade"] (mkPos 20 0 0) oneStored).
  - apply oneStored_valid.
  - vm_compute. reflexivity.
  - reflexivity.
Defined.

Lemma saveSnapshot_then_getSnapshot_witness :
  getSnapshot (list string) (list string) [] nameLog (λ s, s) 4 threeTables
    (saveSnapshot (list string) (list string) (λ s, s)
       (chainId (mem threeTables)) ["Trade"; "Trade"] (mkPos 20 0 0) oneStored)
    (AtPosition (mkPos 20 0 0)) None
  = Some (inr (["Trade"; "Trade"], mkPos 20 0 0)).
Proof.
  apply (saveSnapshot_then_getSnapshot (list string) (list string) [] nameLog
           (λ s, s) (λ s, s) threeTables 4 ["Trade"; "Trade"] (mkPos 20 0 0)
           oneStored threeTables_ok threeTables_models).
  - vm_compute. lia.
  - vm_compute. reflexivity.
Defined.

End SnapshotsExamples.
(** * The pruning of the stored snapshots keeps one *)

Section Pruning.
Import Snapshots.

Lemma filter_all {A} (P : A → Prop) `{!∀ x, Decision (P x)} (l : list A) :
  length (filter P l) = length l → filter P l = l.
Proof.
  induction l as [|a l IH]; [done|]. rewrite filter_cons.
  destruct (decide (P a)); simpl.
  - intros [= Hl]. by rewrite IH.
  - pose proof (length_filter P l). lia.
Qed.

Lemma removelast_last {A} (l : list A) (x : A) :
  last l = Some x → l = removelast l ++ [x].
Proof.
  induction l as [|a l IH]; [done|]. destruct l as [|b l]; [by intros [= ->]|].
  intros Hl. change (removelast (a :: b :: l)) with (a :: removelast (b :: l)).
  simpl. f_equal. by apply IH.
Qed.


End Pruning.

(** * The ingestor: how logs are held, released and ordered *)

Section SourceMore.
Import Source.

Lemma addLogs_fold (latest c : Z) (l confirming confirmed : list MixedLog) :
  foldl (λ '(confirming, confirmed) log,
           if latest - c <? blockNumber log
           then (confirming ++ [log], confirmed)
           else (confirming, confirmed ++ [log]))
        (confirming, confirmed) l
  = (confirming ++ filter (λ log, latest - c < blockNumber log) l,
     confirmed ++ filter (λ log, ¬ latest - c < blockNumber log) l).
Proof.
  revert confirming confirmed.
  induction l as [|x l IH]; intros confirming confirmed; simpl.
  - by rewrite !app_nil_r.
  - rewrite !filter_cons.
    destruct (latest - c <? blockNumber x) eqn:E; rewrite IH.
    + apply Z.ltb_lt in E.
      rewrite decide_True, decide_False by (done || lia).
      by rewrite <- app_assoc.
    + apply Z.ltb_ge in E.
      rewrite decide_False, decide_True by lia.
      by rewrite <- app_assoc.
Qed.

(** Logs that are not removed logs are appended to the held list,
    whatever their origin. *)
Lemma addConfirmingLogs_appends (from : Origin) (ls : list MixedLog) (s : t) :
  (from = fetch ∨ ∀ log, log ∈ ls → removed log = false) →
  addConfirmingLogs from ls s = set_confirmingLogs s (confirmingLogs s ++ ls).
Proof.
  intros Hfrom. destruct from; [done|].
  destruct Hfrom as [|Hls]; [done|]. unfold addConfirmingLogs.
  revert s. induction ls as [|x l IH]; intros s; simpl.
  - rewrite app_nil_r. by destruct s.
  - rewrite (Hls x) by (by left). rewrite andb_false_r.
    rewrite IH by (intros; apply Hls; by right).
    unfold set_confirmingLogs. simpl. by rewrite <- app_assoc.
Qed.

(** [addLogs] loses no log and copies none: with a head, the logs above
    [latestBlockNumber - confirmation] are appended to the held list and
    the others are pushed downstream as one batch, both in the order of
    arrival; without a head every log is held. *)
Theorem addLogs_splits (from : Origin) (ls : list MixedLog) (s : t) :
  (from = fetch ∨ ∀ log, log ∈ ls → removed log = false) →
  match latestBlockNumber s with
  | None =>
      confirmingLogs (addLogs from ls s) = confirmingLogs s ++ ls
      ∧ logs (addLogs from ls s) = logs s
  | Some latest =>
      let held := filter (λ log, latest - confirmation s < blockNumber log) ls in
      let released := filter (λ log, ¬ latest - confirmation s < blockNumber log) ls in
      confirmingLogs (addLogs from ls s) = confirmingLogs s ++ held
      ∧ logs (addLogs from ls s)
        = logs s ++ match released with [] => [] | _ => [released] end
  end.
Proof.
  intros Hfrom. unfold addLogs.
  destruct (latestBlockNumber s) as [latest|] eqn:Hlatest.
  - rewrite addLogs_fold. cbn [fst snd app]. cbn zeta.
    set (held := filter (λ log, latest - confirmation s < blockNumber log) ls).
    set (released := filter (λ log, ¬ latest - confirmation s < blockNumber log) ls).
    assert (Hheld : from = fetch ∨ ∀ log, log ∈ held → removed log = false).
    { destruct Hfrom as [|H]; [by left|right].
      intros log [_ Hin]%list_elem_of_filter. by apply H. }
    assert (Hs : ∀ s' : t,
              s' = match held with
                   | [] => s
                   | _ :: _ => addConfirmingLogs from held s
                   end →
              confirmingLogs s' = confirmingLogs s ++ held ∧ logs s' = logs s).
    { intros s' ->. destruct held as [|x l] eqn:E; [by rewrite app_nil_r|].
      by rewrite addConfirmingLogs_appends. }
    destruct (Hs _ eq_refl) as [H1 H2].
    destruct released as [|x l]; [by rewrite app_nil_r|].
    unfold logs_push. simpl. by rewrite H1, H2.
  - by rewrite addConfirmingLogs_appends.
Qed.

(** A log that the subscription delivers and then takes back, with
    [removed] set, leaves the held list as it was, when no held log was
    at its place before. *)
Theorem addConfirmingLogs_removed (log : Log) (s : t) :
  log_removed log = false →
  (∀ held, held ∈ confirmingLogs s → same_log (PlainLog log) held = false) →
  let taken := mkLog (log_address log) (log_blockNumber log) (log_blockHash log)
                     (log_transactionHash log) (log_transactionIndex log)
                     (log_logIndex log) true in
  addConfirmingLogs subscribe [PlainLog log; PlainLog taken] s = s.
Proof.
  intros Hr Hnone taken. unfold addConfirmingLogs. simpl. rewrite Hr. simpl.
  assert (Hfind : ∀ l, (∀ held, held ∈ l → same_log (PlainLog taken) held = false) →
            findIndex (same_log (PlainLog taken)) (l ++ [PlainLog log])
            = Some (length l)).
  { induction l as [|x l IH]; intros Hl; simpl.
    - unfold same_log. simpl. rewrite !Z.eqb_refl.
      by rewrite bool_decide_eq_true_2.
    - rewrite (Hl x) by (by left). rewrite IH; [done|].
      intros; apply Hl; by right. }
  rewrite Hfind by exact Hnone.
  assert (Hdel : ∀ (l : list MixedLog) x, delete (length l) (l ++ [x]) = l).
  { induction l as [|y l IH]; intros x; simpl; [done|]. by rewrite IH. }
  rewrite Hdel. by destruct s.
Qed.

(** [compareLog] changes sign when its arguments are exchanged. *)
Lemma compareLog_opp (a b : EventPosition) : compareLog b a = - compareLog a b.
Proof.
  unfold compareLog.
  destruct (pos_blockNumber a - pos_blockNumber b =? 0) eqn:E1,
           (pos_blockNumber b - pos_blockNumber a =? 0) eqn:E1';
    rewrite ?Z.eqb_eq, ?Z.eqb_neq in *; simpl; try lia.
  destruct (pos_transactionIndex a - pos_transactionIndex b =? 0) eqn:E2,
           (pos_transactionIndex b - pos_transactionIndex a =? 0) eqn:E2';
    rewrite ?Z.eqb_eq, ?Z.eqb_neq in *; simpl; lia.
Qed.

(** Of two logs, one is before the other. *)
Lemma compareMixedLog_total (a b : MixedLog) :
  ¬ compareMixedLog a b ≤ 0 → compareMixedLog b a ≤ 0.
Proof.
  unfold compareMixedLog. rewrite (compareLog_opp (position a) (position b)).
  destruct (isLog a), (isLog b);
    repeat match goal with
           | |- context [?x =? 0] => destruct (x =? 0) eqn:?
           end;
    rewrite ?Z.eqb_eq, ?Z.eqb_neq in *; lia.
Qed.

Lemma js_insert_perm {A} (cmp : A → A → Z) (x : A) (l : list A) :
  js_insert cmp x l ≡ₚ x :: l.
Proof.
  induction l as [|y l IH]; simpl; [done|].
  destruct (cmp y x <=? 0); [|done]. rewrite IH. apply Permutation_swap.
Qed.

Lemma js_sort_perm {A} (cmp : A → A → Z) (l : list A) : js_sort cmp l ≡ₚ l.
Proof.
  unfold js_sort.
  assert (H : ∀ acc, foldl (λ acc x, js_insert cmp x acc) acc l ≡ₚ acc ++ l).
  { induction l as [|x l IH]; intros acc; simpl; [by rewrite app_nil_r|].
    rewrite IH, js_insert_perm. simpl. by rewrite Permutation_middle. }
  by rewrite H.
Qed.

Lemma js_insert_sorted {A} (cmp : A → A → Z) (x : A) (l : list A) :
  (∀ a b, ¬ cmp a b ≤ 0 → cmp b a ≤ 0) →
  Sorted (λ a b, cmp a b ≤ 0) l → Sorted (λ a b, cmp a b ≤ 0) (js_insert cmp x l).
Proof.
  intros Htotal Hs. induction Hs as [|y l Hl IH Hy]; simpl.
  - by repeat constructor.
  - destruct (cmp y x <=? 0) eqn:E.
    + apply Z.leb_le in E. constructor; [done|].
      destruct l as [|z l]; simpl; [by constructor|].
      destruct (cmp z x <=? 0); constructor; [|done]. by inversion Hy.
    + apply Z.leb_gt in E. constructor; [by constructor|].
      constructor. apply Htotal. lia.
Qed.

Lemma js_sort_sorted {A} (cmp : A → A → Z) (l : list A) :
  (∀ a b, ¬ cmp a b ≤ 0 → cmp b a ≤ 0) →
  Sorted (λ a b, cmp a b ≤ 0) (js_sort cmp l).
Proof.
  intros Htotal. unfold js_sort.
  assert (H : ∀ acc, Sorted (λ a b, cmp a b ≤ 0) acc →
            Sorted (λ a b, cmp a b ≤ 0) (foldl (λ acc x, js_insert cmp x acc) acc l)).
  { induction l as [|x l IH]; intros acc Hacc; simpl; [done|].
    by apply IH, js_insert_sorted. }
  apply H. constructor.
Qed.

(** [confirm] pushes the held logs downstream as one batch, each log
    once, in the order of [compareMixedLog]: by block number, then
    transaction index, then log index, the placeholder of a re-fetch
    before the log of its position. *)
Theorem confirm_batch_ordered (s : t) :
  confirmingLogs s ≠ [] →
  ∃ batch, logs (confirm s) = logs s ++ [batch]
           ∧ batch ≡ₚ confirmingLogs s
           ∧ Sorted (λ a b, compareMixedLog a b ≤ 0) batch.
Proof.
  intros Hne. exists (js_sort compareMixedLog (confirmingLogs s)). split_and!.
  - by apply confirm_holds_nothing.
  - apply js_sort_perm.
  - apply js_sort_sorted, compareMixedLog_total.
Qed.

End SourceMore.

Lemma addLogs_splits_witness :
  Source.confirmingLogs
    (Source.addLogs Source.subscribe
       [Source.PlainLog (Source.blockLog 101); Source.PlainLog (Source.blockLog 103)]
       Source.atHead103)
  = Source.confirmingLogs Source.atHead103
    ++ filter (λ log, 103 - Source.confirmation Source.atHead103 < Source.blockNumber log)
         [Source.PlainLog (Source.blockLog 101); Source.PlainLog (Source.blockLog 103)]
  ∧ Source.logs
      (Source.addLogs Source.subscribe
         [Source.PlainLog (Source.blockLog 101); Source.PlainLog (Source.blockLog 103)]
         Source.atHead103)
    = Source.logs Source.atHead103
      ++ match filter (λ log, ¬ 103 - Source.confirmation Source.atHead103
                                < Source.blockNumber log)
                 [Source.PlainLog (Source.blockLog 101);
                  Source.PlainLog (Source.blockLog 103)] with
         | [] => []
         | released => [released]
         end.
Proof.
  apply (addLogs_splits Source.subscribe
           [Source.PlainLog (Source.blockLog 101); Source.PlainLog (Source.blockLog 103)]
           Source.atHead103).
  right. intros log Hin. apply list_elem_of_In in Hin. simpl in Hin.
  destruct Hin as [<-|[<-|[]]]; reflexivity.
Defined.

Lemma addConfirmingLogs_removed_witness :
  Source.addConfirmingLogs Source.subscribe
    [Source.PlainLog (Source.blockLog 104);
     Source.PlainLog
       (mkLog (log_address (Source.blockLog 104)) (log_blockNumber (Source.blockLog 104))
              (log_blockHash (Source.blockLog 104))
              (log_transactionHash (Source.blockLog 104))
              (log_transactionIndex (Source.blockLog 104))
              (log_logIndex (Source.blockLog 104)) true)]
    Source.afterInjection
  = Source.afterInjection.
Proof.
  apply (addConfirmingLogs_removed (Source.blockLog 104) Source.afterInjection).
  - reflexivity.
  - intros held Hin. apply list_elem_of_In in Hin. vm_compute in Hin.
    destruct Hin as [<-|[<-|[]]]; vm_compute; reflexivity.
Defined.

Lemma confirm_batch_ordered_witness :
  ∃ batch, Source.logs (Source.confirm Source.afterInjection)
           = Source.logs Source.afterInjection ++ [batch]
           ∧ batch ≡ₚ Source.confirmingLogs Source.afterInjection
           ∧ Sorted (λ a b, Source.compareMixedLog a b ≤ 0) batch.
Proof.
  apply (confirm_batch_ordered Source.afterInjection). vm_compute. discriminate.
Defined.
(** * Storage: a batch is stored as a whole or not at all *)

Section StorageMore.
Import EventStore Utils Storage.

Variable sha256 : string → string.
Variable PROCESSED : Z.
Variable gate : string.
Variable config : string.
Variable gateInterface : Log → option LogDescription.
Variable configInterface : Log → option LogDescription.
Variable instrumentInterface : Log → option LogDescription.
Variable handler :
  string → option (string → Log → LogDescription → bool → M t unit).

Local Abbreviation process_log :=
  (Storage.process_log sha256 PROCESSED gate config gateInterface configInterface
                       instrumentInterface handler).
Local Abbreviation process_logs :=
  (Storage.process_logs sha256 PROCESSED gate config gateInterface configInterface
                        instrumentInterface handler).
Local Abbreviation processLogs :=
  (Storage.processLogs sha256 PROCESSED gate config gateInterface configInterface
                       instrumentInterface handler).

(** A turn of the loop does not lower [latest]. *)
Lemma process_log_latest (reprocessing : bool) (log : Log)
      (given : option LogDescription) (latest latest' : Z) (s s' : t) :
  process_log reprocessing log given latest s = Ok latest' s' → latest ≤ latest'.
Proof.
  unfold Storage.process_log, bind, get, ret, of_result, lift, modify.
  repeat case_match; intros; simplify_eq; lia.
Qed.

Lemma process_logs_latest (reprocessing : bool) (logs : list Log)
      (parsedLogs : option (list LogDescription)) (i : nat) (latest latest' : Z)
      (s s' : t) :
  process_logs reprocessing logs parsedLogs i latest s = Ok latest' s' →
  latest ≤ latest'.
Proof.
  revert i latest s. induction logs as [|log logs IH]; intros i latest s; simpl.
  - unfold ret. intros [= <- <-]. lia.
  - unfold bind at 1.
    destruct (process_log _ _ _ _ _) as [l1 s1|] eqn:E; [|done].
    intros H%IH. apply process_log_latest in E. lia.
Qed.


End StorageMore.
(** * Reorg: a commit stores every row or none *)

Section ReorgCommit.
Import EventStore Reorg.

Lemma forEach_create_stores (l : list Event) (w w' : World) :
  forEach l (λ event, let* _ := create event in ret tt)%js w = Ok tt w' →
  ∀ e, e ∈ l → ∃ name, e ∈ rows (db w') name.
Proof.
  revert w. induction l as [|x l IH]; intros w Hf e He; [by apply elem_of_nil in He|].
  cbn [forEach] in Hf. unfold bind at 1 in Hf. unfold bind at 1 in Hf.
  destruct (create x w) as [r w1|] eqn:Hc; [|done]. unfold ret at 1 in Hf.
  apply elem_of_cons in He as [->|He]; [|by apply (IH w1)].
  destruct (create_Ok_place w w1 x r Hc) as (k & index & _ & Hx & _).
  exists (table_name w1 index).
  pose proof (forEach_create_rows l w1) as Hkeep. rewrite Hf in Hkeep.
  by apply Hkeep.
Qed.


End ReorgCommit.
(** * Stored rows read back as logs *)

Section UtilsFacts.
Import EventStore Utils.

Lemma lower_ascii_idemp (c : ascii) : lower_ascii (lower_ascii c) = lower_ascii c.
Proof. destruct c as [[] [] [] [] [] [] [] []]; vm_compute; reflexivity. Qed.

Lemma toLowerCase_idemp (s : string) : toLowerCase (toLowerCase s) = toLowerCase s.
Proof. induction s as [|c s IH]; simpl; [done|]. by rewrite lower_ascii_idemp, IH. Qed.

Lemma substring_all (s : string) : String.substring 0 (String.length s) s = s.
Proof. induction s as [|c s IH]; simpl; [done|]. by rewrite IH. Qed.

(** With the prefix put back, a formatted string formats to itself. *)
Lemma formatHexString_prefixed (s : string) :
  formatHexString ("0x" +:+ s) = toLowerCase s.
Proof.
  change ("0x" +:+ s) with (String "0" (String "x" s)).
  unfold formatHexString, startsWith. simpl.
  rewrite Nat.sub_0_r.
  replace (String.prefix "" s) with true by (by destruct s).
  by rewrite substring_all.
Qed.

Lemma formatHexString_stored (s : string) :
  formatHexString ("0x" +:+ formatHexString s) = formatHexString s.
Proof.
  rewrite formatHexString_prefixed. unfold formatHexString.
  destruct (startsWith "0x" s); apply toLowerCase_idemp.
Qed.


End UtilsFacts.
(** * A restart recovers the indexes *)

Section RestartFacts.
Import EventStore Restart.

#[local] Instance id_le_transitive : Transitive id_le.
Proof. intros x y z. unfold id_le. lia. Qed.

#[local] Instance id_le_either : Total id_le.
Proof. intros x y. unfold id_le. lia. Qed.

Lemma create_Ok_cases (w w' : World) (e r : Event) :
  create e w = Ok r w' →
  (∃ k index, indexes (mem w) !! k = Some index ∧ insert e k index w = Ok r w')
  ∨ allocate e w = Ok r w'.
Proof.
  unfold create.
  destruct (indexes (mem w)) as [|a l] eqn:E; [by right|]. rewrite <- E in *.
  destruct (locate (-1) (ev_blockNumber e) (indexes (mem w)) 0) as [[k index]|] eqn:Hloc.
  - apply locate_Some in Hloc as (j & -> & Hj & _). intros Hi. left. by exists j, index.
  - destruct (last (indexes (mem w))) as [latestIndex|] eqn:Hlast; [|by right].
    destruct (idx_size latestIndex <? maxSizeForSingleTable (mem w)); [|by right].
    intros Hi. left. exists (length (indexes (mem w)) - 1)%nat, latestIndex.
    split; [|done]. rewrite last_lookup in Hlast.
    by replace (length (indexes (mem w)) - 1)%nat with (pred (length (indexes (mem w))))
      by lia.
Qed.

(** [index.save()] keeps the ids of the rows, hence their order. *)
Lemma save_by_id (index : EventIndex) (d : Database) :
  by_id d → by_id (EventIndex_save index d).
Proof.
  unfold by_id. rewrite EventIndex_save_rows.
  induction 1 as [|x l Hl IH Hx]; [constructor|].
  rewrite fmap_cons. constructor; [done|].
  rewrite Forall_fmap. eapply Forall_impl; [exact Hx|].
  intros y Hy. simpl. by rewrite !replace_row_id.
Qed.

Lemma written_by_id (w w' : World) :
  store_ok w → by_id (db w) → written w w' → by_id (db w').
Proof.
  intros Hok Hby [e r Hbn Hc Hcreate|c b n Hd].
  - destruct (create_Ok_cases _ _ _ _ Hcreate) as [(k & index & Hk & Hi)|Ha].
    + destruct (insert_Ok _ _ _ _ _ _ Hi) as (table & _ & _ & _ & _ & ->).
      unfold by_id. cbn [db db_EventIndex]. by apply save_by_id.
    + destruct (allocate_Ok _ _ _ _ Ha) as (table & _ & _ & _ & _ & ->).
      unfold by_id. cbn [db set_db allocated db_EventIndex].
      apply StronglySorted_app. split_and!; [|done|by repeat constructor].
      intros x y Hx ->%list_elem_of_singleton. simpl.
      pose proof (ok_nextId _ Hok) as Hnext. rewrite Forall_forall in Hnext.
      by apply Hnext.
  - destruct (destroyOne_Ok _ _ _ _ _ Hd) as (bn & _ & H).
    destruct (locate (-1) bn (indexes (mem w)) 0) as [[k index]|];
      [|by destruct H as [_ ->]].
    destruct H as (table & _ & _ & H). cbn zeta in H.
    destruct (0 <? n); subst w'; [|done].
    unfold by_id. cbn [db db_EventIndex]. by apply save_by_id.
Qed.

Lemma started_rows (c maxSize : Z) :
  db_EventIndex (db (run init (fresh c maxSize))) = [].
Proof.
  destruct (init_synced (fresh c maxSize) eq_refl) as (w' & Hinit & Hs).
  unfold run. rewrite Hinit. simpl.
  by rewrite (synced_rows _ _ _ Hs).
Qed.

(** What holds of every store written from an empty one. *)
Lemma reached_ok (c maxSize : Z) (w : World) :
  rtc written (run init (fresh c maxSize)) w → store_ok w ∧ by_id (db w).
Proof.
  revert w. apply rtc_ind_r.
  - split; [apply started_ok|]. unfold by_id. rewrite started_rows. constructor.
  - intros w1 w2 Hr Hstep [Hok Hby]. split.
    + by apply (written_keeps_ok w1).
    + by apply (written_by_id w1).
Qed.

(** The invariants read the instance through its chain and its indexes,
    and the database through its rows. *)
Lemma store_ok_ext (w w' : World) :
  chainId (mem w') = chainId (mem w) → indexes (mem w') = indexes (mem w) →
  db_EventIndex (db w') = db_EventIndex (db w) → db_nextId (db w') = db_nextId (db w) →
  (∀ name, rows (db w') name = rows (db w) name) →
  store_ok w → store_ok w'.
Proof.
  intros Hc Hi Hr Hn Hrows [H1 H2 H3 H4 H5 H6 H7 H8 H9].
  assert (Ht : ∀ index, table_of w' index = table_of w index).
  { intros index. unfold table_of, table_name. by rewrite Hc, Hrows. }
  constructor; rewrite ?Hc, ?Hi, ?Hr, ?Hn; try done;
    intros; rewrite ?Ht in *; rewrite ?Hrows; eauto.
Qed.

(** A new instance on the database of a store that was written from an
    empty one: [init] loads the indexes the former instance had, the
    models of all of them are there, no row has changed, and the
    invariants hold again. *)
Theorem restart_recovers_indexes (c maxSize : Z) (w : World) :
  rtc written (run init (fresh c maxSize)) w →
  ∃ w', init (reopen w) = Ok tt w'
        ∧ indexes (mem w') = indexes (mem w)
        ∧ db_EventIndex (db w') = db_EventIndex (db w)
        ∧ (∀ name, rows (db w') name = rows (db w) name)
        ∧ models_synced w'
        ∧ store_ok w'.
Proof.
  intros [Hok Hby]%reached_ok.
  destruct (init_synced (reopen w) eq_refl) as (w' & Hinit & _).
  destruct (init_models (reopen w) w' eq_refl eq_refl Hinit) as [Hs Hm].
  cbn zeta in Hs, Hm. cbn [reopen mem db chainId] in Hs, Hm.
  set (loaded := EventIndex_findAll (chainId (mem w)) (db w)) in *.
  assert (Hloaded : loaded = indexes (mem w)).
  { unfold loaded, EventIndex_findAll. rewrite (ok_coherent _ Hok).
    assert (Hsorted : StronglySorted (λ a b, idx_id a < idx_id b) (indexes (mem w))).
    { rewrite <- (ok_coherent _ Hok). by apply StronglySorted_filter. }
    apply (StronglySorted_unique_strong id_le).
    - intros x y Hx Hy Hxy Hyx. rewrite merge_sort_Permutation in Hx.
      rewrite <- (ok_coherent _ Hok) in Hx, Hy.
      apply list_elem_of_filter in Hx as [_ Hx], Hy as [_ Hy].
      apply (NoDup_fmap_eq idx_id (db_EventIndex (db w))); [apply Hok|done|done|].
      unfold id_le in *. lia.
    - apply StronglySorted_merge_sort; apply _.
    - clear -Hsorted. induction Hsorted as [|x l Hl IH Hx]; constructor; [done|].
      eapply Forall_impl; [exact Hx|]. intros y Hy. unfold id_le. simpl in Hy. lia.
    - apply merge_sort_Permutation. }
  assert (Hidx : indexes (mem w') = indexes (mem w)).
  { by rewrite (synced_indexes _ _ _ Hs). }
  assert (Hrows : ∀ name, rows (db w') name = rows (db w) name).
  { intros name. unfold rows.
    destruct (db_tables (db w) !! name) as [table|] eqn:Ht.
    - by rewrite (synced_kept _ _ _ Hs name table Ht).
    - destruct (decide (Exists (λ i, name = concatModelName (chainId (mem w)) i)
                               (init_places loaded))) as [Hex|Hno].
      + apply Exists_exists in Hex as (i & Hi & Hname).
        rewrite (synced_created _ _ _ Hs name Ht); [done|apply not_elem_of_empty|].
        by exists i.
      + rewrite (synced_absent _ _ _ Hs name Ht); [done|].
        right. intros (i & Hi & Hname). apply Hno, Exists_exists. by exists i. }
  exists w'. split_and!; [done|done|by rewrite (synced_rows _ _ _ Hs)|done| |].
  - intros index Hin. rewrite Hidx in Hin.
    rewrite (synced_chainId _ _ _ Hs). simpl. apply Hm.
    exists (idx_index index). split; [|done].
    apply elem_of_init_places. left. exists index. by rewrite Hloaded.
  - apply (store_ok_ext w w'); [|done| | |done|done].
    + by rewrite (synced_chainId _ _ _ Hs).
    + by rewrite (synced_rows _ _ _ Hs).
    + by rewrite (synced_nextId _ _ _ Hs).
Qed.

End RestartFacts.

Lemma threeTables_written :
  rtc EventStore.written (EventStore.run EventStore.init (EventStore.fresh 100 1))
      Replay.threeTables.
Proof.
  unfold Replay.threeTables. simpl foldl.
  eapply rtc_l;
    [apply (EventStore.written_create _ _ (EventStore.eventAt 10) (EventStore.eventAt 10));
     [simpl; lia|reflexivity|vm_compute; reflexivity]|].
  eapply rtc_l;
    [apply (EventStore.written_create _ _ (EventStore.eventAt 20) (EventStore.eventAt 20));
     [simpl; lia|reflexivity|vm_compute; reflexivity]|].
  eapply rtc_l;
    [apply (EventStore.written_create _ _ (EventStore.eventAt 30) (EventStore.eventAt 30));
     [simpl; lia|reflexivity|vm_compute; reflexivity]|].
  vm_compute. apply rtc_refl.
Qed.

Lemma restart_recovers_indexes_witness :
  ∃ w', EventStore.init (Restart.reopen Replay.threeTables) = Ok tt w'
        ∧ EventStore.indexes (EventStore.mem w')
          = EventStore.indexes (EventStore.mem Replay.threeTables)
        ∧ EventStore.db_EventIndex (EventStore.db w')
          = EventStore.db_EventIndex (EventStore.db Replay.threeTables)
        ∧ (∀ name, EventStore.rows (EventStore.db w') name
                   = EventStore.rows (EventStore.db Replay.threeTables) name)
        ∧ EventStore.models_synced w'
        ∧ EventStore.store_ok w'.
Proof.
  apply (restart_recovers_indexes 100 1 Replay.threeTables).
  apply threeTables_written.
Defined.
(** * Storage: logs that are stored are skipped *)

Section StorageSkip.
Import EventStore Utils Storage.

Variable sha256 : string → string.
Variable PROCESSED : Z.
Variable gate : string.
Variable config : string.
Variable gateInterface : Log → option LogDescription.
Variable configInterface : Log → option LogDescription.
Variable instrumentInterface : Log → option LogDescription.
Variable handler :
  string → option (string → Log → LogDescription → bool → M t unit).

Local Abbreviation process_log :=
  (Storage.process_log sha256 PROCESSED gate config gateInterface configInterface
                       instrumentInterface handler).
Local Abbreviation process_logs :=
  (Storage.process_logs sha256 PROCESSED gate config gateInterface configInterface
                        instrumentInterface handler).
Local Abbreviation processLogs :=
  (Storage.processLogs sha256 PROCESSED gate config gateInterface configInterface
                       instrumentInterface handler).

(** The log has the id and the block number of a stored row. *)
Local Abbreviation stored_log w log :=
  (∃ k index row,
     indexes (mem w) !! k = Some index ∧ row ∈ table_of w index
     ∧ calcEventId sha256 (chainId (mem w)) (log_address log) (log_blockHash log)
                   (log_transactionHash log) (log_logIndex log) = inr (ev_id row)
     ∧ ev_blockNumber row = log_blockNumber log).

Lemma process_log_stored (log : Log) (latest : Z) (s : t) :
  store_ok (common_events s) → models_synced (common_events s) →
  stored_log (common_events s) log →
  process_log false log None latest s = Ok latest s.
Proof.
  intros Hok Hmodels (k & index & row & Hk & Hrow & Hid & Hbn).
  unfold Storage.process_log, bind, get, of_result, lift. rewrite Hid.
  rewrite <- Hbn.
  rewrite (findOne_stored (common_events s) Hok k index row Hmodels Hk Hrow).
  simpl. unfold ret. by destruct s.
Qed.

Lemma process_logs_stored (logs : list Log) (i : nat) (latest : Z) (s : t) :
  store_ok (common_events s) → models_synced (common_events s) →
  Forall (λ log, stored_log (common_events s) log) logs →
  process_logs false logs None i latest s = Ok latest s.
Proof.
  intros Hok Hmodels Hall. revert i.
  induction Hall as [|log logs Hlog Hall IH]; intros i; [done|].
  cbn [Storage.process_logs]. unfold bind at 1.
  change (None ≫= (.!! i)) with (@None LogDescription).
  rewrite process_log_stored by done. apply IH.
Qed.

(** A batch of new logs, each with the id and the block number of a
    stored row, changes nothing but the saved cache: no handler runs, no
    row is written, nothing is emitted, and [processLogs] returns
    true. *)
Theorem processLogs_skips_stored (logs : list Log) (s : t) :
  store_ok (common_events s) → models_synced (common_events s) →
  Forall (λ log,
            ∃ k index row,
              indexes (mem (common_events s)) !! k = Some index
              ∧ row ∈ table_of (common_events s) index
              ∧ calcEventId sha256 (chainId (mem (common_events s)))
                            (log_address log) (log_blockHash log)
                            (log_transactionHash log) (log_logIndex log)
                = inr (ev_id row)
              ∧ ev_blockNumber row = log_blockNumber log) logs →
  processLogs logs None s
  = Ok true (mk (common_events s) (cache_blockNumber s) (cache_blockNumber s)
                (emitted s)).
Proof.
  intros Hok Hmodels Hall. unfold Storage.processLogs. unfold bind at 1.
  change (bool_decide (is_Some (@None (list LogDescription)))) with false.
  rewrite process_logs_stored by done.
  unfold bind, get, put, ret. rewrite Z.eqb_refl. by simpl.
Qed.

End StorageSkip.

Lemma processLogs_skips_stored_witness :
  Storage.processLogs Reorg.byIndex 1 "gate" "config" (λ _, None) (λ _, None)
    (λ _, Some (mkParsed "Trade" "{}")) (λ _, None)
    [mkLog "0xa" 20 "0xb" (Some "0xt") 0 0 false] None Storage.upToDate
  = Ok true (Storage.mk (Storage.common_events Storage.upToDate)
                        (Storage.cache_blockNumber Storage.upToDate)
                        (Storage.cache_blockNumber Storage.upToDate)
                        (Storage.emitted Storage.upToDate)).
Proof.
  apply (processLogs_skips_stored Reorg.byIndex 1 "gate" "config" (λ _, None)
           (λ _, None) (λ _, Some (mkParsed "Trade" "{}")) (λ _, None)
           [mkLog "0xa" 20 "0xb" (Some "0xt") 0 0 false] Storage.upToDate
           threeTables_ok threeTables_models).
  constructor; [|constructor].
  exists 1%nat, (EventStore.mkIndex 2 100 20 1 1), (EventStore.eventAt 20).
  split_and!.
  - vm_compute. reflexivity.
  - apply (bool_decide_unpack _). vm_compute. reflexivity.
  - vm_compute. reflexivity.
  - reflexivity.
Defined.
(** * Reorg: a commit refuses a row listed twice *)

Section CommitDuplicate.
Import EventStore Reorg.

Lemma conflicts_same (e : Event) : conflicts e e = true.
Proof. unfold conflicts. by rewrite bool_decide_eq_true_2. Qed.

(** A successful [create] leaves every indexed row at its place. *)
Lemma create_keeps_place (w w' : World) (e r row : Event) (k : nat)
      (index : EventIndex) :
  create e w = Ok r w' →
  indexes (mem w) !! k = Some index → row ∈ table_of w index →
  ∃ index', indexes (mem w') !! k = Some index' ∧ row ∈ table_of w' index'.
Proof.
  intros Hc Hk Hrow.
  pose proof (create_rows e w) as Hkeep. rewrite Hc in Hkeep. simpl in Hkeep.
  destruct (create_Ok_cases w w' e r Hc) as [(k0 & index0 & Hk0 & Hi)|Ha].
  - destruct (insert_Ok _ _ _ _ _ _ Hi) as (table & _ & _ & _ & _ & Hw).
    destruct (decide (k = k0)) as [->|Hne].
    + assert (index0 = index) as -> by congruence.
      exists (bump e index). split.
      * rewrite Hw. cbn [mem indexes]. apply list_lookup_insert_eq.
        by apply lookup_lt_Some in Hk.
      * apply (Hkeep (table_name w index)) in Hrow.
        unfold table_of, table_name in *. rewrite Hw in *. exact Hrow.
    + exists index. split.
      * rewrite Hw. cbn [mem indexes]. by rewrite list_lookup_insert_ne.
      * apply (Hkeep (table_name w index)) in Hrow.
        unfold table_of, table_name in *. rewrite Hw in *. exact Hrow.
  - destruct (allocate_Ok _ _ _ _ Ha) as (table & _ & _ & _ & _ & Hw).
    exists index. split.
    + rewrite Hw. cbn [mem indexes set_db allocated]. by apply lookup_app_l_Some.
    + apply (Hkeep (table_name w index)) in Hrow.
      unfold table_of, table_name in *. rewrite Hw in *. exact Hrow.
Qed.

(** [create] throws on a row that is stored. *)
Lemma create_stored_throws (w : World) (e : Event) (k : nat) (index : EventIndex) :
  store_ok w →
  indexes (mem w) !! k = Some index → e ∈ table_of w index →
  ∀ r w', create e w ≠ Ok r w'.
Proof.
  intros Hok Hk He r w' Hc.
  pose proof (locate_stored w Hok k index e Hk He) as Hloc.
  unfold create in Hc.
  destruct (indexes (mem w)) as [|a l] eqn:E; [done|]. rewrite <- E in *.
  rewrite Hloc in Hc.
  destruct (insert_Ok _ _ _ _ _ _ Hc) as (table & _ & Htab & Hex & _).
  unfold table_of, rows in He. rewrite Htab in He. simpl in He.
  assert (existsb (conflicts e) table = true) as Hex'; [|congruence].
  apply existsb_exists. exists e. split; [by apply list_elem_of_In|].
  apply conflicts_same.
Qed.

(** The rows of the chain, at block numbers that are not negative. *)
Local Abbreviation of_chain w :=
  (λ e : Event, 0 ≤ ev_blockNumber e ∧ ev_chainId e = chainId (mem w)).

Lemma create_chain (w w' : World) (e r : Event) :
  create e w = Ok r w' → chainId (mem w') = chainId (mem w).
Proof.
  intros Hc. pose proof (create_frame e w) as Hf. rewrite Hc in Hf.
  by destruct Hf as [? _].
Qed.

(** A run of creates that succeeds had no stored row in its list. *)
Lemma forEach_create_fresh (l : list Event) (w w' : World) (e : Event) (k : nat)
      (index : EventIndex) :
  store_ok w → models_synced w → Forall (of_chain w) l →
  indexes (mem w) !! k = Some index → e ∈ table_of w index →
  forEach l (λ event, let* _ := create event in ret tt)%js w = Ok tt w' →
  e ∉ l.
Proof.
  revert w k index.
  induction l as [|x l IH]; intros w k index Hok Hm Hall Hk He Hf;
    [by apply not_elem_of_nil|].
  cbn [forEach] in Hf. unfold bind at 1 in Hf. unfold bind at 1 in Hf.
  destruct (create x w) as [r w1|] eqn:Hc; [|done]. unfold ret at 1 in Hf.
  apply Forall_cons in Hall as [[Hbn Hchain] Hall].
  intros [->|Hin]%elem_of_cons.
  - by apply (create_stored_throws w x k index Hok Hk He r w1).
  - destruct (create_keeps_place w w1 x r e k index Hc Hk He) as (index' & Hk' & He').
    destruct (create_Ok_place w w1 x r Hc) as (_ & _ & _ & _ & Hm').
    apply (IH w1 k index'); try done.
    + by apply (create_keeps_ok w w1 x r).
    + by apply Hm'.
    + rewrite (create_chain w w1 x r Hc). exact Hall.
Qed.

Lemma forEach_create_keeps_ok (l : list Event) (w w' : World) :
  store_ok w → models_synced w → Forall (of_chain w) l →
  forEach l (λ event, let* _ := create event in ret tt)%js w = Ok tt w' →
  store_ok w' ∧ models_synced w' ∧ chainId (mem w') = chainId (mem w).
Proof.
  revert w. induction l as [|x l IH]; intros w Hok Hm Hall Hf.
  - injection Hf as <-. done.
  - cbn [forEach] in Hf. unfold bind at 1 in Hf. unfold bind at 1 in Hf.
    destruct (create x w) as [r w1|] eqn:Hc; [|done]. unfold ret at 1 in Hf.
    apply Forall_cons in Hall as [[Hbn Hchain] Hall].
    destruct (create_Ok_place w w1 x r Hc) as (_ & _ & _ & _ & Hm').
    pose proof (create_chain w w1 x r Hc) as Hch.
    destruct (IH w1) as (? & ? & ?); try done.
    + by apply (create_keeps_ok w w1 x r).
    + by apply Hm'.
    + by rewrite Hch.
    + split_and!; [done|done|congruence].
Qed.


End CommitDuplicate.

(** * Reorg: a log fetched by two batches is supplemented twice *)

Section ReorgRead.
Import EventStore Reorg.

Lemma model_findAll_elem (c : FindOptions) (table : list Event) (e : Event) :
  e ∈ model_findAll c table → e ∈ table.
Proof.
  unfold model_findAll. intros He.
  assert (Hd : e ∈ drop (default 0%nat (offset c))
                    (if order_BTL c
                     then merge_sort position_le (filter (λ e, matches c e = true) table)
                     else filter (λ e, matches c e = true) table)).
  { destruct (limit c); [by apply (subseteq_take n)|done]. }
  apply (subseteq_drop _ _) in Hd.
  assert (Hf : e ∈ filter (λ e, matches c e = true) table).
  { destruct (order_BTL c); [|done]. by rewrite merge_sort_Permutation in Hd. }
  by apply list_elem_of_filter in Hf as [_ ?].
Qed.

Lemma rows_of_all (w : World) (index : EventIndex) (e : Event) :
  index ∈ indexes (mem w) → e ∈ rows_of w index → e ∈ all_rows w.
Proof.
  intros Hi He. unfold all_rows.
  apply list_elem_of_In, in_concat. exists (rows_of w index).
  split; [apply in_map; by apply list_elem_of_In|by apply list_elem_of_In].
Qed.

Lemma yield_or_rows (w : World) (c : FindOptions) (i off : nat)
      (events : list Event) (cont : Step FindAllState) :
  (∀ e, e ∈ events → e ∈ all_rows w) →
  match cont with
  | inr (Some events, _) => ∀ e, e ∈ events → e ∈ all_rows w
  | _ => True
  end →
  match yield_or c i off events cont with
  | inr (Some events, _) => ∀ e, e ∈ events → e ∈ all_rows w
  | _ => True
  end.
Proof.
  intros He Hc. unfold yield_or.
  destruct (truthy_limit c); repeat case_match; simplify_eq; done.
Qed.

(** What the scan yields are rows of the sub-tables of the indexes. *)
Lemma findAll_scan_rows (w : World) (c : FindOptions) (from : Z) (to : option Z)
      (idxs : list EventIndex) (i : nat) (previous : Z) :
  (∀ index, index ∈ idxs → index ∈ indexes (mem w)) →
  match findAll_scan w c from to idxs i previous with
  | inr (Some events, _) => ∀ e, e ∈ events → e ∈ all_rows w
  | _ => True
  end.
Proof.
  revert i previous. induction idxs as [|index rest IH]; intros i previous Hin;
    simpl; [done|].
  assert (Hrest : ∀ index, index ∈ rest → index ∈ indexes (mem w)).
  { intros x Hx. apply Hin. by right. }
  specialize (IH (S i) (idx_blockNumber index) Hrest).
  destruct (selected from to previous index); [|exact IH].
  unfold getModel. destruct (decide (_ ∈ models (mem w))) as [Hmod|]; [|done].
  apply yield_or_rows; [|exact IH].
  intros e He%model_findAll_elem.
  apply (rows_of_all w index); [apply Hin; by left|exact He].
Qed.

Lemma findAll_next_rows (w : World) (c : FindOptions) (st : FindAllState) :
  match findAll_next c None None st None w with
  | inr (Some events, _) => ∀ e, e ∈ events → e ∈ all_rows w
  | _ => True
  end.
Proof.
  assert (Hdrop : ∀ i index, index ∈ drop (S i) (indexes (mem w)) →
                             index ∈ indexes (mem w)).
  { intros i index. apply (subseteq_drop _ _). }
  destruct st as [|i off|i|]; unfold findAll_next.
  - by apply findAll_scan_rows.
  - destruct (indexes (mem w) !! i) as [index|] eqn:Hi; [|done].
    destruct (truthy_limit c) as [n|]; [|done].
    apply yield_or_rows; [|apply findAll_scan_rows, Hdrop].
    intros e He%model_findAll_elem.
    apply (rows_of_all w index); [by apply list_elem_of_lookup_2 in Hi|exact He].
  - destruct (indexes (mem w) !! i) as [index|]; [|done].
    apply findAll_scan_rows, Hdrop.
  - done.
Qed.

Lemma remember_fresh (existed : gmap string Event) (events : list Event)
      (id : string) :
  existed !! id = None → (∀ e, e ∈ events → ev_id e ≠ id) →
  remember existed events !! id = None.
Proof.
  unfold remember. revert existed.
  induction events as [|x events IH]; intros existed Hn He; [done|].
  simpl. apply IH.
  - rewrite lookup_insert_ne; [done|]. apply He. by left.
  - intros e Hin. apply He. by right.
Qed.

(** The loop over [findAll] remembers the ids of stored rows only. *)
Lemma collect_fresh (fuel : nat) (c : FindOptions) (st : FindAllState) (w : World)
      (existed existed' : gmap string Event) (id : string) :
  (∀ e, e ∈ all_rows w → ev_id e ≠ id) →
  existed !! id = None →
  collect fuel c st w existed = Some (inr existed') →
  existed' !! id = None.
Proof.
  intros Hdb. revert st existed.
  induction fuel as [|fuel IH]; intros st existed Hn; [done|]. simpl.
  pose proof (findAll_next_rows w c st) as Hrows.
  destruct (findAll_next c None None st None w) as [|[[events|] st']]; [done| |].
  - apply IH. apply remember_fresh; [done|]. intros e He. by apply Hdb, Hrows.
  - by intros [= <-].
Qed.

End ReorgRead.

Section ReorgGrows.
Import EventStore Utils Reorg.

Variable sha256 : string → string.
Variable gate : string.
Variable config : string.
Variable gateInterface : Log → option LogDescription.
Variable configInterface : Log → option LogDescription.
Variable instrumentInterface : Log → option LogDescription.
Variable fetch : Z → Z → Exception + list Log.
Variable getBlock : Z → option Z.

Local Abbreviation check_log :=
  (Reorg.check_log sha256 gate config gateInterface configInterface
                   instrumentInterface getBlock).
Local Abbreviation check_logs :=
  (Reorg.check_logs sha256 gate config gateInterface configInterface
                    instrumentInterface getBlock).
Local Abbreviation check_batches :=
  (Reorg.check_batches sha256 gate config gateInterface configInterface
                       instrumentInterface fetch getBlock).
Local Abbreviation by_position :=
  (λ a b : Log, compareLog (log_position a) (log_position b)).

(** A turn of the loop only appends to [needSave], and only forgets
    ids. *)
Lemma check_log_grows (c : Z) (l : Log) (k k' : Check) :
  check_log c l k = inr k' →
  (∃ tail, needSave k' = needSave k ++ tail)
  ∧ (∀ id, existed k !! id = None → existed k' !! id = None).
Proof.
  unfold Reorg.check_log. intros H.
  repeat case_match; simplify_eq; cbn [needSave existed].
  all: split; [first [by eexists | exists []; by rewrite app_nil_r]|try done].
  intros id Hn. destruct (decide (id = s)) as [->|Hne].
  - apply lookup_delete_eq.
  - by rewrite lookup_delete_ne.
Qed.

Lemma check_logs_grows (c : Z) (logs : list Log) (k k' : Check) :
  check_logs c logs k = inr k' →
  (∃ tail, needSave k' = needSave k ++ tail)
  ∧ (∀ id, existed k !! id = None → existed k' !! id = None).
Proof.
  revert k. induction logs as [|l logs IH]; intros k; simpl.
  - intros [= <-]. split; [exists []; by rewrite app_nil_r|done].
  - destruct (check_log c l k) as [|k1] eqn:H1; [done|]. intros H2.
    destruct (check_log_grows c l k k1 H1) as [[t1 Ht1] Hn1].
    destruct (IH k1 H2) as [[t2 Ht2] Hn2].
    split; [|by auto]. exists (t1 ++ t2). by rewrite Ht2, Ht1, app_assoc.
Qed.

(** What a batch that does not throw has done. *)
Lemma check_batches_turn (w : World) (fuel : nat) (from to : Z) (k kf : Check) :
  from ≤ to →
  check_batches (S fuel) w from to k = Some (inr kf) →
  ∃ existed' logs k',
    collect (S fuel) (window (chainId (mem w)) from (Z.min (from + 1000) to))
            FA_Start w (existed k)
    = Some (inr existed')
    ∧ fetch from (Z.min (from + 1000) to) = inr logs
    ∧ check_logs (chainId (mem w)) (js_sort by_position logs)
                 (mkCheck existed' (needSave k) (reorgedBlockNumber k)) = inr k'
    ∧ (if Z.min (from + 1000) to =? to then kf = k'
       else check_batches fuel w (Z.min (from + 1000) to) to k' = Some (inr kf)).
Proof.
  intros Hle. cbn [Reorg.check_batches].
  replace (from <=? to) with true by (symmetry; by apply Z.leb_le).
  destruct (collect _ _ _ _ _) as [[|existed']|] eqn:Hc; [done| |done].
  destruct (fetch _ _) as [|logs] eqn:Hf; [done|].
  destruct (Reorg.check_logs _ _ _ _ _ _ _ _ _ _) as [|k'] eqn:Hl; [done|].
  intros H. exists existed', logs, k'. split_and!; try done.
  destruct (_ =? _); [by injection H|done].
Qed.

(** The batches only append to [needSave]. *)
Lemma check_batches_grows (w : World) (fuel : nat) (from to : Z) (k kf : Check) :
  check_batches fuel w from to k = Some (inr kf) →
  ∃ tail, needSave kf = needSave k ++ tail.
Proof.
  revert from k. induction fuel as [|fuel IH]; intros from k; [done|].
  destruct (decide (from ≤ to)) as [Hle|Hgt].
  - intros H.
    destruct (check_batches_turn w fuel from to k kf Hle H)
      as (existed' & logs & k' & _ & _ & Hl & Hrest).
    destruct (check_logs_grows _ _ _ _ Hl) as [[t Ht] _]. cbn [needSave] in Ht.
    destruct (_ =? _).
    + subst kf. by exists t.
    + destruct (IH _ _ Hrest) as [t' Ht']. exists (t ++ t').
      by rewrite Ht', Ht, app_assoc.
  - cbn [Reorg.check_batches].
    replace (from <=? to) with false by (symmetry; apply Z.leb_gt; lia).
    intros [= <-]. exists []. by rewrite app_nil_r.
Qed.

Lemma js_sort_elem_2 {A} (cmp : A → A → Z) (y : A) (l : list A) :
  y ∈ l → y ∈ js_sort cmp l.
Proof. intros Hy. by rewrite (js_sort_perm cmp l). Qed.

(** A log that parses, of a block that can be read, and its id, which
    is the id of no stored row. *)
Variable w : World.
Variable log : Log.
Variable id txHash : string.
Variable parsed : LogDescription.
Variable timestamp : Z.
Hypothesis Htx : log_transactionHash log = Some txHash.
Hypothesis Hid : calcEventId sha256 (chainId (mem w)) (log_address log)
                             (log_blockHash log) (Some txHash) (log_logIndex log)
                 = inr id.
Hypothesis Hparsed : Storage.interface_of gate config gateInterface configInterface
                                          instrumentInterface log log = Some parsed.
Hypothesis Hblock : getBlock (log_blockNumber log) = Some timestamp.
Hypothesis Hmissing : ∀ e, e ∈ all_rows w → ev_id e ≠ id.

Local Abbreviation row :=
  (supplement (chainId (mem w)) id (formatHexString txHash) log parsed timestamp).

Lemma check_log_supplements (k k' : Check) :
  existed k !! id = None →
  check_log (chainId (mem w)) log k = inr k' →
  needSave k' = needSave k ++ [row] ∧ existed k' !! id = None.
Proof.
  unfold Reorg.check_log. rewrite Htx, Hid. intros Hn. rewrite Hn.
  rewrite Hparsed, Hblock. cbn [Storage.formatHexString_opt].
  intros [= <-]. by cbn [needSave existed].
Qed.

Lemma check_logs_supplements (logs : list Log) (k k' : Check) :
  log ∈ logs → existed k !! id = None →
  check_logs (chainId (mem w)) logs k = inr k' →
  (∃ l1 l2, needSave k' = needSave k ++ l1 ++ row :: l2)
  ∧ existed k' !! id = None.
Proof.
  revert k. induction logs as [|l logs IH]; intros k Hin Hn; simpl;
    [by apply elem_of_nil in Hin|].
  destruct (check_log (chainId (mem w)) l k) as [|k1] eqn:H1; [done|]. intros H2.
  apply elem_of_cons in Hin as [<-|Hin].
  - destruct (check_log_supplements k k1 Hn H1) as [Hs Hn1].
    destruct (check_logs_grows _ logs k1 k' H2) as [[t Ht] Hn'].
    split; [|by auto]. exists [], t. by rewrite Ht, Hs, <- app_assoc.
  - destruct (check_log_grows _ l k k1 H1) as [[t1 Ht1] Hn1].
    destruct (IH k1 Hin (Hn1 _ Hn) H2) as [(l1 & l2 & Hl) Hn'].
    split; [|done]. exists (t1 ++ l1), l2.
    by rewrite Hl, Ht1, <- !app_assoc.
Qed.

(** A batch whose fetch returns the log appends its row. *)
Lemma check_batches_supplements (fuel : nat) (from to : Z) (logs : list Log)
      (k kf : Check) :
  from ≤ to → existed k !! id = None →
  fetch from (Z.min (from + 1000) to) = inr logs → log ∈ logs →
  check_batches (S fuel) w from to k = Some (inr kf) →
  ∃ k' l1 l2,
    needSave k' = needSave k ++ l1 ++ row :: l2
    ∧ existed k' !! id = None
    ∧ (if Z.min (from + 1000) to =? to then kf = k'
       else check_batches fuel w (Z.min (from + 1000) to) to k' = Some (inr kf)).
Proof.
  intros Hle Hn Hf Hin H.
  destruct (check_batches_turn w fuel from to k kf Hle H)
    as (existed' & logs' & k' & Hc & Hf' & Hl & Hrest).
  assert (logs' = logs) as -> by congruence.
  pose proof (collect_fresh _ _ _ _ _ _ id Hmissing Hn Hc) as Hn'.
  destruct (check_logs_supplements _
              (mkCheck existed' (needSave k) (reorgedBlockNumber k))
              k' (js_sort_elem_2 by_position log logs Hin) Hn' Hl)
    as [(l1 & l2 & Hs) Hn''].
  by exists k', l1, l2.
Qed.

End ReorgGrows.

Section ReorgBoundaryTwice.
Import EventStore Utils Reorg.

(** When the window is wider than a batch, the second batch starts at the
    block where the first one ended.  A log that both fetches return,
    that parses, whose block can be read and whose id is the id of no
    stored row, has its row twice in [needSave]. *)
Theorem checkEvents_boundary_twice (sha256 : string → string) (gate config : string)
        (gateInterface configInterface instrumentInterface : Log → option LogDescription)
        (fetch : Z → Z → Exception + list Log) (getBlock : Z → option Z)
        (fuel : nat) (w : World) (from to : Z) (logs1 logs2 : list Log)
        (log : Log) (id txHash : string) (parsed : LogDescription) (timestamp : Z)
        (needSave : list Event) (reorged : option Z) :
  from + 1000 < to →
  fetch from (from + 1000) = inr logs1 → log ∈ logs1 →
  fetch (from + 1000) (Z.min (from + 2000) to) = inr logs2 → log ∈ logs2 →
  log_transactionHash log = Some txHash →
  calcEventId sha256 (chainId (mem w)) (log_address log)
                    (log_blockHash log) (Some txHash) (log_logIndex log) = inr id →
  Storage.interface_of gate config gateInterface configInterface instrumentInterface
                       log log = Some parsed →
  getBlock (log_blockNumber log) = Some timestamp →
  (∀ e, e ∈ all_rows w → ev_id e ≠ id) →
  Reorg.checkEvents sha256 gate config gateInterface configInterface
                    instrumentInterface fetch getBlock fuel w from to
  = Some (inr (needSave, [], reorged)) →
  ∃ l1 l2 l3,
    needSave
    = l1 ++ Reorg.supplement (chainId (mem w)) id
                             (formatHexString txHash) log parsed timestamp
         :: l2 ++ Reorg.supplement (chainId (mem w)) id
                                   (formatHexString txHash) log parsed timestamp
         :: l3.
Proof.
  intros Hwide Hf1 Hin1 Hf2 Hin2 Htx Hid Hparsed Hblock Hmissing.
  unfold Reorg.checkEvents.
  destruct (Reorg.check_batches _ _ _ _ _ _ _ _ fuel w from to _)
    as [[|kf]|] eqn:H; [done| |done].
  intros [= <- _]. clear reorged.
  destruct fuel as [|fuel]; [done|].
  replace (from + 1000) with (Z.min (from + 1000) to) in Hf1, Hf2 by lia.
  destruct (check_batches_supplements sha256 gate config gateInterface configInterface
              instrumentInterface fetch getBlock w log id txHash parsed timestamp
              Htx Hid Hparsed Hblock Hmissing fuel from to logs1
              (Reorg.mkCheck ∅ [] None) kf ltac:(lia) (lookup_empty id) Hf1 Hin1 H)
    as (k1 & a1 & a2 & Hs1 & Hn1 & H1).
  replace (Z.min (from + 1000) to =? to) with false in H1
    by (symmetry; apply Z.eqb_neq; lia).
  destruct fuel as [|fuel]; [done|].
  replace (Z.min (from + 2000) to)
    with (Z.min (Z.min (from + 1000) to + 1000) to) in Hf2 by lia.
  destruct (check_batches_supplements sha256 gate config gateInterface configInterface
              instrumentInterface fetch getBlock w log id txHash parsed timestamp
              Htx Hid Hparsed Hblock Hmissing fuel
              (Z.min (from + 1000) to) to logs2 k1 kf ltac:(lia) Hn1 Hf2 Hin2 H1)
    as (k2 & b1 & b2 & Hs2 & Hn2 & H2).
  assert (∃ t, Reorg.needSave kf = Reorg.needSave k2 ++ t) as [t Ht].
  { destruct (_ =? _); [subst kf; exists []; by rewrite app_nil_r|].
    exact (check_batches_grows sha256 gate config gateInterface configInterface
             instrumentInterface fetch getBlock w fuel _ to k2 kf H2). }
  exists a1, (a2 ++ b1), (b2 ++ t).
  rewrite Ht, Hs2, Hs1. cbn [Reorg.needSave app].
  by rewrite <- !app_assoc.
Qed.

End ReorgBoundaryTwice.

Lemma checkEvents_boundary_twice_witness :
  ∃ l1 l2 l3,
    Reorg.checkEvents Reorg.byIndex "gate" "config" (λ _, None) (λ _, None)
      (λ _, Some (mkParsed "Trade" "{}")) (Fetcher.getLogs Fetcher.twoBlocks) Some
      20 Replay.threeTables 0 1500
    = Some (inr (l1 ++ Reorg.supplement 100 "100,a,c,t,0" "t"
                         (mkLog "0xa" 1000 "0xc" (Some "0xt") 0 0 false)
                         (mkParsed "Trade" "{}") 1000
                    :: l2 ++ Reorg.supplement 100 "100,a,c,t,0" "t"
                               (mkLog "0xa" 1000 "0xc" (Some "0xt") 0 0 false)
                               (mkParsed "Trade" "{}") 1000
                    :: l3, [], Some 1000)).
Proof.
  destruct (checkEvents_boundary_twice Reorg.byIndex "gate" "config" (λ _, None)
              (λ _, None) (λ _, Some (mkParsed "Trade" "{}"))
              (Fetcher.getLogs Fetcher.twoBlocks) Some 20 Replay.threeTables 0 1500
              Fetcher.twoBlocks [mkLog "0xa" 1000 "0xc" (Some "0xt") 0 0 false]
              (mkLog "0xa" 1000 "0xc" (Some "0xt") 0 0 false) "100,a,c,t,0" "0xt"
              (mkParsed "Trade" "{}") 1000
              [Reorg.supplement 100 "100,a,c,t,0" "t"
                 (mkLog "0xa" 1000 "0xc" (Some "0xt") 0 0 false)
                 (mkParsed "Trade" "{}") 1000;
               Reorg.supplement 100 "100,a,c,t,0" "t"
                 (mkLog "0xa" 1000 "0xc" (Some "0xt") 0 0 false)
                 (mkParsed "Trade" "{}") 1000]
              (Some 1000)) as (l1 & l2 & l3 & H).
  - lia.
  - vm_compute. reflexivity.
  - unfold Fetcher.twoBlocks. right. left.
  - vm_compute. reflexivity.
  - left.
  - reflexivity.
  - vm_compute. reflexivity.
  - vm_compute. reflexivity.
  - reflexivity.
  - apply Forall_forall. vm_compute.
    repeat (constructor; [discriminate|]). constructor.
  - vm_compute. reflexivity.
  - exists l1, l2, l3.
    change (formatHexString "0xt") with "t" in H.
    change (EventStore.chainId (EventStore.mem Replay.threeTables)) with 100 in H.
    rewrite <- H. vm_compute. reflexivity.
Defined.
(** * Reorg: a window whose logs are all stored is clean *)

Section ReorgComplete.
Import EventStore Reorg.

Variable w : World.
Hypothesis Hok : store_ok w.
Hypothesis Hmodels : models_synced w.
Variable ch from to : Z.

(** The first place that the generator has not read. *)
Local Abbreviation place st :=
  (match st with
   | FA_Start => O
   | FA_Last i => S i
   | _ => length (indexes (mem w))
   end).

(** The rows of the window in the sub-table at place [k]. *)
Local Abbreviation in_window k e :=
  (∃ index, indexes (mem w) !! k = Some index ∧ e ∈ table_of w index
            ∧ matches (window ch from to) e = true).

Lemma window_matches (e : Event) :
  matches (window ch from to) e = true →
  from ≤ ev_blockNumber e ≤ to.
Proof.
  unfold matches, window, holds. simpl.
  intros [[? ?]%andb_prop ?]%andb_prop. lia.
Qed.

Lemma window_selected (k : nat) (index : EventIndex) (e : Event) :
  indexes (mem w) !! k = Some index → e ∈ table_of w index →
  matches (window ch from to) e = true →
  selected from (Some to) (previous_of (indexes (mem w)) k) index = true.
Proof.
  intros Hk He Hm. apply window_matches in Hm.
  pose proof (ok_range _ Hok k index e Hk He) as Hr.
  unfold selected.
  destruct (decide (idx_blockNumber index ≤ to)).
  - apply orb_true_iff. left. apply andb_true_iff. split; apply Z.leb_le; lia.
  - apply orb_true_iff. right. apply andb_true_iff.
    split; [apply Z.ltb_lt|apply Z.leb_le]; lia.
Qed.

(** The scan does not throw; what it yields holds every row of the
    window of the places it has passed. *)
Lemma scan_complete (idxs : list EventIndex) (i : nat) :
  drop i (indexes (mem w)) = idxs →
  match findAll_scan w (window ch from to) from (Some to) idxs i
                     (previous_of (indexes (mem w)) i) with
  | inl _ => False
  | inr (None, _) => ∀ k e, (i ≤ k)%nat → in_window k e → False
  | inr (Some events, st') =>
      ∀ k e, (i ≤ k < place st')%nat → in_window k e → e ∈ events
  end.
Proof.
  revert i. induction idxs as [|index rest IH]; intros i Hdrop.
  - simpl. intros k e Hk (index & Hl & _).
    apply lookup_lt_Some in Hl.
    apply (f_equal length) in Hdrop. rewrite length_drop in Hdrop. simpl in Hdrop. lia.
  - assert (Hi : indexes (mem w) !! i = Some index).
    { rewrite <- (Nat.add_0_r i), <- lookup_drop, Hdrop. done. }
    assert (Hrest : drop (S i) (indexes (mem w)) = rest).
    { pose proof (drop_S _ _ _ Hi) as Hd. rewrite Hdrop in Hd. by injection Hd. }
    specialize (IH (S i) Hrest).
    unfold previous_of in IH. rewrite (previous_at_lookup _ _ _ _ Hi) in IH.
    cbn [findAll_scan].
    set (continue := findAll_scan w (window ch from to) from (Some to) rest (S i)
                                  (idx_blockNumber index)) in *.
    assert (Hskip : (∀ e, in_window i e → False) →
              match continue with
              | inl _ => False
              | inr (None, _) => ∀ k e, (i ≤ k)%nat → in_window k e → False
              | inr (Some events, st') =>
                  ∀ k e, (i ≤ k < place st')%nat → in_window k e → e ∈ events
              end).
    { intros Hno. destruct continue as [|[[events|] st']]; [done| |].
      - intros k e Hk He. destruct (decide (k = i)) as [->|Hne].
        + by destruct (Hno e).
        + apply (IH k); [lia|done].
      - intros k e Hk He. destruct (decide (k = i)) as [->|Hne].
        + by destruct (Hno e).
        + apply (IH k e); [lia|done]. }
    destruct (selected from (Some to) _ index) eqn:Hsel.
    + unfold getModel. rewrite decide_True
        by (apply Hmodels; by apply list_elem_of_lookup_2 in Hi).
      unfold yield_or. cbn [truthy_limit window limit with_page].
      set (events := model_findAll _ _).
      assert (Hev : ∀ e, in_window i e → e ∈ events).
      { intros e (index' & Hl & He & Hm).
        assert (index' = index) as -> by congruence.
        unfold events, model_findAll. simpl.
        apply list_elem_of_filter. split; [exact Hm|exact He]. }
      destruct (Nat.ltb 0 (length events)) eqn:Hlen.
      * intros k e Hk He. assert (k = i) as -> by lia. by apply Hev.
      * apply Hskip. intros e He%Hev.
        apply Nat.ltb_ge in Hlen. destruct events; [by apply elem_of_nil in He|].
        simpl in Hlen. lia.
    + apply Hskip. intros e (index' & Hl & He & Hm).
      assert (index' = index) as -> by congruence.
      by rewrite (window_selected i index e Hi He Hm) in Hsel.
Qed.

Lemma findAll_next_complete (st : FindAllState) :
  match findAll_next (window ch from to) None None st None w with
  | inl _ => False
  | inr (None, _) => ∀ k e, (place st ≤ k)%nat → in_window k e → False
  | inr (Some events, st') =>
      ∀ k e, (place st ≤ k < place st')%nat → in_window k e → e ∈ events
  end.
Proof.
  assert (Hpast : ∀ k e, (length (indexes (mem w)) ≤ k)%nat → in_window k e → False).
  { intros k e Hk (index & Hl & _). apply lookup_lt_Some in Hl. lia. }
  destruct st as [|i off|i|]; unfold findAll_next;
    change (from_of (window ch from to) None) with from;
    change (to_of (window ch from to) None) with (Some to).
  - pose proof (scan_complete (indexes (mem w)) O eq_refl) as H.
    replace (previous_of (indexes (mem w)) 0) with (-1) in H
      by (unfold previous_of; by destruct (indexes (mem w))).
    exact H.
  - destruct (indexes (mem w) !! i); exact Hpast.
  - destruct (indexes (mem w) !! i) as [index|] eqn:Hi.
    + pose proof (scan_complete (drop (S i) (indexes (mem w))) (S i) eq_refl) as H.
      unfold previous_of in H. by rewrite (previous_at_lookup _ _ _ _ Hi) in H.
    + intros k e Hk. apply Hpast. apply lookup_ge_None in Hi. lia.
  - exact Hpast.
Qed.

Lemma remember_keeps (existed : gmap string Event) (events : list Event)
      (id : string) :
  is_Some (existed !! id) → is_Some (remember existed events !! id).
Proof.
  unfold remember. revert existed.
  induction events as [|x events IH]; intros existed Hs; [done|].
  simpl. apply IH. destruct (decide (ev_id x = id)) as [<-|Hne].
  - by rewrite lookup_insert_eq.
  - by rewrite lookup_insert_ne.
Qed.

Lemma remember_elem (existed : gmap string Event) (events : list Event)
      (e : Event) :
  e ∈ events → is_Some (remember existed events !! ev_id e).
Proof.
  unfold remember. revert existed.
  induction events as [|x events IH]; intros existed Hin;
    [by apply elem_of_nil in Hin|].
  simpl. apply elem_of_cons in Hin as [<-|Hin]; [|by apply IH].
  apply (remember_keeps _ events). by rewrite lookup_insert_eq.
Qed.

(** With enough fuel the loop over [findAll] returns, and the map holds
    the id of every row of the window. *)
Lemma collect_complete (fuel : nat) (st : FindAllState)
      (existed : gmap string Event) :
  (turns w st < fuel)%nat →
  (∀ k e, (k < place st)%nat → in_window k e → is_Some (existed !! ev_id e)) →
  ∃ existed', collect fuel (window ch from to) st w existed = Some (inr existed')
              ∧ ∀ k e, in_window k e → is_Some (existed' !! ev_id e).
Proof.
  revert st existed. induction fuel as [|fuel IH]; intros st existed Hfuel Hinv; [lia|].
  cbn [collect].
  pose proof (findAll_next_complete st) as Hnext.
  assert (Hturns : match findAll_next (window ch from to) None None st None w with
                   | inr (Some _, st') => (turns w st' < turns w st)%nat
                   | _ => True
                   end).
  { destruct st as [|i off|i|]; unfold findAll_next.
    - pose proof (findAll_scan_unlimited w (window ch from to)
                    (from_of (window ch from to) None) (to_of (window ch from to) None)
                    (indexes (mem w)) O (-1) eq_refl) as H.
      destruct (findAll_scan _ _ _ _ _ _ _) as [|[[events|] st']]; [done| |done].
      destruct H as (j & -> & Hj). simpl in *. lia.
    - by destruct (indexes (mem w) !! i).
    - destruct (indexes (mem w) !! i) as [index|] eqn:Hi; [|done].
      pose proof (findAll_scan_unlimited w (window ch from to)
                    (from_of (window ch from to) None) (to_of (window ch from to) None)
                    (drop (S i) (indexes (mem w))) (S i) (idx_blockNumber index)
                    eq_refl) as H.
      destruct (findAll_scan _ _ _ _ _ _ _) as [|[[events|] st']]; [done| |done].
      destruct H as (j & -> & Hj). rewrite length_drop in Hj.
      apply lookup_lt_Some in Hi. simpl. lia.
    - done. }
  destruct (findAll_next (window ch from to) None None st None w)
    as [|[[events|] st']]; [done| |].
  - apply IH; [lia|]. intros k e Hk He.
    destruct (decide (k < place st)%nat) as [Hlt|Hge].
    + apply remember_keeps. by apply (Hinv k).
    + apply remember_elem. apply (Hnext k); [lia|done].
  - exists existed. split; [done|]. intros k e He.
    destruct (decide (k < place st)%nat) as [Hlt|Hge].
    + by apply (Hinv k).
    + destruct (Hnext k e); [lia|done].
Qed.

End ReorgComplete.

Section ReorgClean.
Import EventStore Utils Reorg.

Variable sha256 : string → string.
Variable gate : string.
Variable config : string.
Variable gateInterface : Log → option LogDescription.
Variable configInterface : Log → option LogDescription.
Variable instrumentInterface : Log → option LogDescription.
Variable getBlock : Z → option Z.

Local Abbreviation check_log :=
  (Reorg.check_log sha256 gate config gateInterface configInterface
                   instrumentInterface getBlock).
Local Abbreviation check_logs :=
  (Reorg.check_logs sha256 gate config gateInterface configInterface
                    instrumentInterface getBlock).
Local Abbreviation by_position :=
  (λ a b : Log, compareLog (log_position a) (log_position b)).
Local Abbreviation id_of c :=
  (λ log : Log, calcEventId sha256 c (log_address log) (log_blockHash log)
                            (log_transactionHash log) (log_logIndex log)).

(** Logs of distinct ids that are all known leave [needSave] and
    [reorgedBlockNumber] as they are. *)
Lemma check_logs_known (c : Z) (logs : list Log) (k : Check) :
  NoDup (id_of c <$> logs) →
  (∀ log, log ∈ logs → ∃ id, id_of c log = inr id ∧ is_Some (existed k !! id)) →
  ∃ k', check_logs c logs k = inr k'
        ∧ needSave k' = needSave k
        ∧ reorgedBlockNumber k' = reorgedBlockNumber k.
Proof.
  revert k. induction logs as [|log logs IH]; intros k Hnd Hknown.
  - by exists k.
  - rewrite fmap_cons in Hnd. apply NoDup_cons in Hnd as [Hfresh Hnd].
    destruct (Hknown log) as (id & Hid & [e He]); [by left|].
    cbn [Reorg.check_logs]. unfold Reorg.check_log. rewrite Hid, He.
    destruct (IH (mkCheck (delete id (existed k)) (needSave k)
                          (reorgedBlockNumber k)) Hnd)
      as (k' & Hk' & Hs & Hr); [|by exists k'].
    intros log' Hin. destruct (Hknown log') as (id' & Hid' & Hsome); [by right|].
    exists id'. split; [done|]. cbn [existed].
    rewrite lookup_delete_ne; [done|]. intros Heq.
    apply Hfresh. apply list_elem_of_fmap. exists log'.
    split; [cbn beta; congruence|done].
Qed.

Variable chain : list Log.
Variable w : World.
Hypothesis Hok : store_ok w.
Hypothesis Hmodels : models_synced w.
Hypothesis Hdistinct : NoDup (id_of (chainId (mem w)) <$> chain).
Hypothesis Hstored : ∀ log, log ∈ chain →
  ∃ row, row ∈ all_rows w
         ∧ id_of (chainId (mem w)) log = inr (ev_id row)
         ∧ ev_chainId row = chainId (mem w)
         ∧ ev_blockNumber row = log_blockNumber log.

Local Abbreviation check_batches :=
  (Reorg.check_batches sha256 gate config gateInterface configInterface
                       instrumentInterface (Fetcher.getLogs chain) getBlock).

Lemma check_batches_clean (fuel : nat) (from to : Z) (k : Check) :
  (S (length (indexes (mem w)) + Z.to_nat (to - from)) < fuel)%nat →
  ∃ k', check_batches fuel w from to k = Some (inr k')
        ∧ needSave k' = needSave k
        ∧ reorgedBlockNumber k' = reorgedBlockNumber k.
Proof.
  revert from k. induction fuel as [|fuel IH]; intros from k Hfuel; [lia|].
  cbn [Reorg.check_batches].
  destruct (from <=? to) eqn:Hle; [|by exists k].
  apply Z.leb_le in Hle.
  set (_to := Z.min (from + 1000) to).
  destruct (collect_complete w Hok Hmodels (chainId (mem w)) from _to (S fuel)
              FA_Start (existed k) ltac:(simpl; lia) ltac:(intros j e Hj; simpl in Hj; lia))
    as (existed' & -> & Hall).
  unfold Fetcher.getLogs at 1.
  set (logs := filter (λ log, from ≤ log_blockNumber log ≤ _to) chain).
  destruct (check_logs_known (chainId (mem w)) (js_sort by_position logs)
              (mkCheck existed' (needSave k) (reorgedBlockNumber k)))
    as (k1 & -> & Hs & Hr).
  - rewrite (js_sort_perm by_position logs).
    apply (sublist_NoDup _ (id_of (chainId (mem w)) <$> chain)); [exact Hdistinct|].
    apply fmap_sublist, sublist_filter.
  - intros log Hin. rewrite (js_sort_perm by_position logs) in Hin.
    apply list_elem_of_filter in Hin as [Hbn Hin].
    destruct (Hstored log Hin) as (row & Hrow & Hid & Hc & Hb).
    exists (ev_id row). split; [done|]. cbn [existed].
    apply list_elem_of_In, in_concat in Hrow as (l & Hl & Hrow).
    apply in_map_iff in Hl as (index & <- & Hl).
    apply list_elem_of_In, list_elem_of_lookup in Hl as [j Hj].
    apply (Hall j). exists index. split_and!; [done|by apply list_elem_of_In|].
    unfold matches, window, holds. simpl. rewrite Hc, Hb, Z.eqb_refl.
    replace (from <=? log_blockNumber log) with true by (symmetry; apply Z.leb_le; lia).
    by replace (log_blockNumber log <=? _to) with true by (symmetry; apply Z.leb_le; lia).
  - cbn [needSave reorgedBlockNumber] in Hs, Hr.
    destruct (_to =? to) eqn:Hend; [by exists k1|].
    apply Z.eqb_neq in Hend.
    destruct (IH _to k1) as (k' & Hk' & Hs' & Hr'); [unfold _to in *; lia|].
    exists k'. split_and!; congruence.
Qed.

End ReorgClean.

Section ReorgCleanCheck.
Import EventStore Utils Reorg.

(** When the chain holds logs of distinct ids, each the id of a stored
    row of the chain at the block of the log, [checkEvents] on any
    window returns, with enough fuel, nothing to save, nothing to
    destroy and no reorged block number. *)
Theorem checkEvents_clean (sha256 : string → string) (gate config : string)
        (gateInterface configInterface instrumentInterface : Log → option LogDescription)
        (getBlock : Z → option Z) (chain : list Log) (fuel : nat) (w : World)
        (from to : Z) :
  store_ok w → models_synced w →
  NoDup ((λ log, calcEventId sha256 (chainId (mem w)) (log_address log)
                             (log_blockHash log) (log_transactionHash log)
                             (log_logIndex log)) <$> chain) →
  (∀ log, log ∈ chain →
     ∃ row, row ∈ all_rows w
            ∧ calcEventId sha256 (chainId (mem w)) (log_address log)
                          (log_blockHash log) (log_transactionHash log)
                          (log_logIndex log) = inr (ev_id row)
            ∧ ev_chainId row = chainId (mem w)
            ∧ ev_blockNumber row = log_blockNumber log) →
  (S (length (indexes (mem w)) + Z.to_nat (to - from)) < fuel)%nat →
  checkEvents sha256 gate config gateInterface configInterface instrumentInterface
              (Fetcher.getLogs chain) getBlock fuel w from to
  = Some (inr ([], [], None)).
Proof.
  intros Hok Hmodels Hdistinct Hstored Hfuel. unfold checkEvents.
  destruct (check_batches_clean sha256 gate config gateInterface configInterface
              instrumentInterface getBlock chain w Hok Hmodels Hdistinct Hstored
              fuel from to (mkCheck ∅ [] None) Hfuel) as (k' & -> & Hs & Hr).
  simpl. by rewrite Hs, Hr.
Qed.

End ReorgCleanCheck.

Lemma checkEvents_clean_witness :
  Reorg.checkEvents Reorg.byIndex "gate" "config" (λ _, None) (λ _, None)
    (λ _, Some (mkParsed "Trade" "{}"))
    (Fetcher.getLogs [mkLog "0xa" 20 "0xb" (Some "0xt") 0 0 false]) Some
    1505 Replay.threeTables 0 1500
  = Some (inr ([], [], None)).
Proof.
  apply (checkEvents_clean Reorg.byIndex "gate" "config" (λ _, None) (λ _, None)
           (λ _, Some (mkParsed "Trade" "{}")) Some
           [mkLog "0xa" 20 "0xb" (Some "0xt") 0 0 false] 1505 Replay.threeTables
           0 1500 threeTables_ok threeTables_models).
  - repeat constructor. apply not_elem_of_nil.
  - intros log ->%list_elem_of_singleton. exists (EventStore.eventAt 20).
    split_and!.
    + apply list_elem_of_In. vm_compute. right. left. reflexivity.
    + vm_compute. reflexivity.
    + reflexivity.
    + reflexivity.
  - vm_compute. lia.
Defined.
(** * Storage: a new log is stored and emitted once *)

Section StorageOnce.
Import EventStore Utils Storage.

Variable sha256 : string → string.
Variable PROCESSED : Z.
Variable gate : string.
Variable config : string.
Variable gateInterface : Log → option LogDescription.
Variable configInterface : Log → option LogDescription.
Variable instrumentInterface : Log → option LogDescription.
Variable handler :
  string → option (string → Log → LogDescription → bool → M t unit).

Local Abbreviation process_log :=
  (Storage.process_log sha256 PROCESSED gate config gateInterface configInterface
                       instrumentInterface handler).
Local Abbreviation processLogs :=
  (Storage.processLogs sha256 PROCESSED gate config gateInterface configInterface
                       instrumentInterface handler).

(** The row that [processLogs] creates for a log. *)
Local Abbreviation row_of c id txHash log parsed :=
  (mkEvent id c (parsed_name parsed) (log_blockNumber log) None
           (formatHexString (log_blockHash log)) (formatHexString txHash)
           (log_transactionIndex log) (log_logIndex log)
           (formatHexString (log_address log)) (parsed_args parsed) PROCESSED).

(** The turn of a log that is not stored, parses and has no handler:
    the row is created and the event emitted. *)
Lemma process_log_new (log : Log) (id txHash : string) (parsed : LogDescription)
      (latest : Z) (s : t) (r : Event) (w' : World) :
  log_transactionHash log = Some txHash →
  calcEventId sha256 (chainId (mem (common_events s))) (log_address log)
              (log_blockHash log) (Some txHash) (log_logIndex log) = inr id →
  findOne (byId id (log_blockNumber log)) None (common_events s)
  = Ok None (common_events s) →
  interface_of gate config gateInterface configInterface instrumentInterface log log
  = Some parsed →
  handler (parsed_name parsed) = None →
  create (row_of (chainId (mem (common_events s))) id txHash log parsed)
         (common_events s) = Ok r w' →
  process_log false log None latest s
  = Ok (if latest <? log_blockNumber log then log_blockNumber log else latest)
       (mk w' (cache_blockNumber s) (saved_blockNumber s)
           (emitted s ++ [newParsedEvent log parsed false])).
Proof.
  intros Htx Hid Hnew Hparsed Hhandler Hcreate.
  unfold Storage.process_log, bind, get, of_result, lift.
  rewrite Htx, Hid, Hnew. cbn [negb andb bool_decide]. 
  change (bool_decide (is_Some (@None Event))) with false. cbn iota.
  rewrite Hparsed, Hhandler. unfold ret at 1.
  cbn [formatHexString_opt set_events common_events].
  rewrite Hcreate. by destruct s.
Qed.


End StorageOnce.
(** * JSON-RPC: what is formatted and parsed again, and the ids that
      [handle] takes *)

Section JsonRpc.
Import Handler JSONRPC.

Variable JSON_parse : string → option Value.

Local Abbreviation parse := (JSONRPC.parse JSON_parse).

(** A request made by [formatJSONRPCRequest] with a method that is not
    empty parses as a request when its id is truthy, and as a
    notification, its id forgotten, when the id is 0, the empty string,
    false, null or undefined. *)
Theorem parse_formatJSONRPCRequest (id params : Value) (method : string) :
  method ≠ "" →
  parse (formatJSONRPCRequest id (VString method) params)
  = inr (if truthy id then request id method params else notify method params).
Proof.
  intros Hm. unfold JSONRPC.parse, formatJSONRPCRequest.
  by destruct method.
Qed.

(** A reply made by [formatJSONRPCError] always parses as a response
    that carries the code and the message; a reply made by
    [formatJSONRPCResult] parses as a response when the result is
    truthy, and is refused, as an invalid request, when the result is
    false, 0, the empty string, null or undefined. *)
Theorem parse_formatted_reply (id result : Value) (err : Exception) :
  (∃ code message,
     parse (formatJSONRPCError err id)
     = inr (response id VUndefined
                     (VObject [("code", VNumber code); ("message", VString message)]))
     ∧ (∀ c m, err = JSONRPCError c m → code = c ∧ message = m))
  ∧ parse (formatJSONRPCResult id result)
    = if truthy result then inr (response id result VUndefined)
      else inl (JSONRPCError InvalidRequest "invalid result or error").
Proof.
  split.
  - destruct err as [m|m|c m|m]; eexists _, _; (split; [reflexivity|]);
      intros c' m' [=]; by subst.
  - unfold JSONRPC.parse, formatJSONRPCResult. simpl.
    by destruct (truthy result).
Qed.

(** A message that is a request in every respect but for an id that is
    0, the empty string, false, null or absent is answered with the
    error [InvalidRequest], without an id; no handler is called and the
    state is as it was. *)
Theorem handle_refuses_falsy_id {S : Type}
        (handlers : string → option (Value → M S Value)) (msg : string)
        (json id : Value) (method : string) (s : S) :
  JSON_parse msg = Some json →
  property json "jsonrpc" = inr (VString "2.0") →
  property json "method" = inr (VString method) → method ≠ "" →
  property json "id" = inr id → truthy id = false →
  handle JSON_parse handlers msg s
  = (formatJSONRPCError (JSONRPCError InvalidRequest "invalid request") VUndefined, s).
Proof.
  intros Hjson Hversion Hmethod Hm Hid Hfalsy.
  unfold handle, JSONRPC.parse. rewrite Hjson. cbn [and_then].
  rewrite Hversion. cbn [and_then is_string String.eqb Ascii.eqb Bool.eqb negb].
  rewrite Hmethod. cbn [and_then truthy].
  replace (String.eqb method "") with false by (by destruct method).
  cbn [negb]. rewrite Hid. cbn [and_then]. rewrite Hfalsy.
  by destruct json.
Qed.

End JsonRpc.

Lemma parse_formatJSONRPCRequest_witness :
  JSONRPC.parse (λ _, None)
    (JSONRPC.formatJSONRPCRequest (Handler.VNumber 0) (Handler.VString "state")
                                  Handler.VUndefined)
  = inr (JSONRPC.notify "state" Handler.VUndefined).
Proof.
  apply (parse_formatJSONRPCRequest (λ _, None) (Handler.VNumber 0)
           Handler.VUndefined "state").
  discriminate.
Defined.

Lemma handle_refuses_falsy_id_witness :
  JSONRPC.handle (S := unit) (λ _, Some JSONRPC.stateRequest)
                 (λ _, Some (λ _ s, Ok (Handler.VBool true) s)) "state" tt
  = (JSONRPC.formatJSONRPCError
       (JSONRPCError Handler.InvalidRequest "invalid request") Handler.VUndefined, tt).
Proof.
  apply (handle_refuses_falsy_id (λ _, Some JSONRPC.stateRequest)
           (λ _, Some (λ _ s, Ok (Handler.VBool true) s)) "state"
           JSONRPC.stateRequest (Handler.VNumber 0) "state" tt).
  - reflexivity.
  - reflexivity.
  - reflexivity.
  - discriminate.
  - reflexivity.
  - reflexivity.
Defined.
(** * The plugin [Snapshots] after a reorg *)

Section SnapshotsReorg.
Import EventStore Replay SnapshotsWork.

Variable Snapshot : Type.
Variable Serialized : Type.
Variable empty : Snapshot.
Variable processParsedLog : Snapshot → Log → LogDescription → Snapshot.
Variable deserialize : Serialized → Snapshot.

Local Abbreviation valid_base := (Replay.valid_base Snapshot empty processParsedLog).
Local Abbreviation valid_table :=
  (Replay.valid_table Snapshot Serialized empty processParsedLog deserialize).
Local Abbreviation snapshot_at := (Replay.snapshot_at Snapshot empty processParsedLog).
Local Abbreviation reorged :=
  (SnapshotsWork.reorged Snapshot Serialized empty processParsedLog deserialize).

(** The position that [replay] returns is at a block from that of the
    base to that of the bound. *)
Lemma replay_position (w : World) (from : EventPosition) (to : Bound) :
  store_ok w →
  pos_blockNumber from ≤ bound_blockNumber to →
  pos_blockNumber
    (default from
       (ev_position <$>
        last (stored_events w (first_test (AtPosition from) (Some to) (λ _, true)))))
  ≤ bound_blockNumber to.
Proof.
  intros Hok Hle.
  destruct (last _) as [e|] eqn:Hlast; [|done]. simpl.
  apply last_Some_elem_of in Hlast.
  apply (stored_events_elem Snapshot empty processParsedLog w) in Hlast as (_ & _ & Hfirst).
  apply first_test_bounds in Hfirst. simpl. lia.
Qed.

(** After the turn of a reorg at a block, no stored snapshot is at or
    after that block, and the latest snapshot is the fold of the stored
    events of the chain up to the block before, at a position before
    the block. *)
Theorem reorged_latest_before (fuel : nat) (w : World) (reorgBlockNumber : Z)
        (s : t Snapshot Serialized) :
  store_ok w → models_synced w →
  valid_table w (table s) → valid_base w (empty, mkPos 0 0 0) →
  1 ≤ reorgBlockNumber →
  (length (all_rows w) < fuel)%nat →
  ∃ s' position,
    reorged fuel w reorgBlockNumber s = Some s'
    ∧ latest s' = Some (snapshot_at w (AtBlock (reorgBlockNumber - 1)), position)
    ∧ pos_blockNumber position < reorgBlockNumber
    ∧ table s' = filter (λ row, ¬ reorgBlockNumber ≤ pos_blockNumber (ss_position row))
                        (table s)
    ∧ ∀ row, row ∈ table s' → pos_blockNumber (ss_position row) < reorgBlockNumber.
Proof.
  intros Hok Hmodels Htable Hempty Hr Hfuel.
  assert (Hfrom : ∀ base, valid_base w base →
            at_or_before (AtBlock (reorgBlockNumber - 1)) base.2 = true →
            ∃ p, replay Snapshot processParsedLog fuel w base.1 base.2
                        (Some (AtBlock (reorgBlockNumber - 1)))
                 = Some (inr (snapshot_at w (AtBlock (reorgBlockNumber - 1)), p))
                 ∧ pos_blockNumber p < reorgBlockNumber).
  { intros [b p0] Hv Hb. simpl in *. apply Z.leb_le in Hb.
    eexists. split.
    - rewrite (replay_sound Snapshot processParsedLog w Hok Hmodels) by done.
      do 3 f_equal. unfold Replay.valid_base in Hv. simpl in Hv. rewrite Hv.
      unfold Replay.snapshot_at. rewrite <- foldl_app.
      rewrite (upto_split Snapshot empty processParsedLog w Hok p0 (AtBlock (reorgBlockNumber - 1)));
        [done|by apply Z.leb_le].
    - pose proof (replay_position w p0 (AtBlock (reorgBlockNumber - 1)) Hok Hb) as H.
      simpl in H. lia. }
  assert (Hkept : ∀ row, row ∈ destroy_from Serialized reorgBlockNumber (table s) →
                         row ∈ table s
                         ∧ pos_blockNumber (ss_position row) < reorgBlockNumber).
  { intros row [Hlt Hin]%list_elem_of_filter. split; [done|lia]. }
  unfold SnapshotsWork.reorged, getSnapshot.
  destruct (nearest Serialized _ (chainId (mem w)) _) as [row|] eqn:Hn.
  - apply (nearest_spec Serialized w) in Hn as (Hin & Hc & Hb).
    destruct (Hfrom (deserialize (ss_snapshot row), ss_position row))
      as (p & Hp & Hlt); [apply Htable; [by apply Hkept|done]|done|].
    simpl in Hp. rewrite Hp. eexists _, p. split_and!; try done.
    intros r Hr'. by apply Hkept.
  - destruct (Hfrom (empty, mkPos 0 0 0)) as (p & Hp & Hlt);
      [done|apply Z.leb_le; simpl; lia|].
    simpl in Hp. rewrite Hp. eexists _, p. split_and!; try done.
    intros r Hr'. by apply Hkept.
Qed.

End SnapshotsReorg.

Section SnapshotsReorgExample.
Import EventStore Replay SnapshotsWork.

Lemma reorged_latest_before_witness :
  ∃ s' position,
    reorged (list string) (list string) [] nameLog (λ s, s) 4 threeTables 25
            (mk None [mkStored 100 (mkPos 10 0 0) ["Trade"];
                      mkStored 100 (mkPos 30 0 0) ["Trade"; "Trade"; "Trade"]])
    = Some s'
    ∧ latest s' = Some (snapshot_at (list string) [] nameLog threeTables (AtBlock (25 - 1)),
                        position)
    ∧ pos_blockNumber position < 25
    ∧ table s' = filter (λ row, ¬ 25 ≤ pos_blockNumber (ss_position row))
                        (table (mk (None : option (list string * EventPosition))
                                   [mkStored 100 (mkPos 10 0 0) ["Trade"];
                                    mkStored 100 (mkPos 30 0 0)
                                             ["Trade"; "Trade"; "Trade"]]))
    ∧ ∀ row, row ∈ table s' → pos_blockNumber (ss_position row) < 25.
Proof.
  apply (reorged_latest_before (list string) (list string) [] nameLog (λ s, s) 4
           threeTables 25
           (mk None [mkStored 100 (mkPos 10 0 0) ["Trade"];
                     mkStored 100 (mkPos 30 0 0) ["Trade"; "Trade"; "Trade"]])
           threeTables_ok threeTables_models).
  - intros row [->|[->|[]%elem_of_nil]%elem_of_cons]%elem_of_cons _;
      vm_compute; reflexivity.
  - vm_compute. reflexivity.
  - lia.
  - vm_compute. lia.
Defined.

End SnapshotsReorgExample.
